(** * fumble.com: trade reconstruction and hindsight evaluation (src/src/App.js)

    A shallow embedding of the algorithmic core of [App.js]:
    the FIFO lot matcher [buildClosedTradesFromFills], the behavioural
    scorer [summarizeClosedTrades], the candle fetcher
    [fetchKlinesAnyBase] / [fetchAllKlines], the window scan
    [bestPriceInWindow] and the hindsight pass [runHindsight].

    Modelling conventions.
    - A JavaScript number is a value of [num]: NaN, the two infinities,
      or a finite value carried as an exact rational kept in lowest
      terms.  Rounding, overflow and the sign of zero are not modelled.
    - A [Date] is its epoch-millisecond time value, an integer ([Z]).
    - A field written [Number.isFinite(x) ? x : null] is an [option Q].
    - [Map] objects keyed by strings are [gmap string _] where only
      lookups matter and association lists where insertion order is
      observed by iteration.
    - The network is an oracle indexed by the number of requests made so
      far; every request is logged. *)

From Stdlib Require Import ZArith QArith Qreduction Lqa Lia.
From Stdlib Require Import List String Ascii Bool Permutation Sorted DecimalString.
From stdpp Require Import gmap strings.

Local Open Scope Z_scope.
Local Open Scope list_scope.

(* ================================================================== *)
(** ** JavaScript numbers *)
(* ================================================================== *)

Inductive num : Type :=
| NaN
| NegInf
| Fin (q : Q)
| PosInf.

Definition Qltb (a b : Q) : bool := negb (Qle_bool b a).
Definition Qsgn (a : Q) : Z := Z.sgn (Qnum a).

(** Literals. *)
Definition nz (z : Z) : num := Fin (inject_Z z).
Definition zero : num := nz 0.

(** [Number.isFinite] *)
Definition Number_isFinite (x : num) : bool :=
  match x with Fin _ => true | _ => false end.

(** [x ? ... ] for [Number.isFinite(x) ? x : null] *)
Definition finiteOrNull (x : num) : option Q :=
  match x with Fin q => Some q | _ => None end.

(** [a < b], [a > b], [a <= b]: false as soon as one side is NaN. *)
Definition js_lt (a b : num) : bool :=
  match a, b with
  | NaN, _ | _, NaN => false
  | _, NegInf => false
  | NegInf, _ => true
  | PosInf, _ => false
  | Fin _, PosInf => true
  | Fin x, Fin y => Qltb x y
  end.

Definition js_gt (a b : num) : bool := js_lt b a.

Definition js_le (a b : num) : bool :=
  match a, b with
  | NaN, _ | _, NaN => false
  | NegInf, _ => true
  | _, PosInf => true
  | _, NegInf => false
  | PosInf, _ => false
  | Fin x, Fin y => Qle_bool x y
  end.

(** [a + b] *)
Definition js_add (a b : num) : num :=
  match a, b with
  | NaN, _ | _, NaN => NaN
  | PosInf, NegInf | NegInf, PosInf => NaN
  | PosInf, _ | _, PosInf => PosInf
  | NegInf, _ | _, NegInf => NegInf
  | Fin x, Fin y => Fin (Qred (x + y))
  end.

Definition js_neg (a : num) : num :=
  match a with
  | NaN => NaN
  | NegInf => PosInf
  | PosInf => NegInf
  | Fin x => Fin (Qred (- x))
  end.

(** [a - b] *)
Definition js_sub (a b : num) : num :=
  match a, b with
  | NaN, _ | _, NaN => NaN
  | PosInf, PosInf | NegInf, NegInf => NaN
  | PosInf, _ | _, NegInf => PosInf
  | NegInf, _ | _, PosInf => NegInf
  | Fin x, Fin y => Fin (Qred (x - y))
  end.

Definition infOfSign (s : Z) : num :=
  match s with
  | Z0 => NaN
  | Zpos _ => PosInf
  | Zneg _ => NegInf
  end.

Definition numSign (a : num) : Z :=
  match a with
  | NaN => 0
  | NegInf => -1
  | PosInf => 1
  | Fin x => Qsgn x
  end.

(** [a * b]: zero times an infinity is NaN. *)
Definition js_mul (a b : num) : num :=
  match a, b with
  | NaN, _ | _, NaN => NaN
  | Fin x, Fin y => Fin (Qred (x * y))
  | _, _ => infOfSign (numSign a * numSign b)
  end.

(** [a / b]: a finite value over an infinity is zero, a non-zero value
    over zero is an infinity, 0/0 and inf/inf are NaN. *)
Definition js_div (a b : num) : num :=
  match a, b with
  | NaN, _ | _, NaN => NaN
  | Fin x, Fin y =>
      if Qeq_bool y 0 then infOfSign (Qsgn x) else Fin (Qred (x / y))
  | Fin _, _ => zero
  | _, Fin y => infOfSign (numSign a * (if Qeq_bool y 0 then 1 else Qsgn y))
  | _, _ => NaN
  end.

(** [Math.min] and [Math.max]: NaN if either argument is NaN. *)
Definition Math_min (a b : num) : num :=
  match a, b with
  | NaN, _ | _, NaN => NaN
  | _, _ => if js_le a b then a else b
  end.

Definition Math_max (a b : num) : num :=
  match a, b with
  | NaN, _ | _, NaN => NaN
  | _, _ => if js_le a b then b else a
  end.

(** [function clamp(n, a, b) { return Math.max(a, Math.min(b, n)); }] *)
Definition clamp (n a b : num) : num := Math_max a (Math_min b n).

(** The literal [1e-12]. *)
Definition eps12 : num := Fin (1 # 1000000000000).

(* ================================================================== *)
(** ** [Array.prototype.sort] with a numeric key comparator *)
(* ================================================================== *)

(** [xs.sort((a, b) => key(a) - key(b))] with integer keys.  The
    language specifies the sort as stable, and for a consistent
    comparator the stable ascending arrangement of a list is unique, so
    the builtin is modelled by stable insertion: an element is placed in
    front of the first later element whose key is not smaller. *)
Section StableSort.
Context {A : Type} (key : A -> Z).

Fixpoint insertByKey (x : A) (l : list A) : list A :=
  match l with
  | [] => [x]
  | y :: l' => if key x <=? key y then x :: l else y :: insertByKey x l'
  end.

Definition sortByKey (l : list A) : list A :=
  fold_right insertByKey [] l.
End StableSort.

(* ================================================================== *)
(** ** Data model of the lot matcher *)
(* ================================================================== *)

Inductive Action : Type := OPEN | CLOSE | UNKNOWN_ACTION.
Inductive Direction : Type := LONG | SHORT | UNKNOWN_DIRECTION.

Definition directionString (d : Direction) : string :=
  match d with
  | LONG => "LONG"
  | SHORT => "SHORT"
  | UNKNOWN_DIRECTION => "UNKNOWN"
  end.

(** A normalised fill, as returned by [parseBloFinRows]. *)
Module Fill.
Record t : Type := mk {
  symbol : string;
  action : Action;
  direction : Direction;
  time : Z;
  avgFill : num;
  qty : num;
  pnl : option Q;
  pnlPct : option Q;
  fee : option Q
}.
End Fill.

(** An open lot: [{ time, price, qty }]. *)
Module Lot.
Record t : Type := mk {
  time : Z;
  price : num;
  qty : num
}.
End Lot.

(** A closed trade, as pushed onto [closedTrades]. *)
Module Trade.
Record t : Type := mk {
  exchange : string;
  symbol : string;
  direction : Direction;
  entryPrice : option Q;
  exitPrice : option Q;
  qty : option Q;
  pnl : option Q;
  pnlPct : option Q;
  holdMins : option Q;
  closeTime : Z;
  note : option string
}.
End Trade.

(** [minsBetween(a, b)] on two dates that may be null. *)
Definition minsBetween (a b : option Z) : num :=
  match a, b with
  | Some ta, Some tb =>
      let ms := tb - ta in
      if ms <? 0 then NaN else js_div (nz ms) (nz 60000)
  | _, _ => NaN
  end.

(** [getKey]: the template string [`${f.symbol}|${f.direction}`]. *)
Definition getKey (f : Fill.t) : string :=
  (Fill.symbol f ++ "|" ++ directionString (Fill.direction f))%string.

(* ================================================================== *)
(** ** The matching loop of a CLOSE fill *)
(* ================================================================== *)

(** The variables of the [while] loop of lines 169-186. *)
Record MatchState : Type := mkMatch {
  remaining : num;
  entryQtyTotal : num;
  entryNotional : num;
  entryTime : option Z;
  stack : list Lot.t
}.

(** [remaining > 0 && stack.length > 0] *)
Definition matchCond (s : MatchState) : bool :=
  js_gt (remaining s) zero && negb (Nat.eqb (length (stack s)) 0).

(** One iteration of the loop body on the head lot [stack[0]]. *)
Definition matchBody (s : MatchState) : MatchState :=
  match stack s with
  | [] => s
  | lot :: rest =>
      let take := Math_min (remaining s) (Lot.qty lot) in
      let qty' := js_sub (Lot.qty lot) take in
      {| remaining := js_sub (remaining s) take;
         entryQtyTotal := js_add (entryQtyTotal s) take;
         entryNotional := js_add (entryNotional s) (js_mul take (Lot.price lot));
         entryTime :=
           match entryTime s with
           | None => Some (Lot.time lot)
           | Some et => if Lot.time lot <? et then Some (Lot.time lot) else Some et
           end;
         stack :=
           if js_le qty' eps12 then rest
           else Lot.mk (Lot.time lot) (Lot.price lot) qty' :: rest |}
  end.

(** The loop, run for at most [fuel] iterations. *)
Fixpoint whileMatch (fuel : nat) (s : MatchState) : MatchState :=
  match fuel with
  | O => s
  | S n => if matchCond s then whileMatch n (matchBody s) else s
  end.

(** Enough iterations for any queue: see [whileMatch_exits]. *)
Definition matchFuel (st : list Lot.t) : nat := (2 * length st + 2)%nat.

Definition initMatch (q : num) (st : list Lot.t) : MatchState :=
  {| remaining := q; entryQtyTotal := zero; entryNotional := zero;
     entryTime := None; stack := st |}.

Definition runMatch (q : num) (st : list Lot.t) : MatchState :=
  whileMatch (matchFuel st) (initMatch q st).

Definition noMatchNote : string := "No matching open found (CSV may be partial).".

(** The trade pushed for a CLOSE fill [f] after the loop ended in [m]. *)
Definition tradeOf (f : Fill.t) (m : MatchState) : Trade.t :=
  let entryPrice :=
    if js_gt (entryQtyTotal m) zero
    then js_div (entryNotional m) (entryQtyTotal m) else NaN in
  let exitPrice := Fill.avgFill f in
  let holdMins :=
    match entryTime m with
    | Some et => minsBetween (Some et) (Some (Fill.time f))
    | None => NaN
    end in
  {| Trade.exchange := "BloFin";
     Trade.symbol := Fill.symbol f;
     Trade.direction := Fill.direction f;
     Trade.entryPrice := finiteOrNull entryPrice;
     Trade.exitPrice := finiteOrNull exitPrice;
     Trade.qty := finiteOrNull (Fill.qty f);
     Trade.pnl := Fill.pnl f;
     Trade.pnlPct := Fill.pnlPct f;
     Trade.holdMins := finiteOrNull holdMins;
     Trade.closeTime := Fill.time f;
     Trade.note := if js_gt (entryQtyTotal m) zero then None else Some noMatchNote |}.

(* ================================================================== *)
(** ** [buildClosedTradesFromFills] *)
(* ================================================================== *)

(** The state of the [for] loop: the [stacks] map and [closedTrades]. *)
Record BuildState : Type := mkBuild {
  stacks : gmap string (list Lot.t);
  closedTrades : list Trade.t
}.

(** [getStack]: creates the empty queue on first use, returns the queue. *)
Definition getStack (key : string) (m : gmap string (list Lot.t))
  : gmap string (list Lot.t) * list Lot.t :=
  match m !! key with
  | Some st => (m, st)
  | None => (<[key := []]> m, [])
  end.

(** One iteration of [for (const f of sorted)]. *)
Definition processFill (b : BuildState) (f : Fill.t) : BuildState :=
  let key := getKey f in
  let '(m, st) := getStack key (stacks b) in
  match Fill.action f with
  | OPEN =>
      let lot := Lot.mk (Fill.time f) (Fill.avgFill f) (Fill.qty f) in
      {| stacks := <[key := st ++ [lot]]> m; closedTrades := closedTrades b |}
  | CLOSE =>
      let r := runMatch (Fill.qty f) st in
      {| stacks := <[key := stack r]> m;
         closedTrades := closedTrades b ++ [tradeOf f r] |}
  | UNKNOWN_ACTION => {| stacks := m; closedTrades := closedTrades b |}
  end.

Definition emptyBuild : BuildState := {| stacks := ∅; closedTrades := [] |}.

Definition buildState (fills : list Fill.t) : BuildState :=
  fold_left processFill (sortByKey Fill.time fills) emptyBuild.

Definition buildClosedTradesFromFills (fills : list Fill.t) : list Trade.t :=
  closedTrades (buildState fills).

(* ================================================================== *)
(** ** Behavioural summary *)
(* ================================================================== *)

(** [arr.filter((x) => Number.isFinite(x))] on values that are finite
    numbers or null. *)
Fixpoint finiteValues (arr : list (option Q)) : list Q :=
  match arr with
  | [] => []
  | Some x :: rest => x :: finiteValues rest
  | None :: rest => finiteValues rest
  end.

(** [a.reduce((s, x) => s + x, 0)] *)
Definition sumNums (a : list Q) : num :=
  fold_left (fun s x => js_add s (Fin x)) a zero.

Definition lengthNum {A : Type} (l : list A) : num := nz (Z.of_nat (length l)).

(** [mean] *)
Definition mean (arr : list (option Q)) : num :=
  let a := finiteValues arr in
  if Nat.eqb (length a) 0 then NaN else js_div (sumNums a) (lengthNum a).

(** [Number.isFinite(t.pnl) && t.pnl > 0] and its mirror image. *)
Definition isWin (t : Trade.t) : bool :=
  match Trade.pnl t with Some p => Qltb 0 p | None => false end.

Definition isLoss (t : Trade.t) : bool :=
  match Trade.pnl t with Some p => Qltb p 0 | None => false end.

Module Summary.
Record t : Type := mk {
  n : nat;
  winRate : num;
  totalPnl : num;
  paperhands : num;
  fumbleScore : num
}.
End Summary.

Section Scorer.
(** [Math.log2] is a builtin whose values are irrational in general;
    the scorer is parametric in it. *)
Variable Math_log2 : num -> num.

Definition summarizeClosedTrades (trades : list Trade.t) : Summary.t :=
  let wins := List.filter isWin trades in
  let losses := List.filter isLoss trades in
  let winRate :=
    if Nat.ltb 0 (length trades)
    then js_div (lengthNum wins) (lengthNum trades) else NaN in
  let totalPnl := sumNums (finiteValues (map Trade.pnl trades)) in
  let avgWinHold := mean (map Trade.holdMins wins) in
  let avgLossHold := mean (map Trade.holdMins losses) in
  let paperhands :=
    if Number_isFinite avgWinHold && Number_isFinite avgLossHold
       && js_gt avgLossHold zero
    then js_div avgWinHold avgLossHold else NaN in
  let fumbleScore :=
    if Number_isFinite paperhands
    then
      let raw := js_sub (nz 60) (js_mul (nz 20) (Math_log2 paperhands)) in
      clamp raw zero (nz 100)
    else NaN in
  {| Summary.n := length trades; Summary.winRate := winRate;
     Summary.totalPnl := totalPnl; Summary.paperhands := paperhands;
     Summary.fumbleScore := fumbleScore |}.
End Scorer.

(** A stand-in for [Math.log2] used to run the scorer on examples: the
    difference of the bit lengths of numerator and denominator. *)
Definition log2Approx (x : num) : num :=
  match x with
  | NaN | NegInf => NaN
  | PosInf => PosInf
  | Fin q =>
      match Qnum q with
      | Z0 => NegInf
      | Zneg _ => NaN
      | Zpos p => nz (Z.log2 (Zpos p) - Z.log2 (Zpos (Qden q)))
      end
  end.

(** Hold durations are never negative. *)
Definition holdNonneg (t : Trade.t) : Prop :=
  match Trade.holdMins t with Some h => (0 <= h)%Q | None => True end.

(* ================================================================== *)
(** ** Candles *)
(* ================================================================== *)

(** A kline row [[openTime, open, high, low, close, ...]]: [k0] is
    [k[0]], [k2] and [k3] are [Number(k[2])] and [Number(k[3])]. *)
Record Kline : Type := mkKline {
  k0 : Z;
  k2 : num;
  k3 : num
}.

Module Candle.
Record candle : Type := mk {
  t : Z;
  high : num;
  low : num
}.
End Candle.

(** [indexKlines] *)
Definition indexKlines (klines : list Kline) : list Candle.candle :=
  map (fun k => {| Candle.t := k0 k; Candle.high := k2 k; Candle.low := k3 k |}) klines.

(** The [for] loop of [bestPriceInWindow], with its [continue] and
    [break], on the pair [(best, found)]. *)
Fixpoint scanWindow (series : list Candle.candle) (startMs endMs : Z)
    (direction : Direction) (best : num) (found : bool) : num * bool :=
  match series with
  | [] => (best, found)
  | c :: rest =>
      if Candle.t c <? startMs then scanWindow rest startMs endMs direction best found
      else if endMs <? Candle.t c then (best, found)
      else
        let best' :=
          match direction with
          | SHORT => Math_min best (Candle.low c)
          | _ => Math_max best (Candle.high c)
          end in
        scanWindow rest startMs endMs direction best' true
  end.

(** [bestPriceInWindow]; [None] is [null]. *)
Definition bestPriceInWindow (series : list Candle.candle) (startMs endMs : Z)
    (direction : Direction) : option num :=
  let init := match direction with SHORT => PosInf | _ => NegInf end in
  let '(best, found) := scanWindow series startMs endMs direction init false in
  if found then Some best else None.

(** The candles a window [[lo, hi]] selects. *)
Definition inWindow (lo hi : Z) (c : Candle.candle) : bool :=
  (lo <=? Candle.t c) && (Candle.t c <=? hi).

Definition candleFinite (c : Candle.candle) : Prop :=
  Number_isFinite (Candle.high c) = true /\ Number_isFinite (Candle.low c) = true.

(* ================================================================== *)
(** ** The price source *)
(* ================================================================== *)

Definition BINANCE_BASES : list string :=
  ["https://api.binance.com"; "https://data-api.binance.vision"].

Definition INTERVALS : list (string * Z) :=
  [("1m", 60000); ("5m", 300000); ("15m", 900000)].

(** [INTERVALS.find((x) => x.label === interval)?.ms ?? 300_000] *)
Definition intervalMsOf (interval : string) : Z :=
  match List.find (fun x => String.eqb (fst x) interval) INTERVALS with
  | Some x => snd x
  | None => 300000
  end.

(** One GET of [`${base}/api/v3/klines`] with its query parameters; the
    [limit] parameter is the constant 1000. *)
Record Request : Type := mkRequest {
  rq_base : string;
  rq_symbol : string;
  rq_interval : string;
  rq_startTime : Z;
  rq_endTime : Z
}.

(** A thrown value: an [Error] with its [name] and [message]. *)
Record JsError : Type := mkError {
  errName : string;
  errMessage : string
}.

(** [e?.message || String(e)] *)
Definition errorText (e : JsError) : string :=
  if String.eqb (errMessage e) "" then errName e else errMessage e.

(** What a request does: [fetch] rejects, or resolves to a response
    with its [ok] flag and [status], whose [json()] resolves to the rows
    or rejects. *)
Inductive Response : Type :=
| FetchRejects (e : JsError)
| FetchResolves (ok : bool) (status : Z) (json : JsError + list Kline).

(** The network: the answer to a request may depend on how many
    requests were made before it. *)
Definition Network : Type := nat -> Request -> Response.

(** Computations that issue requests: the log of requests is threaded
    through, and a computation returns, throws, or runs out of the
    iterations it was given. *)
Inductive Outcome (A : Type) : Type :=
| Returned (a : A)
| Thrown (e : JsError)
| OutOfFuel.
Arguments Returned {A} a.
Arguments Thrown {A} e.
Arguments OutOfFuel {A}.

Definition Fetch (A : Type) : Type := list Request -> Outcome A * list Request.

Definition ret {A : Type} (a : A) : Fetch A := fun log => (Returned a, log).

Definition bind {A B : Type} (m : Fetch A) (k : A -> Fetch B) : Fetch B :=
  fun log =>
    match m log with
    | (Returned a, log') => k a log'
    | (Thrown e, log') => (Thrown e, log')
    | (OutOfFuel, log') => (OutOfFuel, log')
    end.

Notation "'let*' x ':=' m 'in' k" := (bind m (fun x => k))
  (at level 10, x name, m at level 100, k at level 200).

Definition decimal (z : Z) : string := NilZero.string_of_int (Z.to_int z).


Section PriceSource.
Variable net : Network.

(** The [for (const base of BINANCE_BASES)] loop of
    [fetchKlinesAnyBase] with its [try]/[catch]. *)
Fixpoint tryBases (bases : list string) (lastErr : option JsError)
    (symbol interval : string) (startTime endTime : Z)
  : Fetch (list Kline) :=
  match bases with
  | [] =>
      fun log =>
        (Thrown (match lastErr with
                 | Some e => e
                 | None => mkError "Error" "Failed to fetch klines"
                 end), log)
  | base :: rest =>
      fun log =>
        let rq := mkRequest base symbol interval startTime endTime in
        let log' := log ++ [rq] in
        match net (length log) rq with
        | FetchRejects e =>
            tryBases rest (Some e) symbol interval startTime endTime log'
        | FetchResolves false status _ =>
            tryBases rest
              (Some (mkError "Error" ("HTTP " ++ decimal status)))
              symbol interval startTime endTime log'
        | FetchResolves true _ (inl e) =>
            tryBases rest (Some e) symbol interval startTime endTime log'
        | FetchResolves true _ (inr data) => (Returned data, log')
        end
  end.

Definition fetchKlinesAnyBase (symbol interval : string)
    (startTime endTime : Z) : Fetch (list Kline) :=
  tryBases BINANCE_BASES None symbol interval startTime endTime.

(** The cursor after a chunk: last open time plus the interval, or the
    chunk end on an empty response. *)
Definition nextCursor (intervalMs chunkEnd : Z) (kl : list Kline) : Z :=
  match List.last (map Some kl) None with
  | Some k => k0 k + intervalMs
  | None => chunkEnd
  end.

(** The [while (t < endTime)] loop of [fetchAllKlines]. *)
Fixpoint fetchLoop (fuel : nat) (symbol interval : string)
    (intervalMs endTime : Z) (t : Z) (out : list Kline)
  : Fetch (list Kline) :=
  match fuel with
  | O => fun log => (OutOfFuel, log)
  | S fuel' =>
      if t <? endTime then
        let chunkEnd := Z.min endTime (t + intervalMs * 1000) in
        let* kl := fetchKlinesAnyBase symbol interval t chunkEnd in
        fetchLoop fuel' symbol interval intervalMs endTime
          (nextCursor intervalMs chunkEnd kl) (out ++ kl)
      else ret out
  end.

(** Deduplicate by open time: the [seen] set and the [dedup] array. *)
Fixpoint dedupLoop (out : list Kline) (seen : gset Z) (dedup : list Kline)
  : list Kline :=
  match out with
  | [] => dedup
  | k :: rest =>
      if decide (k0 k ∈ seen) then dedupLoop rest seen dedup
      else dedupLoop rest ({[k0 k]} ∪ seen) (dedup ++ [k])
  end.

Definition dedupSort (out : list Kline) : list Kline :=
  sortByKey k0 (dedupLoop out ∅ []).

Definition fetchAllKlines (fuel : nat) (symbol interval : string)
    (startTime endTime : Z) : Fetch (list Kline) :=
  let intervalMs := intervalMsOf interval in
  let* out := fetchLoop fuel symbol interval intervalMs endTime startTime [] in
  ret (dedupSort out).
End PriceSource.

(* ================================================================== *)
(** ** Symbols *)
(* ================================================================== *)

Definition toUpperAscii (c : ascii) : ascii :=
  let k := nat_of_ascii c in
  if Nat.leb 97 k && Nat.leb k 122 then ascii_of_nat (k - 32) else c.

Fixpoint toUpperCase (s : string) : string :=
  match s with
  | EmptyString => EmptyString
  | String c r => String (toUpperAscii c) (toUpperCase r)
  end.

(** [s.replaceAll(x, "")] for a one-character [x]. *)
Fixpoint removeChar (x : ascii) (s : string) : string :=
  match s with
  | EmptyString => EmptyString
  | String c r => if Ascii.eqb c x then removeChar x r else String c (removeChar x r)
  end.

Definition isSpace (c : ascii) : bool :=
  let k := nat_of_ascii c in
  Nat.eqb k 32 || (Nat.leb 9 k && Nat.leb k 13).

Fixpoint trimStart (s : string) : string :=
  match s with
  | EmptyString => EmptyString
  | String c r => if isSpace c then trimStart r else s
  end.

Fixpoint trimEnd (s : string) : string :=
  match s with
  | EmptyString => EmptyString
  | String c r =>
      match trimEnd r with
      | EmptyString => if isSpace c then EmptyString else String c EmptyString
      | r' => String c r'
      end
  end.

Definition trim (s : string) : string := trimEnd (trimStart s).

(** [normalizeToBinanceSymbol], on ASCII symbols. *)
Definition normalizeToBinanceSymbol (sym : string) : string :=
  trim (removeChar "/" (removeChar "-" (toUpperCase sym))).

(* ================================================================== *)
(** ** The hindsight pass *)
(* ================================================================== *)

(** A row of [hData]: the trade spread into the object, plus the
    hindsight fields ([None] is null or absent). *)
Module Hind.
Record t : Type := mk {
  trade : Trade.t;
  bestExit : option num;
  potentialPnl : option num;
  potentialPct : option num;
  realizedPnl : option Q;
  fumbled : option num
}.
End Hind.

(** The component state that [runHindsight] reads and writes. *)
Module App.
Record t : Type := mk {
  closedTrades : list Trade.t;
  interval : string;
  lookaheadHours : Z;
  realismPct : num;
  hStatus : string;
  hLoading : bool;
  hData : option (list Hind.t);
  error : string
}.
End App.

Definition noData (t : Trade.t) : Hind.t :=
  {| Hind.trade := t; Hind.bestExit := None; Hind.potentialPnl := None;
     Hind.potentialPct := None; Hind.realizedPnl := Trade.pnl t;
     Hind.fumbled := None |}.

Definition numOfOption (x : option Q) : option num :=
  match x with Some q => Some (Fin q) | None => None end.

(** The realism adjustment of lines 565-569 on a finite [bestExitRaw]. *)
Definition dampen (exitPrice : option Q) (bestExitRaw : Q) (realism : num) : num :=
  match exitPrice with
  | Some exit => js_add (Fin exit) (js_mul (js_sub (Fin bestExitRaw) (Fin exit)) realism)
  | None => Fin bestExitRaw
  end.

(** The body of [closedTrades.map((t) => ...)]. *)
Definition hindsightOf (symbolSeries : gmap string (list Candle.candle))
    (lookaheadMs : Z) (realism : num) (t : Trade.t) : Hind.t :=
  let sym := normalizeToBinanceSymbol (Trade.symbol t) in
  match symbolSeries !! sym with
  | None => noData t
  | Some series =>
      let startMs := Trade.closeTime t in
      let endMs := startMs + lookaheadMs in
      match bestPriceInWindow series startMs endMs (Trade.direction t) with
      | Some (Fin bestExitRaw) =>
          let bestExit := dampen (Trade.exitPrice t) bestExitRaw realism in
          let potentialPnl :=
            match Trade.entryPrice t, bestExit, Trade.qty t with
            | Some entry, Fin be, Some qty =>
                Some (match Trade.direction t with
                      | SHORT => js_mul (js_sub (Fin entry) (Fin be)) (Fin qty)
                      | _ => js_mul (js_sub (Fin be) (Fin entry)) (Fin qty)
                      end)
            | _, _, _ => None
            end in
          let realized := Trade.pnl t in
          let fumbled :=
            match potentialPnl, realized with
            | Some (Fin pp), Some r => Some (Math_max zero (js_sub (Fin pp) (Fin r)))
            | _, _ => None
            end in
          let potentialPct :=
            match Trade.entryPrice t, bestExit with
            | Some entry, Fin be =>
                let raw := js_mul (js_div (js_sub (Fin be) (Fin entry)) (Fin entry)) (nz 100) in
                Some (match Trade.direction t with SHORT => js_neg raw | _ => raw end)
            | _, _ => None
            end in
          {| Hind.trade := t; Hind.bestExit := Some bestExit;
             Hind.potentialPnl := potentialPnl; Hind.potentialPct := potentialPct;
             Hind.realizedPnl := realized; Hind.fumbled := fumbled |}
      | _ => noData t
      end
  end.

(** [bySymbol]: a [Map] iterated in insertion order. *)
Fixpoint groupPush (sym : string) (t : Trade.t) (m : list (string * list Trade.t))
  : list (string * list Trade.t) :=
  match m with
  | [] => [(sym, [t])]
  | (s, ts) :: rest =>
      if String.eqb s sym then (s, ts ++ [t]) :: rest
      else (s, ts) :: groupPush sym t rest
  end.

Definition groupBySymbol (trades : list Trade.t) : list (string * list Trade.t) :=
  fold_left
    (fun m t =>
       let sym := normalizeToBinanceSymbol (Trade.symbol t) in
       if String.eqb sym "" then m else groupPush sym t m)
    trades [].

(** [Math.min(...xs)] and [Math.max(...xs)] on a non-empty list of
    integers (every group holds at least one trade). *)
Definition minOf (xs : list Z) : Z :=
  match xs with [] => 0 | x :: r => fold_left Z.min r x end.
Definition maxOf (xs : list Z) : Z :=
  match xs with [] => 0 | x :: r => fold_left Z.max r x end.

Definition realismOf (realismPct : num) : num :=
  clamp (js_div realismPct (nz 100)) zero (nz 1).

Section Hindsight.
Variable net : Network.

(** [for (const [sym, trades] of bySymbol.entries())] *)
Fixpoint fetchSymbols (fuel : nat) (interval : string) (lookaheadMs : Z)
    (entries : list (string * list Trade.t))
    (symbolSeries : gmap string (list Candle.candle))
  : Fetch (gmap string (list Candle.candle)) :=
  match entries with
  | [] => ret symbolSeries
  | (sym, trades) :: rest =>
      let intervalMs := intervalMsOf interval in
      let minClose := minOf (map Trade.closeTime trades) in
      let maxClose := maxOf (map Trade.closeTime trades) in
      let startTime := minClose - intervalMs * 2 in
      let endTime := maxClose + lookaheadMs + intervalMs * 2 in
      let* klines := fetchAllKlines net fuel sym interval startTime endTime in
      fetchSymbols fuel interval lookaheadMs rest
        (<[sym := indexKlines klines]> symbolSeries)
  end.

(** The [try] block of [runHindsight]. *)
Definition hindsightBody (fuel : nat) (s : App.t) : Fetch (list Hind.t) :=
  let lookaheadMs := App.lookaheadHours s * 3600000 in
  let bySymbol := groupBySymbol (App.closedTrades s) in
  let* symbolSeries :=
    fetchSymbols fuel (App.interval s) lookaheadMs bySymbol ∅ in
  let realism := realismOf (App.realismPct s) in
  ret (map (hindsightOf symbolSeries lookaheadMs realism) (App.closedTrades s)).

(** [runHindsight]: the state once the promise settles, [None] when
    it does not settle within the iterations given to each fetch. *)
Definition runHindsight (fuel : nat) (s : App.t) (log : list Request)
  : option App.t * list Request :=
  if Nat.eqb (length (App.closedTrades s)) 0 then (Some s, log)
  else
    match hindsightBody fuel s log with
    | (Returned computed, log') =>
        (Some {| App.closedTrades := App.closedTrades s;
                 App.interval := App.interval s;
                 App.lookaheadHours := App.lookaheadHours s;
                 App.realismPct := App.realismPct s;
                 App.hStatus := "Roast complete ✅";
                 App.hLoading := false;
                 App.hData := Some computed;
                 App.error := "" |}, log')
    | (Thrown e, log') =>
        (Some {| App.closedTrades := App.closedTrades s;
                 App.interval := App.interval s;
                 App.lookaheadHours := App.lookaheadHours s;
                 App.realismPct := App.realismPct s;
                 App.hStatus := "";
                 App.hLoading := false;
                 App.hData := None;
                 App.error := "Hindsight failed: " ++ errorText e |}, log')
    | (OutOfFuel, log') => (None, log')
    end.
End Hindsight.

(* ================================================================== *)
(** ** Predicates used in the statements *)
(* ================================================================== *)

Definition keyLe {A : Type} (key : A -> Z) (a b : A) : Prop := key a <= key b.


Definition isClose (f : Fill.t) : bool :=
  match Fill.action f with CLOSE => true | _ => false end.




(** A queue is in opening order when its lot times never decrease from
    the head to the tail. *)
Definition inOpeningOrder (st : list Lot.t) : Prop :=
  StronglySorted Z.le (map Lot.time st).

(** [st'] is what is left of the queue [st] once lots were taken from
    its head: the lots from some position [k] on, where the lot at
    position [k] itself may have lost part of its quantity. *)
Definition headConsumed (st st' : list Lot.t) : Prop :=
  exists k,
    st' = drop k st \/
    exists lot q',
      st !! k = Some lot /\
      st' = Lot.mk (Lot.time lot) (Lot.price lot) q' :: drop (S k) st.

(** Every queue of the map is in opening order and holds no lot opened
    after [T]. *)
Definition queuesOk (T : Z) (m : gmap string (list Lot.t)) : Prop :=
  forall key st, m !! key = Some st ->
    inOpeningOrder st /\ Forall (fun x => x <= T) (map Lot.time st).

(** The running extremum of [bestPriceInWindow] over the candles [w]. *)
Definition foldBest (direction : Direction) (best : num) (w : list Candle.candle) : num :=
  fold_left
    (fun b c =>
       match direction with
       | SHORT => Math_min b (Candle.low c)
       | _ => Math_max b (Candle.high c)
       end) w best.

Definition notNaN (x : num) : Prop := x <> NaN.

(** The first row of [l] whose open time is [k]. *)
Definition firstWithOpenTime (k : Z) (l : list Kline) : option Kline :=
  List.find (fun x => k0 x =? k) l.

(** The last row of every non-empty successful response opens at or
    after the requested start time. *)
Definition respectsStart (net : Network) : Prop :=
  forall n rq status data k,
    net n rq = FetchResolves true status (inr data) ->
    List.last (map Some data) None = Some k ->
    rq_startTime rq <= k0 k.

(** The number of chunks still to request when the cursor is at [t]:
    the intervals left before [endTime], rounded up. *)
Definition chunksLeft (endTime t intervalMs : Z) : nat :=
  Z.to_nat ((endTime - t + intervalMs - 1) / intervalMs).


Definition primaryBase : string := "https://api.binance.com".
Definition fallbackBase : string := "https://data-api.binance.vision".





(* ================================================================== *)
(** ** Sample data *)
(* ================================================================== *)

Definition sampleFill (a : Action) (d : Direction) (time price qty : Z) : Fill.t :=
  Fill.mk "BTCUSDT" a d time (nz price) (nz qty) None None None.

(** A CLOSE of 2 against a queue holding a single lot of 1. *)
Definition c1_close : Fill.t := sampleFill CLOSE LONG 10 110 2.
Definition c1_queue : list Lot.t := [Lot.mk 0 (nz 100) (nz 1)].



(** A CLOSE of 2 with one open lot of 1 before it, and a CLOSE of 4
    with nothing open in its queue. *)
Definition c10_fills : list Fill.t :=
  [sampleFill OPEN LONG 0 100 1; sampleFill CLOSE LONG 10 110 2;
   sampleFill CLOSE SHORT 20 90 4].

(** A LONG trade closed at time 1000 at price 100, and a series whose
    only candle opens exactly one hour (3600000 ms) later. *)
Definition c3_trade : Trade.t :=
  {| Trade.exchange := "BloFin"; Trade.symbol := "BTCUSDT"; Trade.direction := LONG;
     Trade.entryPrice := Some 90%Q; Trade.exitPrice := Some 100%Q;
     Trade.qty := Some 1%Q; Trade.pnl := Some 10%Q; Trade.pnlPct := None;
     Trade.holdMins := Some 5%Q; Trade.closeTime := 1000; Trade.note := None |}.

Definition c3_series : list Candle.candle :=
  [Candle.mk 3601000 (nz 120) (nz 80)].

(** A series with candles before, inside and after the window
    [[1000, 3601000]]. *)
Definition c3_long_series : list Candle.candle :=
  [Candle.mk 0 (nz 500) (nz 1); Candle.mk 1000 (nz 110) (nz 95);
   Candle.mk 301000 (nz 130) (nz 105); Candle.mk 3601000 (nz 120) (nz 80);
   Candle.mk 3901000 (nz 900) (nz 2)].

(** The same trade with no exit price (the CLOSE row had no average
    fill). *)
Definition c4_trade : Trade.t :=
  {| Trade.exchange := "BloFin"; Trade.symbol := "BTCUSDT"; Trade.direction := LONG;
     Trade.entryPrice := Some 90%Q; Trade.exitPrice := None;
     Trade.qty := Some 1%Q; Trade.pnl := Some 10%Q; Trade.pnlPct := None;
     Trade.holdMins := Some 5%Q; Trade.closeTime := 1000; Trade.note := None |}.

(** A winner held for one minute and a loser held for four. *)
Definition c8_fills : list Fill.t :=
  [Fill.mk "BTCUSDT" OPEN LONG 0 (nz 100) (nz 1) None None None;
   Fill.mk "BTCUSDT" CLOSE LONG 60000 (nz 110) (nz 1) (Some 10%Q) None None;
   Fill.mk "ETHUSDT" OPEN LONG 100000 (nz 50) (nz 1) None None None;
   Fill.mk "ETHUSDT" CLOSE LONG 340000 (nz 45) (nz 1) (Some (-5)%Q) None None].

(** A price source that answers every request with the single candle
    opening at the requested start. *)
Definition sampleNet : Network :=
  fun _ rq => FetchResolves true 200 (inr [mkKline (rq_startTime rq) (nz 2) (nz 1)]).

(** A price source whose primary base is down and whose fallback
    answers, and one where both are down. *)
Definition primaryDownNet : Network :=
  fun _ rq =>
    if String.eqb (rq_base rq) primaryBase
    then FetchResolves false 451 (inl (mkError "SyntaxError" "Unexpected token"))
    else FetchResolves true 200 (inr [mkKline (rq_startTime rq) (nz 2) (nz 1)]).

Definition allDownNet : Network :=
  fun _ rq =>
    if String.eqb (rq_base rq) primaryBase
    then FetchRejects (mkError "TypeError" "Failed to fetch")
    else FetchResolves false 503 (inl (mkError "SyntaxError" "Unexpected token")).

Definition sampleApp : App.t :=
  {| App.closedTrades := [c3_trade]; App.interval := "5m";
     App.lookaheadHours := 1; App.realismPct := nz 80; App.hStatus := "";
     App.hLoading := false; App.hData := None; App.error := "" |}.


(* ================================================================== *)
(** ** Further notions for the lot matcher *)
(* ================================================================== *)

(** The queue key of an emitted trade, built like [getKey]. *)
Definition tradeKey (t : Trade.t) : string :=
  (Trade.symbol t ++ "|" ++ directionString (Trade.direction t))%string.

Definition hasKey (k : string) (f : Fill.t) : bool := String.eqb (getKey f) k.

Definition tradeHasKey (k : string) (t : Trade.t) : bool := String.eqb (tradeKey t) k.

(** The queue stored under [k], empty when [k] was never used. *)
Definition queueOf (m : gmap string (list Lot.t)) (k : string) : list Lot.t :=
  match m !! k with Some st => st | None => [] end.

(** What a CLOSE fill hands over to its trade unchanged. *)
Definition carries (f : Fill.t) (t : Trade.t) : Prop :=
  Trade.exchange t = "BloFin"%string /\
  Trade.symbol t = Fill.symbol f /\
  Trade.direction t = Fill.direction f /\
  Trade.closeTime t = Fill.time f /\
  Trade.exitPrice t = finiteOrNull (Fill.avgFill f) /\
  Trade.qty t = finiteOrNull (Fill.qty f) /\
  Trade.pnl t = Fill.pnl f /\
  Trade.pnlPct t = Fill.pnlPct f.

(** A lot as the data model wants it: finite price, finite positive
    quantity. *)
Definition lotWellFormed (l : Lot.t) : Prop :=
  (exists p, Lot.price l = Fin p) /\ (exists a, Lot.qty l = Fin a /\ (0 < a)%Q).

(** The matching loop has either not taken anything yet, or it has taken
    a positive quantity and recorded an entry time not after [T]. *)
Definition matchedSoFar (T : Z) (s : MatchState) : Prop :=
  (exists rem, remaining s = Fin rem) /\
  Forall lotWellFormed (stack s) /\
  Forall (fun l => Lot.time l <= T) (stack s) /\
  ((entryTime s = None /\ entryQtyTotal s = zero /\ entryNotional s = zero) \/
   (exists et c v, entryTime s = Some et /\ et <= T /\
                   entryQtyTotal s = Fin c /\ (0 < c)%Q /\
                   entryNotional s = Fin v)).

(** A lot whose price lies between [lo] and [hi]. *)
Definition lotPricedWithin (lo hi : Q) (l : Lot.t) : Prop :=
  exists p, Lot.price l = Fin p /\ (lo <= p <= hi)%Q.

(** The matching loop has taken a quantity [c] whose notional lies
    between [lo * c] and [hi * c]. *)
Definition pricedWithin (lo hi : Q) (s : MatchState) : Prop :=
  Forall lotWellFormed (stack s) /\
  Forall (lotPricedWithin lo hi) (stack s) /\
  exists c v,
    entryQtyTotal s = Fin c /\ entryNotional s = Fin v /\
    (0 <= c)%Q /\ (lo * c <= v <= hi * c)%Q.

(** Sample fills of two symbols, interleaved in time. *)
Definition twoSymbolFills : list Fill.t :=
  [Fill.mk "BTCUSDT" OPEN LONG 0 (nz 100) (nz 2) None None None;
   Fill.mk "ETHUSDT" OPEN SHORT 5 (nz 50) (nz 1) None None None;
   Fill.mk "BTCUSDT" CLOSE LONG 10 (nz 110) (nz 1) (Some 10%Q) None None;
   Fill.mk "ETHUSDT" CLOSE SHORT 15 (nz 45) (nz 1) (Some 5%Q) None None;
   Fill.mk "BTCUSDT" CLOSE LONG 20 (nz 120) (nz 1) (Some 20%Q) None None].

(* ================================================================== *)
(** ** The hindsight summary *)
(* ================================================================== *)

Module HSummary.
Record t : Type := mk {
  totalFumbled : num;
  totalPotential : num;
  totalRealized : num;
  worst : option Hind.t
}.
End HSummary.

(** [Number.isFinite(x) ? x : 0] on a field that is null or a number. *)
Definition finiteOrZero (x : option num) : num :=
  match x with Some (Fin q) => Fin q | _ => zero end.

(** [(x) => Number.isFinite(x.fumbled)] *)
Definition hasFiniteFumbled (x : Hind.t) : bool :=
  match Hind.fumbled x with Some (Fin _) => true | _ => false end.

(** The value of [x.fumbled] on a row that passed the filter. *)
Definition fumbledOf (x : Hind.t) : Q :=
  match Hind.fumbled x with Some (Fin q) => q | _ => 0%Q end.

(** [xs.sort((a, b) => key(b) - key(a))]: the stable descending sort,
    by insertion in front of the first later element whose key is not
    larger. *)
Section StableSortDesc.
Context {A : Type} (key : A -> Q).

Fixpoint insertDescBy (x : A) (l : list A) : list A :=
  match l with
  | [] => [x]
  | y :: l' => if Qle_bool (key y) (key x) then x :: l else y :: insertDescBy x l'
  end.

Definition sortDescBy (l : list A) : list A := fold_right insertDescBy [] l.
End StableSortDesc.

(** The [hindsightSummary] memo; [None] is null. *)
Definition hindsightSummary (hData : option (list Hind.t)) : option HSummary.t :=
  match hData with
  | None => None
  | Some rows =>
      Some
        {| HSummary.totalFumbled :=
             fold_left (fun s x => js_add s (finiteOrZero (Hind.fumbled x))) rows zero;
           HSummary.totalPotential :=
             fold_left (fun s x => js_add s (finiteOrZero (Hind.potentialPnl x))) rows zero;
           HSummary.totalRealized :=
             fold_left
               (fun s x => js_add s (finiteOrZero (numOfOption (Hind.realizedPnl x))))
               rows zero;
           HSummary.worst :=
             hd_error (sortDescBy fumbledOf (List.filter hasFiniteFumbled rows)) |}
  end.

(* ================================================================== *)
(** ** Notions on strings *)
(* ================================================================== *)

Fixpoint allChars (P : ascii -> bool) (s : string) : bool :=
  match s with
  | EmptyString => true
  | String c r => P c && allChars P r
  end.

(** A character a normalised symbol may hold: neither a hyphen nor a
    slash, and not a lower-case letter. *)
Definition symbolChar (c : ascii) : bool :=
  negb (Ascii.eqb c "-") && negb (Ascii.eqb c "/") && Ascii.eqb (toUpperAscii c) c.

(** A string that does not start with white space. *)
Definition startsClean (s : string) : Prop :=
  match s with
  | EmptyString => True
  | String c _ => isSpace c = false
  end.

(** A character that is not white space. *)
Definition inkChar (c : ascii) : bool := negb (isSpace c).

(* ================================================================== *)
(** ** The symbols of the closed trades *)
(* ================================================================== *)

(** [set.add(s)] on a [Set] kept as the list of its members in
    insertion order. *)
Definition setAdd (set : list string) (s : string) : list string :=
  if existsb (String.eqb s) set then set else set ++ [s].

(** The [uniqueSymbols] memo: the set of normalised symbols, then
    [Array.from(set).filter(Boolean)]. *)
Definition uniqueSymbols (trades : list Trade.t) : list string :=
  List.filter (fun s => negb (String.eqb s ""))
    (fold_left (fun set t => setAdd set (normalizeToBinanceSymbol (Trade.symbol t)))
       trades []).

Definition symbolIs (sym : string) (t : Trade.t) : bool :=
  String.eqb (normalizeToBinanceSymbol (Trade.symbol t)) sym.

(** The state of the two loops after the trades [p]: the groups [m] of
    [bySymbol] and the members [set] of the symbol set. *)
Definition groupsAfter (p : list Trade.t) (m : list (string * list Trade.t))
    (set : list string) : Prop :=
  map fst m = List.filter (fun s => negb (String.eqb s "")) set /\
  List.NoDup set /\
  Forall (fun g => fst g <> ""%string /\ snd g <> [] /\
                   snd g = List.filter (symbolIs (fst g)) p) m /\
  (forall t, In t p -> In (normalizeToBinanceSymbol (Trade.symbol t)) set).

(* ================================================================== *)
(** ** The requests of a fetch *)
(* ================================================================== *)

(** A request for one chunk of the range ending at [endTime]: for the
    given symbol and interval, to one of the bases, with a non-empty
    time range that ends by [endTime] and spans at most 1000 intervals. *)
Definition chunkRequest (symbol interval : string) (endTime : Z) (rq : Request) : Prop :=
  rq_symbol rq = symbol /\ rq_interval rq = interval /\
  In (rq_base rq) BINANCE_BASES /\
  rq_startTime rq < rq_endTime rq <= endTime /\
  rq_endTime rq - rq_startTime rq <= intervalMsOf interval * 1000.



(* ================================================================== *)
(** ** Reading the export *)
(* ================================================================== *)

(** Strings are read as ASCII text, as for the symbols above. *)
Definition toLowerAscii (c : ascii) : ascii :=
  let k := nat_of_ascii c in
  if Nat.leb 65 k && Nat.leb k 90 then ascii_of_nat (k + 32) else c.

Fixpoint toLowerCase (s : string) : string :=
  match s with
  | EmptyString => EmptyString
  | String c r => String (toLowerAscii c) (toLowerCase r)
  end.

(** [s.replaceAll(x, y)] for one-character [x] and [y]. *)
Fixpoint replaceChar (x y : ascii) (s : string) : string :=
  match s with
  | EmptyString => EmptyString
  | String c r => String (if Ascii.eqb c x then y else c) (replaceChar x y r)
  end.

(** [s.replace(/\s+/g, " ")]: every run of white space becomes one
    space. *)
Fixpoint collapseSpaces (s : string) : string :=
  match s with
  | EmptyString => EmptyString
  | String c r =>
      if isSpace c then
        match r with
        | EmptyString => String " " EmptyString
        | String c' _ =>
            if isSpace c' then collapseSpaces r else String " " (collapseSpaces r)
        end
      else String c (collapseSpaces r)
  end.

(** [cleanHeader] *)
Definition cleanHeader (h : string) : string :=
  collapseSpaces
    (replaceChar "-" " " (replaceChar "_" " " (toLowerCase (trim h)))).

Inductive Source : Type := BLOFIN_ORDER_HISTORY | UNKNOWN_SOURCE.

(** [H.includes(x)] on an array of strings. *)
Definition includes (H : list string) (x : string) : bool :=
  existsb (String.eqb x) H.

(** The headers [detectSource] asks for. *)
Definition blofinHeaders : list string :=
  ["Underlying Asset"; "Margin Mode"; "Order Time"; "Avg Fill"; "Filled";
   "PNL"; "PNL%"].

(** [detectSource] *)
Definition detectSource (headers : list string) : Source :=
  let H := map cleanHeader headers in
  let has := fun x => includes H (cleanHeader x) in
  if has "Underlying Asset" && has "Margin Mode" && has "Order Time" &&
     has "Avg Fill" && has "Filled" && has "PNL" && has "PNL%"
  then BLOFIN_ORDER_HISTORY
  else UNKNOWN_SOURCE.

(** [s.split(sep)] for a one-character separator. *)
Fixpoint splitOn (sep : ascii) (s : string) : list string :=
  match s with
  | EmptyString => [EmptyString]
  | String c r =>
      if Ascii.eqb c sep then EmptyString :: splitOn sep r
      else
        match splitOn sep r with
        | p :: ps => String c p :: ps
        | [] => [String c EmptyString]
        end
  end.

(** [s.includes(p)] on strings. *)
Fixpoint strIncludes (p s : string) : bool :=
  String.prefix p s ||
  match s with
  | EmptyString => false
  | String _ r => strIncludes p r
  end.

(** A parsed CSV row: the cell under each header; a header the row has
    no cell for is absent. *)
Definition Row : Type := gmap string string.

(** [String(r[k] || "")] *)
Definition cell (r : Row) (k : string) : string :=
  match r !! k with Some v => v | None => ""%string end.

(** The object [parseBloFinRows] builds for a row, before the last
    filter; [time] is null when the order time cannot be read. *)
Module Parsed.
Record t : Type := mk {
  symbol : string;
  side : string;
  action : Action;
  direction : Direction;
  time : option Z;
  avgFill : num;
  qty : num;
  pnl : option Q;
  pnlPct : option Q;
  fee : option Q
}.
End Parsed.

Section Parsing.
(** The conversions of the language: [Number(s)] on a string, the
    time value of [new Date(s)], and that of
    [new Date(yyyy, mm - 1, dd, HH, MM, SS)]; a date without a time
    value (an invalid date) is [None]. *)
Variable Number : string -> num.
Variable Date_parse : string -> option Z.
Variable Date_local : num -> num -> num -> num -> num -> num -> option Z.

(** [parseNumWithUnits]; a null or undefined cell is [None]. *)
Definition parseNumWithUnits (v : option string) : num :=
  match v with
  | None => NaN
  | Some v =>
      let s := trim v in
      if String.eqb s "" || String.eqb s "--" then NaN
      else
        let token := removeChar "," (nth 0 (splitOn " " s) ""%string) in
        let n := Number token in
        if Number_isFinite n then n else NaN
  end.

(** [Number(x)] on an element of a destructured array, [undefined]
    (not a finite number) when the array is too short. *)
Definition numberAt (parts : list string) (i : nat) : num :=
  match nth_error parts i with
  | Some x => Number x
  | None => NaN
  end.

(** [parseTimeBloFin] *)
Definition parseTimeBloFin (v : option string) : option Z :=
  match v with
  | None => None
  | Some v =>
      if String.eqb v "" then None
      else
        let s := trim v in
        if String.eqb s "" then None
        else
          match Date_parse s with
          | Some d => Some d
          | None =>
              let parts := splitOn " " s in
              match nth_error parts 0, nth_error parts 1 with
              | Some datePart, Some timePart =>
                  if String.eqb datePart "" || String.eqb timePart "" then None
                  else
                    let dateParts := splitOn "/" datePart in
                    let timeParts := splitOn ":" timePart in
                    let mm := numberAt dateParts 0 in
                    let dd := numberAt dateParts 1 in
                    let yyyy := numberAt dateParts 2 in
                    let HH := numberAt timeParts 0 in
                    let MM := numberAt timeParts 1 in
                    let SS := numberAt timeParts 2 in
                    if existsb (fun x => negb (Number_isFinite x))
                         [mm; dd; yyyy; HH; MM; SS]
                    then None
                    else Date_local yyyy (js_sub mm (nz 1)) dd HH MM SS
              | _, _ => None
              end
          end
  end.

(** The first filter of [parseBloFinRows]. *)
Definition isFilled (r : Row) : bool :=
  String.eqb (toLowerCase (cell r "Status")) "filled".

(** The body of the [map] of [parseBloFinRows]. *)
Definition parseRow (r : Row) : Parsed.t :=
  let symbol := trim (cell r "Underlying Asset") in
  let side := trim (cell r "Side") in
  let time := parseTimeBloFin (r !! "Order Time") in
  let avgFill := parseNumWithUnits (r !! "Avg Fill") in
  let qty := parseNumWithUnits (r !! "Filled") in
  let pnl := parseNumWithUnits (r !! "PNL") in
  let pnlPct := parseNumWithUnits (r !! "PNL%") in
  let fee := parseNumWithUnits (r !! "Fee") in
  let s := toUpperCase side in
  let action := if strIncludes "OPEN" s then OPEN else UNKNOWN_ACTION in
  let action := if strIncludes "CLOSE" s then CLOSE else action in
  let direction := if strIncludes "LONG" s then LONG else UNKNOWN_DIRECTION in
  let direction := if strIncludes "SHORT" s then SHORT else direction in
  {| Parsed.symbol := symbol; Parsed.side := side;
     Parsed.action := action; Parsed.direction := direction;
     Parsed.time := time; Parsed.avgFill := avgFill; Parsed.qty := qty;
     Parsed.pnl := finiteOrNull pnl;
     Parsed.pnlPct := finiteOrNull pnlPct;
     Parsed.fee := finiteOrNull fee |}.

(** The last filter of [parseBloFinRows]. *)
Definition isUsable (x : Parsed.t) : bool :=
  negb (String.eqb (Parsed.symbol x) "") &&
  match Parsed.action x with UNKNOWN_ACTION => false | _ => true end &&
  match Parsed.direction x with UNKNOWN_DIRECTION => false | _ => true end &&
  match Parsed.time x with Some _ => true | None => false end.

(** A row that passed the last filter, as the fill the matcher reads:
    its time is then a date. *)
Definition fillOf (x : Parsed.t) : list Fill.t :=
  match Parsed.time x with
  | Some time =>
      [Fill.mk (Parsed.symbol x) (Parsed.action x) (Parsed.direction x) time
         (Parsed.avgFill x) (Parsed.qty x) (Parsed.pnl x) (Parsed.pnlPct x)
         (Parsed.fee x)]
  | None => []
  end.

(** [parseBloFinRows] *)
Definition parseBloFinRows (rows : list Row) : list Fill.t :=
  flat_map fillOf (List.filter isUsable (map parseRow (List.filter isFilled rows))).

(** What [handleFile] leaves in the state once the file is parsed:
    the detected source, the closed trades and the error text. *)
Definition unsupportedText : string :=
  "Unsupported CSV for now. (BloFin Order History supported). Next we’ll hardcode Binance + Bybit exports too.".

Definition handleFile (headers : list string) (rows : list Row)
  : Source * list Trade.t * string :=
  let detected := detectSource headers in
  match detected with
  | BLOFIN_ORDER_HISTORY =>
      let fills := parseBloFinRows rows in
      (* a trade's [closeTime] is a date, which the filter
         [(t) => t.closeTime] always keeps *)
      let closed := List.filter (fun _ => true) (buildClosedTradesFromFills fills) in
      (detected, closed, ""%string)
  | UNKNOWN_SOURCE => (detected, [], unsupportedText)
  end.
End Parsing.

(* ================================================================== *)
(** ** Notions on headers *)
(* ================================================================== *)

(** The same change applied to every character. *)
Fixpoint mapChars (f : ascii -> ascii) (s : string) : string :=
  match s with
  | EmptyString => EmptyString
  | String c r => String (f c) (mapChars f r)
  end.

(** What [cleanHeader] does to one character before white space is
    collapsed. *)
Definition cleanChar (c : ascii) : ascii :=
  let c1 := toLowerAscii c in
  let c2 := if Ascii.eqb c1 "_" then " "%char else c1 in
  if Ascii.eqb c2 "-" then " "%char else c2.

(** A character a cleaned header may hold: no underscore, no hyphen,
    no upper-case letter. *)
Definition headerChar (c : ascii) : bool :=
  negb (Ascii.eqb c "_") && negb (Ascii.eqb c "-") && Ascii.eqb (toLowerAscii c) c.

(** Every white-space character is a space, and no two are adjacent. *)
Fixpoint singleSpaced (s : string) : bool :=
  match s with
  | EmptyString => true
  | String c r =>
      (if isSpace c then
         Ascii.eqb c " " &&
         match r with
         | EmptyString => true
         | String c' _ => negb (isSpace c')
         end
       else true) && singleSpaced r
  end.

(** A character of a word of a header: not white space, not a
    separator. *)
Definition wordChar (c : ascii) : bool :=
  inkChar c && negb (Ascii.eqb c "_") && negb (Ascii.eqb c "-").

(** A character that separates the words of a header. *)
Definition sepChar (c : ascii) : bool :=
  isSpace c || Ascii.eqb c "_" || Ascii.eqb c "-".

(** A character of ASCII text: on such text [toUpperCase],
    [toLowerCase], [trim] and the white-space class act as above. *)
Definition isAsciiChar (c : ascii) : bool := Nat.ltb (nat_of_ascii c) 128.

(** What every fill read from an export satisfies. *)
Definition fillWellFormed (f : Fill.t) : Prop :=
  Fill.symbol f <> ""%string /\
  trim (Fill.symbol f) = Fill.symbol f /\
  (Fill.action f = OPEN \/ Fill.action f = CLOSE) /\
  (Fill.direction f = LONG \/ Fill.direction f = SHORT) /\
  (Fill.avgFill f = NaN \/ exists q, Fill.avgFill f = Fin q) /\
  (Fill.qty f = NaN \/ exists q, Fill.qty f = Fin q).
(* ================================================================== *)
(** * Properties *)
(* ================================================================== *)

(** ** Comparisons and arithmetic on finite numbers *)

Lemma Qltb_true a b : Qltb a b = true <-> (a < b)%Q.
Proof.
  unfold Qltb. rewrite negb_true_iff, <- not_true_iff_false, Qle_bool_iff.
  split; [apply Qnot_le_lt | apply Qlt_not_le].
Qed.

Lemma Qltb_false a b : Qltb a b = false <-> (b <= a)%Q.
Proof. unfold Qltb. now rewrite negb_false_iff, Qle_bool_iff. Qed.

Lemma Qle_bool_false a b : Qle_bool a b = false <-> (b < a)%Q.
Proof.
  rewrite <- not_true_iff_false, Qle_bool_iff.
  split; [apply Qnot_le_lt | apply Qlt_not_le].
Qed.

Lemma Qle_bool_true a b : Qle_bool a b = true <-> (a <= b)%Q.
Proof. apply Qle_bool_iff. Qed.


Lemma js_gt_zero_Fin r : js_gt (Fin r) zero = true <-> (0 < r)%Q.
Proof. cbn. apply Qltb_true. Qed.

Lemma js_gt_zero_Fin_false r : js_gt (Fin r) zero = false <-> (r <= 0)%Q.
Proof. cbn. apply Qltb_false. Qed.



(** ** The stable sort *)

Section StableSortFacts.
Context {A : Type} (key : A -> Z).

Lemma insertByKey_perm x l : Permutation (x :: l) (insertByKey key x l).
Proof.
  induction l as [|y l IH]; simpl; [reflexivity|].
  destruct (key x <=? key y); [reflexivity|].
  rewrite perm_swap. now apply perm_skip.
Qed.

Lemma sortByKey_perm l : Permutation l (sortByKey key l).
Proof.
  induction l as [|x l IH]; simpl; [reflexivity|].
  rewrite <- insertByKey_perm. now apply perm_skip.
Qed.

Lemma insertByKey_In x y l : In y (insertByKey key x l) <-> y = x \/ In y l.
Proof.
  split; intros H.
  - apply (Permutation_in _ (Permutation_sym (insertByKey_perm x l))) in H.
    destruct H; auto.
  - apply (Permutation_in _ (insertByKey_perm x l)).
    destruct H; [left|right]; auto.
Qed.

Lemma insertByKey_sorted x l :
  StronglySorted (keyLe key) l -> StronglySorted (keyLe key) (insertByKey key x l).
Proof.
  induction 1 as [|y l Hs IH Hall]; simpl.
  - repeat constructor.
  - destruct (Z.leb_spec (key x) (key y)) as [Hle|Hgt].
    + constructor; [now constructor|].
      constructor; [exact Hle|].
      eapply List.Forall_impl; [|exact Hall].
      intros z Hz. unfold keyLe in *. lia.
    + constructor; [exact IH|].
      apply List.Forall_forall. intros z Hz.
      apply insertByKey_In in Hz. destruct Hz as [->|Hz].
      * unfold keyLe. lia.
      * rewrite List.Forall_forall in Hall. now apply Hall.
Qed.

Lemma sortByKey_sorted l : StronglySorted (keyLe key) (sortByKey key l).
Proof.
  induction l as [|x l IH]; simpl; [constructor|].
  now apply insertByKey_sorted.
Qed.

(** Elements of one key keep their relative order. *)
Lemma insertByKey_stable k x l :
  List.filter (fun a => key a =? k) (insertByKey key x l) =
  List.filter (fun a => key a =? k) (x :: l).
Proof.
  induction l as [|y l IH]; [reflexivity|].
  cbn [insertByKey].
  destruct (Z.leb_spec (key x) (key y)) as [Hle|Hgt]; [reflexivity|].
  cbn [List.filter] in *. rewrite IH.
  destruct (Z.eqb_spec (key x) k) as [Hx|Hx];
    destruct (Z.eqb_spec (key y) k) as [Hy|Hy]; try reflexivity.
  lia.
Qed.

Lemma sortByKey_stable k l :
  List.filter (fun a => key a =? k) (sortByKey key l) =
  List.filter (fun a => key a =? k) l.
Proof.
  induction l as [|x l IH]; [reflexivity|].
  cbn [sortByKey fold_right]. rewrite insertByKey_stable.
  cbn [List.filter]. fold (sortByKey key l). now rewrite IH.
Qed.
End StableSortFacts.

(** ** The matching loop ends *)



Lemma matchCond_inv s :
  matchCond s = true ->
  js_gt (remaining s) zero = true /\ exists lot rest, stack s = lot :: rest.
Proof.
  unfold matchCond. rewrite andb_true_iff. intros [H1 H2]. split; [exact H1|].
  destruct (stack s) as [|lot rest]; [discriminate|eauto].
Qed.





(** Invariants of the loop. *)
Lemma whileMatch_invariant (P : MatchState -> Prop) :
  (forall s, P s -> matchCond s = true -> P (matchBody s)) ->
  forall fuel s, P s -> P (whileMatch fuel s).
Proof.
  intros Hstep fuel. induction fuel as [|fuel IH]; intros s Hs; simpl; [exact Hs|].
  destruct (matchCond s) eqn:Hc; [|exact Hs].
  apply IH. now apply Hstep.
Qed.

(** ** The quantity a CLOSE takes *)









(** ** The entry price is the quantity-weighted average *)


Lemma matchBody_last s lt lp a rest rem :
  remaining s = Fin rem -> stack s = Lot.mk lt lp (Fin a) :: rest ->
  (rem == a)%Q ->
  matchBody s =
  {| remaining := js_sub (Fin rem) (Fin rem);
     entryQtyTotal := js_add (entryQtyTotal s) (Fin rem);
     entryNotional := js_add (entryNotional s) (js_mul (Fin rem) lp);
     entryTime := match entryTime s with
                  | None => Some lt
                  | Some et => if lt <? et then Some lt else Some et
                  end;
     stack := rest |}.
Proof.
  intros Hr Hst Heq. unfold matchBody. rewrite Hst, Hr.
  cbn [Lot.qty Lot.time Lot.price Math_min js_le].
  assert (E : Qle_bool rem a = true) by (apply Qle_bool_true; lra).
  rewrite E. cbn [js_sub js_le eps12].
  assert (E2 : Qle_bool (Qred (a - rem)) (1 # 1000000000000) = true).
  { apply Qle_bool_true. rewrite Qred_correct.
    assert (E3 : (a - rem == 0)%Q) by lra. rewrite E3. discriminate. }
  rewrite E2. reflexivity.
Qed.






(** ** The recorded quantity of a closed trade *)

Lemma processFill_qty b f :
  map Trade.qty (closedTrades (processFill b f)) =
  map Trade.qty (closedTrades b) ++
    (if isClose f then [finiteOrNull (Fill.qty f)] else []).
Proof.
  unfold processFill, isClose.
  destruct (getStack (getKey f) (stacks b)) as [m st].
  destruct (Fill.action f); cbn [closedTrades].
  - now rewrite app_nil_r.
  - now rewrite map_app.
  - now rewrite app_nil_r.
Qed.

Lemma fold_processFill_qty l b :
  map Trade.qty (closedTrades (fold_left processFill l b)) =
  map Trade.qty (closedTrades b) ++
    map (fun f => finiteOrNull (Fill.qty f)) (List.filter isClose l).
Proof.
  revert b. induction l as [|f l IH]; intros b; cbn [fold_left List.filter].
  - now rewrite app_nil_r.
  - rewrite IH, processFill_qty, <- app_assoc.
    destruct (isClose f); reflexivity.
Qed.

(** C10.  The [qty] of an emitted trade is the CLOSE fill's own
    quantity (null when not finite), whatever was matched: the trades'
    quantities are, in replay order, those of the CLOSE fills; for one
    CLOSE the field does not depend on the queue; and in the sample run
    a CLOSE of 2 that matches 1 records 2, a CLOSE of 4 that matches
    nothing records 4. *)
Theorem closed_trade_qty_is_requested (fills : list Fill.t) :
  map Trade.qty (buildClosedTradesFromFills fills) =
    map (fun f => finiteOrNull (Fill.qty f))
        (List.filter isClose (sortByKey Fill.time fills)) /\
  (forall f st,
     Trade.qty (tradeOf f (runMatch (Fill.qty f) st)) = finiteOrNull (Fill.qty f)) /\
  (map Trade.qty (buildClosedTradesFromFills c10_fills) = [Some 2%Q; Some 4%Q] /\
   entryQtyTotal (runMatch (nz 2) c1_queue) = nz 1 /\
   entryQtyTotal (runMatch (nz 4) []) = zero).
Proof.
  split; [|split].
  - unfold buildClosedTradesFromFills, buildState.
    now rewrite fold_processFill_qty.
  - reflexivity.
  - vm_compute. auto.
Qed.

(** ** Chronological replay and FIFO consumption *)

Lemma matchBody_stack s lot rest :
  stack s = lot :: rest ->
  stack (matchBody s) = rest \/
  exists q', stack (matchBody s) = Lot.mk (Lot.time lot) (Lot.price lot) q' :: rest.
Proof.
  intros H. unfold matchBody. rewrite H. cbn [stack].
  destruct (js_le _ eps12); [now left|right; eauto].
Qed.

Lemma headConsumed_refl st : headConsumed st st.
Proof. exists O. left. reflexivity. Qed.

Lemma headConsumed_step st s :
  headConsumed st (stack s) -> matchCond s = true ->
  headConsumed st (stack (matchBody s)).
Proof.
  intros [k H] Hc.
  destruct (matchCond_inv s Hc) as [_ (lot & rest & Hst)].
  destruct (matchBody_stack s lot rest Hst) as [E | [q' E]]; rewrite E; clear E.
  - destruct H as [H | (l0 & q0 & Hk & H)]; rewrite Hst in H.
    + exists (S k). left.
      assert (Hd : drop 1 (drop k st) = rest) by now rewrite <- H.
      rewrite drop_drop in Hd. now replace (S k) with (k + 1)%nat by lia.
    + exists (S k). left. now inversion H.
  - destruct H as [H | (l0 & q0 & Hk & H)]; rewrite Hst in H.
    + exists k. right. exists lot, q'.
      assert (Hk : st !! k = Some lot).
      { rewrite <- (Nat.add_0_r k), <- lookup_drop, <- H. reflexivity. }
      split; [exact Hk|]. f_equal.
      assert (Hd : drop 1 (drop k st) = rest) by now rewrite <- H.
      rewrite drop_drop in Hd. now replace (S k) with (k + 1)%nat by lia.
    + exists k. right. exists l0, q'. split; [exact Hk|].
      inversion H; subst. reflexivity.
Qed.

(** A CLOSE takes lots from the head of its queue only. *)
Lemma runMatch_headConsumed q st : headConsumed st (stack (runMatch q st)).
Proof.
  unfold runMatch.
  apply (whileMatch_invariant (fun s => headConsumed st (stack s))).
  - intros s. apply headConsumed_step.
  - apply headConsumed_refl.
Qed.

Lemma headConsumed_times st st' :
  headConsumed st st' -> exists k, map Lot.time st' = drop k (map Lot.time st).
Proof.
  intros [k [H | (lot & q' & Hk & H)]]; exists k; subst st'.
  - now rewrite <- fmap_drop.
  - cbn [map Lot.time]. rewrite <- fmap_drop.
    rewrite (drop_S st lot k Hk). reflexivity.
Qed.

Lemma StronglySorted_drop (l : list Z) k :
  StronglySorted Z.le l -> StronglySorted Z.le (drop k l).
Proof.
  revert l. induction k as [|k IH]; intros l H; [now rewrite drop_0|].
  destruct l as [|x l]; [constructor|].
  cbn [drop skipn]. apply IH. now inversion H.
Qed.

Lemma Forall_drop_le (l : list Z) k T :
  Forall (fun x => x <= T) l -> Forall (fun x => x <= T) (drop k l).
Proof. intros H. now apply Forall_drop. Qed.

Lemma getStack_spec key m :
  let '(m', st) := getStack key m in
  m' !! key = Some st /\
  (forall k', k' <> key -> m' !! k' = m !! k') /\
  (m !! key = Some st \/ (m !! key = None /\ st = [])).
Proof.
  unfold getStack. destruct (m !! key) as [st|] eqn:E.
  - repeat split; auto.
  - repeat split; auto.
    + apply lookup_insert_eq.
    + intros k' Hne. now apply lookup_insert_ne.
Qed.

Lemma queuesOk_weaken T T' m : T <= T' -> queuesOk T m -> queuesOk T' m.
Proof.
  intros Hle H key st Hk. destruct (H key st Hk) as [H1 H2].
  split; [exact H1|].
  eapply List.Forall_impl; [|exact H2]. cbn. intros; lia.
Qed.

Lemma queuesOk_insert T m key st :
  queuesOk T m -> inOpeningOrder st -> Forall (fun x => x <= T) (map Lot.time st) ->
  queuesOk T (<[key := st]> m).
Proof.
  intros Hm H1 H2 k' st' Hk.
  destruct (decide (key = k')) as [->|Hne].
  - rewrite lookup_insert_eq in Hk. inversion Hk; subst. auto.
  - rewrite lookup_insert_ne in Hk by exact Hne. exact (Hm k' st' Hk).
Qed.

Lemma inOpeningOrder_push st lot T :
  inOpeningOrder st -> Forall (fun x => x <= T) (map Lot.time st) ->
  T <= Lot.time lot -> inOpeningOrder (st ++ [lot]).
Proof.
  unfold inOpeningOrder. rewrite map_app. cbn [map].
  induction (map Lot.time st) as [|x l IH]; intros Hs Hb Hle; cbn [app].
  - repeat constructor.
  - inversion Hs; subst. inversion Hb; subst.
    constructor; [now apply IH|].
    apply List.Forall_app. split; [assumption|].
    constructor; [lia|constructor].
Qed.

(** Replaying one fill not older than anything replayed before keeps
    every queue in opening order. *)
Lemma processFill_queuesOk T b f :
  queuesOk T (stacks b) -> T <= Fill.time f ->
  queuesOk (Fill.time f) (stacks (processFill b f)).
Proof.
  intros Hb Hle. unfold processFill.
  pose proof (getStack_spec (getKey f) (stacks b)) as G.
  destruct (getStack (getKey f) (stacks b)) as [m st].
  destruct G as (G1 & G2 & G3).
  assert (Hst : inOpeningOrder st /\ Forall (fun x => x <= T) (map Lot.time st)).
  { destruct G3 as [G3 | [_ ->]]; [exact (Hb _ _ G3)|].
    split; [constructor|constructor]. }
  assert (Hm : queuesOk T m).
  { intros k' st' Hk. destruct (decide (k' = getKey f)) as [->|Hne].
    - rewrite G1 in Hk. inversion Hk; subst. exact Hst.
    - rewrite G2 in Hk by exact Hne. exact (Hb _ _ Hk). }
  destruct Hst as [Hs1 Hs2].
  destruct (Fill.action f); cbn [stacks].
  - apply queuesOk_insert.
    + now apply (queuesOk_weaken T).
    + now apply (inOpeningOrder_push st _ T).
    + rewrite map_app. apply List.Forall_app. split.
      * eapply List.Forall_impl; [|exact Hs2]. cbn. intros; lia.
      * cbn. constructor; [lia|constructor].
  - destruct (headConsumed_times _ _ (runMatch_headConsumed (Fill.qty f) st))
      as [k Hk].
    apply queuesOk_insert.
    + now apply (queuesOk_weaken T).
    + unfold inOpeningOrder. rewrite Hk. now apply StronglySorted_drop.
    + rewrite Hk. apply Forall_drop.
      eapply List.Forall_impl; [|exact Hs2]. cbn. intros; lia.
  - now apply (queuesOk_weaken T).
Qed.

Lemma replay_queuesOk l :
  StronglySorted (keyLe Fill.time) l ->
  forall T b, queuesOk T (stacks b) -> Forall (fun f => T <= Fill.time f) l ->
  forall k, exists T', queuesOk T' (stacks (fold_left processFill (take k l) b)).
Proof.
  induction 1 as [|f l Hs IH Hall]; intros T b Hb Hge k.
  - rewrite take_nil. cbn. eauto.
  - destruct k as [|k]; [cbn; eauto|].
    cbn [take firstn fold_left].
    inversion Hge; subst.
    apply (IH (Fill.time f)).
    + now apply (processFill_queuesOk T).
    + exact Hall.
Qed.

(** While a queue in opening order is matched, the entry time stays the
    open time of the lot that was at its head. *)
Lemma runMatch_entryTime q lot rest :
  js_gt q zero = true -> inOpeningOrder (lot :: rest) ->
  entryTime (runMatch q (lot :: rest)) = Some (Lot.time lot).
Proof.
  intros Hq Hs. unfold runMatch, matchFuel.
  set (s0 := initMatch q (lot :: rest)).
  replace (2 * length (lot :: rest) + 2)%nat
    with (S (2 * length (lot :: rest) + 1)) by lia.
  cbn [whileMatch].
  assert (C0 : matchCond s0 = true).
  { unfold matchCond, s0. cbn [initMatch remaining stack]. now rewrite Hq. }
  rewrite C0.
  set (P := fun s => entryTime s = Some (Lot.time lot) /\
                     Forall (fun x => Lot.time lot <= x) (map Lot.time (stack s))).
  assert (Hrest : Forall (fun x => Lot.time lot <= x) (map Lot.time rest)).
  { unfold inOpeningOrder in Hs. cbn [map] in Hs. now inversion Hs. }
  enough (HP : P (whileMatch (2 * length (lot :: rest) + 1) (matchBody s0)))
    by apply HP.
  apply whileMatch_invariant.
  - intros s [He Hf] Hc.
    destruct (matchCond_inv s Hc) as [_ (l1 & r1 & Hst)].
    rewrite Hst in Hf. cbn [map] in Hf. inversion Hf as [|? ? Hl1 Hr1]; subst.
    split.
    + unfold matchBody. rewrite Hst, He. cbn [entryTime].
      destruct (Z.ltb_spec (Lot.time l1) (Lot.time lot)); [lia|reflexivity].
    + destruct (matchBody_stack s l1 r1 Hst) as [E | [q' E]]; rewrite E.
      * exact Hr1.
      * cbn [map Lot.time]. now constructor.
  - split.
    + reflexivity.
    + destruct (matchBody_stack s0 lot rest eq_refl) as [E | [q' E]]; rewrite E.
      * exact Hrest.
      * cbn [map Lot.time]. constructor; [lia|exact Hrest].
Qed.

(** The queue key determines the symbol and the direction. *)
Lemma directionString_no_bar d r x :
  directionString d <> (r ++ "|" ++ x)%string.
Proof.
  intros H.
  destruct d; cbn in H;
    repeat (destruct r as [|? r]; cbn in H; [discriminate H|];
            injection H as _ H);
    destruct r; discriminate H.
Qed.

Lemma getKey_inj f g :
  getKey f = getKey g <->
  Fill.symbol f = Fill.symbol g /\ Fill.direction f = Fill.direction g.
Proof.
  unfold getKey. split.
  - generalize (Fill.symbol g). induction (Fill.symbol f) as [|c s IH]; intros s' H.
    + destruct s' as [|c' s']; cbn in H.
      * split; [reflexivity|].
        destruct (Fill.direction f), (Fill.direction g); cbn in H;
          try reflexivity; discriminate H.
      * injection H as _ H. exfalso.
        exact (directionString_no_bar _ _ _ H).
    + destruct s' as [|c' s']; cbn in H.
      * injection H as _ H. exfalso. symmetry in H.
        exact (directionString_no_bar _ _ _ H).
      * injection H as Hc H. subst c'.
        destruct (IH _ H) as [-> Hd]. auto.
  - intros [-> ->]. reflexivity.
Qed.

(** What one replayed fill does to the queues and to the trades. *)

Lemma getStack_queueOf key m :
  snd (getStack key m) = queueOf m key /\
  fst (getStack key m) !! key = Some (queueOf m key) /\
  (forall k, k <> key -> queueOf (fst (getStack key m)) k = queueOf m k).
Proof.
  unfold getStack, queueOf. destruct (m !! key) as [st|] eqn:E; cbn [fst snd].
  - rewrite E. auto.
  - rewrite lookup_insert_eq. repeat split; auto.
    intros k Hk. now rewrite lookup_insert_ne by congruence.
Qed.

(** What one replayed fill does to its own queue and to the trades. *)
Lemma processFill_own b f :
  let st := queueOf (stacks b) (getKey f) in
  queueOf (stacks (processFill b f)) (getKey f) =
    match Fill.action f with
    | OPEN => st ++ [Lot.mk (Fill.time f) (Fill.avgFill f) (Fill.qty f)]
    | CLOSE => stack (runMatch (Fill.qty f) st)
    | UNKNOWN_ACTION => st
    end /\
  closedTrades (processFill b f) =
    closedTrades b ++
    match Fill.action f with
    | CLOSE => [tradeOf f (runMatch (Fill.qty f) st)]
    | _ => []
    end.
Proof.
  intros st. unfold processFill.
  destruct (getStack_queueOf (getKey f) (stacks b)) as (G1 & G2 & _).
  destruct (getStack (getKey f) (stacks b)) as [m s0]. cbn [fst snd] in *.
  subst s0. fold st in G2. fold st.
  destruct (Fill.action f); cbn [stacks closedTrades]; unfold queueOf;
    rewrite ?lookup_insert_eq, ?G2, ?app_nil_r; auto.
Qed.

(** A fill never touches the queue of another key. *)
Lemma processFill_other b f k :
  k <> getKey f -> queueOf (stacks (processFill b f)) k = queueOf (stacks b) k.
Proof.
  intros Hk. unfold processFill.
  destruct (getStack_queueOf (getKey f) (stacks b)) as (_ & _ & G3).
  destruct (getStack (getKey f) (stacks b)) as [m s0]. cbn [fst snd] in *.
  specialize (G3 k Hk).
  destruct (Fill.action f); cbn [stacks]; unfold queueOf in *;
    rewrite ?lookup_insert_ne by congruence; exact G3.
Qed.

(** C2.  The fills are replayed in ascending time order with ties in
    input order (the sorted list is a permutation of the input, ordered
    by time, and fills of one time keep their input order); two fills
    share a queue exactly when they agree on symbol and direction; at
    every point of the replay each queue is in opening order; a CLOSE
    takes lots from the head of its queue only; and the lot at the head,
    the earliest opened, is matched first: it gives the trade's entry
    time.  The replay is this matching and nothing else: the result is
    the trades left by replaying the sorted fills one by one; an OPEN
    puts its lot at the tail of its own queue; a CLOSE replaces its own
    queue by what the matching loop leaves of it and emits the trade of
    that match; and no fill touches the queue of another key. *)
Theorem fifo_chronological_replay (fills : list Fill.t) :
  let sorted := sortByKey Fill.time fills in
  Permutation fills sorted /\
  StronglySorted (keyLe Fill.time) sorted /\
  (forall t, List.filter (fun f => Fill.time f =? t) sorted =
             List.filter (fun f => Fill.time f =? t) fills) /\
  (forall f g, getKey f = getKey g <->
               Fill.symbol f = Fill.symbol g /\ Fill.direction f = Fill.direction g) /\
  (forall k key st,
     stacks (fold_left processFill (take k sorted) emptyBuild) !! key = Some st ->
     inOpeningOrder st) /\
  (forall q st, headConsumed st (stack (runMatch q st))) /\
  (forall q lot rest,
     js_gt q zero = true -> inOpeningOrder (lot :: rest) ->
     entryTime (runMatch q (lot :: rest)) = Some (Lot.time lot)) /\
  buildClosedTradesFromFills fills =
    closedTrades (fold_left processFill sorted emptyBuild) /\
  (forall b f,
     let st := queueOf (stacks b) (getKey f) in
     queueOf (stacks (processFill b f)) (getKey f) =
       match Fill.action f with
       | OPEN => st ++ [Lot.mk (Fill.time f) (Fill.avgFill f) (Fill.qty f)]
       | CLOSE => stack (runMatch (Fill.qty f) st)
       | UNKNOWN_ACTION => st
       end /\
     closedTrades (processFill b f) =
       closedTrades b ++
       match Fill.action f with
       | CLOSE => [tradeOf f (runMatch (Fill.qty f) st)]
       | _ => []
       end /\
     (forall k, k <> getKey f ->
        queueOf (stacks (processFill b f)) k = queueOf (stacks b) k)).
Proof.
  intros sorted.
  split; [apply sortByKey_perm|].
  split; [apply sortByKey_sorted|].
  split; [intros t; apply sortByKey_stable|].
  split; [apply getKey_inj|].
  split; [|split; [|split; [|split]]].
  - intros k key st Hk.
    assert (Hmin : exists T, Forall (fun f => T <= Fill.time f) sorted).
    { clear. induction sorted as [|f l [T IH]]; [exists 0; constructor|].
      exists (Z.min T (Fill.time f)). constructor; [lia|].
      eapply List.Forall_impl; [|exact IH]. cbn. intros; lia. }
    destruct Hmin as [T HT].
    destruct (replay_queuesOk sorted (sortByKey_sorted Fill.time fills)
                T emptyBuild) with (k := k) as [T' HT'].
    + intros key' st' H. cbn in H. rewrite lookup_empty in H. discriminate.
    + exact HT.
    + now apply (HT' key st).
  - apply runMatch_headConsumed.
  - apply runMatch_entryTime.
  - reflexivity.
  - intros b f st. destruct (processFill_own b f) as [H1 H2].
    split; [exact H1|]. split; [exact H2|].
    intros k Hk. now apply processFill_other.
Qed.

(** ** The window scan *)

Lemma js_le_refl x : notNaN x -> js_le x x = true.
Proof.
  destruct x as [| |a|]; intros H; try reflexivity; [now elim H|].
  cbn. apply Qle_bool_true. apply Qle_refl.
Qed.

Lemma js_le_total x y : notNaN x -> notNaN y -> js_le x y = false -> js_le y x = true.
Proof.
  destruct x as [| |a|], y as [| |b|]; intros Hx Hy; cbn; try congruence;
    try (now elim Hx); try (now elim Hy).
  intros H. apply Qle_bool_false in H. apply Qle_bool_true. lra.
Qed.

Lemma js_le_trans x y z : js_le x y = true -> js_le y z = true -> js_le x z = true.
Proof.
  destruct x as [| |a|], y as [| |b|], z as [| |c|]; cbn; try congruence.
  rewrite !Qle_bool_true. intros; lra.
Qed.

Lemma js_le_notNaN_l x y : js_le x y = true -> notNaN x.
Proof. destruct x; cbn; intros H E; discriminate. Qed.

Lemma Math_max_spec a b :
  notNaN a -> notNaN b ->
  (Math_max a b = a \/ Math_max a b = b) /\
  js_le a (Math_max a b) = true /\ js_le b (Math_max a b) = true.
Proof.
  intros Ha Hb. unfold Math_max.
  destruct a as [| |x|]; try (now elim Ha);
    destruct b as [| |y|]; try (now elim Hb);
    match goal with
    | |- context [if ?c then _ else _] =>
        destruct c eqn:E; repeat split; auto;
        try (apply js_le_refl; discriminate);
        try (apply js_le_total; [discriminate|discriminate|exact E])
    end.
Qed.

Lemma Math_min_spec a b :
  notNaN a -> notNaN b ->
  (Math_min a b = a \/ Math_min a b = b) /\
  js_le (Math_min a b) a = true /\ js_le (Math_min a b) b = true.
Proof.
  intros Ha Hb. unfold Math_min.
  destruct a as [| |x|]; try (now elim Ha);
    destruct b as [| |y|]; try (now elim Hb);
    match goal with
    | |- context [if ?c then _ else _] =>
        destruct c eqn:E; repeat split; auto;
        try (apply js_le_refl; discriminate);
        try (apply js_le_total; [discriminate|discriminate|exact E])
    end.
Qed.

Lemma finite_notNaN x : Number_isFinite x = true -> notNaN x.
Proof. destruct x; cbn; intros H E; discriminate. Qed.

(** On a time-ordered series the loop with its [continue] and [break]
    visits exactly the candles of the closed window. *)
Lemma scanWindow_fold series lo hi d best found :
  StronglySorted (keyLe Candle.t) series ->
  scanWindow series lo hi d best found =
  (foldBest d best (List.filter (inWindow lo hi) series),
   found || negb (Nat.eqb (length (List.filter (inWindow lo hi) series)) 0)).
Proof.
  intros Hs. revert best found.
  induction Hs as [|c rest Hs IH Hall]; intros best found.
  - cbn. now rewrite orb_false_r.
  - cbn [scanWindow List.filter].
    destruct (Z.ltb_spec (Candle.t c) lo) as [Hlo|Hlo].
    + assert (W : inWindow lo hi c = false).
      { unfold inWindow. apply andb_false_iff. left. apply Z.leb_gt. lia. }
      rewrite W. apply IH.
    + destruct (Z.ltb_spec hi (Candle.t c)) as [Hhi|Hhi].
      * assert (W : inWindow lo hi c = false).
        { unfold inWindow. apply andb_false_iff. right. apply Z.leb_gt. lia. }
        rewrite W.
        assert (E : List.filter (inWindow lo hi) rest = []).
        { clear IH Hs. induction rest as [|c' rest IH]; [reflexivity|].
          inversion Hall as [|? ? Hc' Hrest]; subst. cbn [List.filter].
          unfold keyLe in Hc'.
          assert (W' : inWindow lo hi c' = false).
          { unfold inWindow. apply andb_false_iff. right. apply Z.leb_gt. lia. }
          rewrite W'. now apply IH. }
        rewrite E. cbn. now rewrite orb_false_r.
      * assert (W : inWindow lo hi c = true).
        { unfold inWindow. apply andb_true_iff. split; apply Z.leb_le; lia. }
        rewrite W, IH. cbn [length Nat.eqb negb].
        rewrite !orb_true_r. reflexivity.
Qed.

(** The running maximum of finite highs. *)
Lemma foldBest_max d best w :
  d <> SHORT -> notNaN best ->
  Forall candleFinite w ->
  let r := foldBest d best w in
  (r = best \/ In r (map Candle.high w)) /\
  js_le best r = true /\
  Forall (fun x => js_le x r = true) (map Candle.high w).
Proof.
  intros Hd. revert best.
  induction w as [|c w IH]; intros best Hb Hf; cbn zeta.
  - cbn. repeat split; auto. now apply js_le_refl.
  - inversion Hf as [|? ? [Hc _] Hw]; subst.
    assert (Hh : notNaN (Candle.high c)) by now apply finite_notNaN.
    destruct (Math_max_spec best (Candle.high c) Hb Hh) as (Hsel & Hle1 & Hle2).
    assert (Hm : notNaN (Math_max best (Candle.high c))).
    { destruct Hsel as [-> | ->]; assumption. }
    assert (E : foldBest d best (c :: w) = foldBest d (Math_max best (Candle.high c)) w).
    { unfold foldBest. cbn [fold_left]. destruct d; congruence. }
    rewrite E.
    destruct (IH _ Hm Hw) as (I1 & I2 & I3).
    repeat split.
    + destruct I1 as [I1 | I1].
      * rewrite I1. destruct Hsel as [-> | ->]; [now left|right; now left].
      * right. now right.
    + eapply js_le_trans; eassumption.
    + cbn [map]. constructor; [|exact I3].
      eapply js_le_trans; eassumption.
Qed.

(** The running minimum of finite lows. *)
Lemma foldBest_min best w :
  notNaN best ->
  Forall candleFinite w ->
  let r := foldBest SHORT best w in
  (r = best \/ In r (map Candle.low w)) /\
  js_le r best = true /\
  Forall (fun x => js_le r x = true) (map Candle.low w).
Proof.
  revert best.
  induction w as [|c w IH]; intros best Hb Hf; cbn zeta.
  - cbn. repeat split; auto. now apply js_le_refl.
  - inversion Hf as [|? ? [_ Hc] Hw]; subst.
    assert (Hh : notNaN (Candle.low c)) by now apply finite_notNaN.
    destruct (Math_min_spec best (Candle.low c) Hb Hh) as (Hsel & Hle1 & Hle2).
    assert (Hm : notNaN (Math_min best (Candle.low c))).
    { destruct Hsel as [-> | ->]; assumption. }
    change (foldBest SHORT best (c :: w))
      with (foldBest SHORT (Math_min best (Candle.low c)) w).
    destruct (IH _ Hm Hw) as (I1 & I2 & I3).
    repeat split.
    + destruct I1 as [I1 | I1].
      * rewrite I1. destruct Hsel as [-> | ->]; [now left|right; now left].
      * right. now right.
    + eapply js_le_trans; eassumption.
    + cbn [map]. constructor; [|exact I3].
      eapply js_le_trans; eassumption.
Qed.

Lemma bestPriceInWindow_fold series lo hi d :
  StronglySorted (keyLe Candle.t) series ->
  bestPriceInWindow series lo hi d =
  match List.filter (inWindow lo hi) series with
  | [] => None
  | w => Some (foldBest d (match d with SHORT => PosInf | _ => NegInf end) w)
  end.
Proof.
  intros Hs. unfold bestPriceInWindow. rewrite (scanWindow_fold _ _ _ _ _ _ Hs).
  destruct (List.filter (inWindow lo hi) series); reflexivity.
Qed.

Lemma window_extremum series lo hi d :
  StronglySorted (keyLe Candle.t) series ->
  let w := List.filter (inWindow lo hi) series in
  Forall candleFinite w ->
  w <> [] ->
  exists m,
    bestPriceInWindow series lo hi d = Some m /\
    Number_isFinite m = true /\
    match d with
    | SHORT => In m (map Candle.low w) /\
               Forall (fun x => js_le m x = true) (map Candle.low w)
    | _ => In m (map Candle.high w) /\
           Forall (fun x => js_le x m = true) (map Candle.high w)
    end.
Proof.
  intros Hs w Hfw Hw.
  assert (Hbest : bestPriceInWindow series lo hi d =
                  Some (foldBest d (match d with SHORT => PosInf | _ => NegInf end) w)).
  { rewrite (bestPriceInWindow_fold _ _ _ _ Hs). fold w.
    destruct w; [now elim Hw|reflexivity]. }
  rewrite Hbest. clear Hbest.
  assert (Hc : exists c, In c w /\ candleFinite c).
  { destruct w as [|c w']; [now elim Hw|]. exists c. split; [now left|].
    now inversion Hfw. }
  destruct Hc as (c & Hcw & Hch & Hcl).
  assert (Hin : forall (g : Candle.candle -> num) m,
            (forall x, candleFinite x -> Number_isFinite (g x) = true) ->
            In m (map g w) -> Number_isFinite m = true).
  { intros g m Hg H. apply in_map_iff in H. destruct H as (x & <- & Hx).
    apply Hg. rewrite List.Forall_forall in Hfw. now apply Hfw. }
  assert (Hcase : d = SHORT \/ d <> SHORT)
    by (destruct d; [right|left|right]; congruence).
  destruct Hcase as [-> | Hd].
  - destruct (foldBest_min PosInf w) as (H1 & _ & H3); [discriminate|exact Hfw|].
    exists (foldBest SHORT PosInf w).
    assert (Hm : In (foldBest SHORT PosInf w) (map Candle.low w)).
    { destruct H1 as [H1|H1]; [|exact H1]. exfalso.
      rewrite H1 in H3. rewrite List.Forall_forall in H3.
      specialize (H3 (Candle.low c) (in_map Candle.low w c Hcw)).
      destruct (Candle.low c); discriminate. }
    repeat split; auto.
    apply (Hin Candle.low); [intros x [_ Hx]; exact Hx|exact Hm].
  - destruct (foldBest_max d NegInf w Hd) as (H1 & _ & H3); [discriminate|exact Hfw|].
    assert (Hm : In (foldBest d NegInf w) (map Candle.high w)).
    { destruct H1 as [H1|H1]; [|exact H1]. exfalso.
      rewrite H1 in H3. rewrite List.Forall_forall in H3.
      specialize (H3 (Candle.high c) (in_map Candle.high w c Hcw)).
      destruct (Candle.high c); discriminate. }
    assert (Hfin : Number_isFinite (foldBest d NegInf w) = true).
    { apply (Hin Candle.high); [intros x [Hx _]; exact Hx|exact Hm]. }
    destruct d; [| now elim Hd |];
      (eexists; split; [reflexivity|]; repeat split; auto).
Qed.

(** C3 (as amended).  On a time-ordered series, [bestPriceInWindow]
    considers exactly the candles whose open time lies in the closed
    window [[startMs, endMs]], both ends included: it returns null
    exactly when no candle opens in that window, and otherwise (the
    highs and lows of those candles being finite numbers) the maximum
    high among them, or the minimum low for a SHORT trade.
    [runHindsight] calls it with [startMs = closeTime] and
    [endMs = closeTime + lookahead], so a trade has no best exit exactly
    when no candle opens in [[closeTime, closeTime + lookahead]]. *)
Theorem best_price_in_closed_window
    (series : list Candle.candle) (startMs endMs : Z) (d : Direction) :
  StronglySorted (keyLe Candle.t) series ->
  let w := List.filter (inWindow startMs endMs) series in
  (bestPriceInWindow series startMs endMs d = None <-> w = []) /\
  (Forall candleFinite w -> w <> [] ->
   exists m,
     bestPriceInWindow series startMs endMs d = Some m /\
     Number_isFinite m = true /\
     match d with
     | SHORT => In m (map Candle.low w) /\
                Forall (fun x => js_le m x = true) (map Candle.low w)
     | _ => In m (map Candle.high w) /\
            Forall (fun x => js_le x m = true) (map Candle.high w)
     end) /\
  (forall symbolSeries lookaheadMs realism (t : Trade.t),
     symbolSeries !! normalizeToBinanceSymbol (Trade.symbol t) = Some series ->
     let wt := List.filter
                 (inWindow (Trade.closeTime t) (Trade.closeTime t + lookaheadMs))
                 series in
     Forall candleFinite wt ->
     (Hind.bestExit (hindsightOf symbolSeries lookaheadMs realism t) = None <->
      wt = [])).
Proof.
  intros Hs w. split; [|split].
  - rewrite (bestPriceInWindow_fold _ _ _ _ Hs). fold w.
    destruct w; split; intros H; try reflexivity; discriminate.
  - intros Hf Hw. now apply window_extremum.
  - intros ss la realism t Hss wt Hf. unfold hindsightOf. rewrite Hss.
    set (lo := Trade.closeTime t) in *. set (hi := lo + la) in *.
    destruct wt as [|c w'] eqn:Ew.
    + rewrite (bestPriceInWindow_fold _ _ _ _ Hs). fold wt. rewrite Ew. cbn. tauto.
    + destruct (window_extremum series lo hi (Trade.direction t) Hs)
        as (m & Hm & Hfin & _).
      { fold wt. rewrite Ew. exact Hf. }
      { fold wt. rewrite Ew. discriminate. }
      rewrite Hm. destruct m; try discriminate.
      cbn [Hind.bestExit]. split; discriminate.
Qed.

Lemma best_price_in_closed_window_witness :
  StronglySorted (keyLe Candle.t) c3_long_series /\
  exists m,
    bestPriceInWindow c3_long_series 1000 3601000 LONG = Some m /\
    Number_isFinite m = true /\
    In m (map Candle.high (List.filter (inWindow 1000 3601000) c3_long_series)) /\
    Forall (fun x => js_le x m = true)
      (map Candle.high (List.filter (inWindow 1000 3601000) c3_long_series)).
Proof.
  assert (Hs : StronglySorted (keyLe Candle.t) c3_long_series).
  { repeat constructor; unfold keyLe; cbn; lia. }
  split; [exact Hs|].
  apply (proj1 (proj2
    (best_price_in_closed_window c3_long_series 1000 3601000 LONG Hs))).
  - repeat constructor.
  - discriminate.
Defined.

(** C3 as stated fails: with a close at 1000 and a lookahead of one
    hour, the candle that opens at exactly [closeTime + lookahead] is
    outside the half-open window, yet it is scanned and gives the best
    price. *)
Lemma candle_at_window_end_is_counted :
  List.filter
    (fun c => (1000 <=? Candle.t c) && (Candle.t c <? 1000 + 3600000))
    c3_series = [] /\
  bestPriceInWindow c3_series 1000 (1000 + 3600000) LONG = Some (nz 120) /\
  Hind.bestExit
    (hindsightOf {[ "BTCUSDT"%string := c3_series ]} 3600000 (nz 1) c3_trade)
  = Some (nz 120).
Proof. vm_compute. auto. Qed.

(** ** Realism dampening *)

Lemma realismOf_cases pct :
  exists rho,
    realismOf (Fin pct) = Fin rho /\ (0 <= rho <= 1)%Q /\
    ((0 <= pct <= 100)%Q -> realismOf (Fin pct) = js_div (Fin pct) (nz 100)).
Proof.
  unfold realismOf, clamp. cbn [js_div nz].
  change (Qeq_bool (inject_Z 100) 0) with false. cbn iota.
  change (inject_Z 100) with 100%Q.
  set (x := Qred (pct / 100)).
  assert (Hx : (x == pct / 100)%Q) by apply Qred_correct.
  unfold Math_min, zero, nz. cbn [js_le].
  change (inject_Z 1) with 1%Q. change (inject_Z 0) with 0%Q.
  destruct (Qle_bool 1 x) eqn:E1.
  - apply Qle_bool_true in E1. unfold Math_max. cbn [js_le].
    change (Qle_bool 0 1) with true. cbn iota.
    exists 1%Q. split; [reflexivity|]. split; [lra|].
    intros [_ H]. rewrite Hx in E1.
    assert (pct / 100 <= 1)%Q by (apply Qle_shift_div_r; lra).
    f_equal. unfold x. change 1%Q with (Qred 1). apply Qred_complete. lra.
  - apply Qle_bool_false in E1. unfold Math_max. cbn [js_le].
    destruct (Qle_bool 0 x) eqn:E0.
    + apply Qle_bool_true in E0. exists x. split; [reflexivity|].
      split; [lra|]. reflexivity.
    + apply Qle_bool_false in E0. exists 0%Q. split; [reflexivity|].
      split; [lra|]. intros [H _]. rewrite Hx in E0.
      assert (0 <= pct / 100)%Q by (apply Qle_shift_div_l; lra). lra.
Qed.

Lemma js_div_100 pct (c : Q) :
  (pct == c * 100)%Q -> js_div (Fin pct) (nz 100) = Fin (Qred c).
Proof.
  intros H. cbn [js_div nz].
  change (Qeq_bool (inject_Z 100) 0) with false. cbn iota.
  f_equal. apply Qred_complete. change (inject_Z 100) with 100%Q.
  rewrite H. field.
Qed.

Lemma hindsightOf_bestExit ss la realism (t : Trade.t) series raw :
  ss !! normalizeToBinanceSymbol (Trade.symbol t) = Some series ->
  bestPriceInWindow series (Trade.closeTime t) (Trade.closeTime t + la)
    (Trade.direction t) = Some (Fin raw) ->
  Hind.bestExit (hindsightOf ss la realism t) =
  Some (dampen (Trade.exitPrice t) raw realism).
Proof.
  intros Hss Hb. unfold hindsightOf. rewrite Hss, Hb. reflexivity.
Qed.

(** C4 (as amended).  For a closed trade whose window yields a finite
    raw extremum [raw] and a finite slider value [pct], the realism
    factor is [pct / 100] clamped into [[0, 1]]: it is [0] for the slider
    at 0 and [1] for the slider at 100.  When the trade has an exit
    price [exit], [bestExit] is the program's
    [exit + (raw - exit) * realism]; with the slider at 100 this is
    [exit + (raw - exit)]; for prices that are not negative, with the
    slider at 0 it is [exit], and it never lies on the other side of
    [exit] than [raw].  When the trade has no exit price, [bestExit] is
    [raw] whatever the realism. *)
Theorem best_exit_is_damped
    (symbolSeries : gmap string (list Candle.candle)) (lookaheadMs : Z)
    (pct : Q) (t : Trade.t) (series : list Candle.candle) (raw : Q) :
  symbolSeries !! normalizeToBinanceSymbol (Trade.symbol t) = Some series ->
  bestPriceInWindow series (Trade.closeTime t)
    (Trade.closeTime t + lookaheadMs) (Trade.direction t) = Some (Fin raw) ->
  let realism := realismOf (Fin pct) in
  let h := hindsightOf symbolSeries lookaheadMs realism t in
  js_le zero realism = true /\ js_le realism (nz 1) = true /\
  ((0 <= pct <= 100)%Q -> realism = js_div (Fin pct) (nz 100)) /\
  ((pct == 0)%Q -> realism = zero) /\
  ((pct == 100)%Q -> realism = nz 1) /\
  match Trade.exitPrice t with
  | Some exit =>
      Hind.bestExit h =
        Some (js_add (Fin exit) (js_mul (js_sub (Fin raw) (Fin exit)) realism)) /\
      ((pct == 100)%Q ->
       Hind.bestExit h =
         Some (js_add (Fin exit) (js_sub (Fin raw) (Fin exit)))) /\
      ((0 <= exit)%Q -> (0 <= raw)%Q ->
       ((pct == 0)%Q ->
        exists be, Hind.bestExit h = Some (Fin be) /\ (be == exit)%Q) /\
       exists b,
         Hind.bestExit h = Some b /\
         ((exit <= raw)%Q -> js_le (Fin exit) b = true) /\
         ((raw <= exit)%Q -> js_le b (Fin exit) = true))
  | None => Hind.bestExit h = Some (Fin raw)
  end.
Proof.
  intros Hss Hb realism h.
  destruct (realismOf_cases pct) as (rho & Hr & Hrange & Hin).
  assert (H0 : (pct == 0)%Q -> realism = zero).
  { intros Hp. unfold realism. rewrite Hin by lra.
    rewrite (js_div_100 pct 0) by lra. reflexivity. }
  assert (H1 : (pct == 100)%Q -> realism = nz 1).
  { intros Hp. unfold realism. rewrite Hin by lra.
    rewrite (js_div_100 pct 1) by lra. reflexivity. }
  split.
  { unfold realism. rewrite Hr. cbn [js_le zero nz].
    apply Qle_bool_true. change (inject_Z 0) with 0%Q. lra. }
  split.
  { unfold realism. rewrite Hr. cbn [js_le nz].
    apply Qle_bool_true. change (inject_Z 1) with 1%Q. lra. }
  split; [exact Hin|]. split; [exact H0|]. split; [exact H1|].
  unfold h. rewrite (hindsightOf_bestExit _ _ _ _ _ _ Hss Hb).
  destruct (Trade.exitPrice t) as [exit|]; [|reflexivity].
  cbn [dampen]. split; [reflexivity|]. split.
  { intros Hp. rewrite (H1 Hp). do 2 f_equal.
    cbn [js_sub js_mul nz]. f_equal. apply Qred_complete.
    rewrite Qred_correct. change (inject_Z 1) with 1%Q. ring. }
  intros _ _. split.
  { intros Hp. rewrite (H0 Hp). cbn [js_sub js_mul js_add zero nz].
    eexists. split; [reflexivity|]. rewrite !Qred_correct.
    change (inject_Z 0) with 0%Q. ring. }
  unfold realism. rewrite Hr. cbn [js_sub js_mul js_add].
  eexists. split; [reflexivity|]. cbn [js_le].
  split; intros Hs; apply Qle_bool_true; rewrite !Qred_correct; nra.
Qed.

Lemma best_exit_is_damped_witness :
  realismOf (Fin 80) = js_div (Fin 80) (nz 100) /\
  Hind.bestExit
    (hindsightOf {[ "BTCUSDT"%string := c3_long_series ]} 3600000
       (realismOf (Fin 80)) c3_trade)
  = Some (js_add (Fin 100)
            (js_mul (js_sub (Fin 130) (Fin 100)) (realismOf (Fin 80)))) /\
  Hind.bestExit
    (hindsightOf {[ "BTCUSDT"%string := c3_long_series ]} 3600000
       (realismOf (Fin 80)) c3_trade) = Some (nz 124).
Proof.
  assert (Hs : ({[ "BTCUSDT"%string := c3_long_series ]} : gmap string _)
                 !! normalizeToBinanceSymbol (Trade.symbol c3_trade)
               = Some c3_long_series) by (vm_compute; reflexivity).
  assert (Hb : bestPriceInWindow c3_long_series (Trade.closeTime c3_trade)
                 (Trade.closeTime c3_trade + 3600000) (Trade.direction c3_trade)
               = Some (Fin 130)) by (vm_compute; reflexivity).
  destruct (best_exit_is_damped {[ "BTCUSDT"%string := c3_long_series ]}
              3600000 80%Q c3_trade c3_long_series 130%Q Hs Hb)
    as (_ & _ & H1 & _ & _ & H2 & _).
  split; [apply H1; split; discriminate|].
  split; [exact H2|].
  etransitivity; [exact H2|]. vm_compute. reflexivity.
Defined.

(** C4 as stated fails: for a trade without an exit price the raw
    extremum is passed through undamped, so with realism 0 the best exit
    is the window maximum 120 and not the (absent) exit price. *)
Lemma no_exit_price_is_undamped :
  Trade.exitPrice c4_trade = None /\
  realismOf (nz 0) = zero /\
  bestPriceInWindow c3_series (Trade.closeTime c4_trade)
    (Trade.closeTime c4_trade + 3600000) LONG = Some (nz 120) /\
  Hind.bestExit
    (hindsightOf {[ "BTCUSDT"%string := c3_series ]} 3600000
       (realismOf (nz 0)) c4_trade) = Some (nz 120).
Proof. vm_compute. auto. Qed.

(** ** The fumble score *)

Lemma sumNums_nonneg_from (a : list Q) (s0 : Q) :
  (0 <= s0)%Q -> Forall (fun x => (0 <= x)%Q) a ->
  exists s, fold_left (fun s x => js_add s (Fin x)) a (Fin s0) = Fin s /\ (0 <= s)%Q.
Proof.
  revert s0. induction a as [|x a IH]; intros s0 H0 Ha; cbn [fold_left].
  - eauto.
  - inversion Ha; subst. cbn [js_add]. apply IH; [|assumption].
    rewrite Qred_correct. lra.
Qed.

Lemma finiteValues_nonneg (ts : list Trade.t) :
  Forall holdNonneg ts ->
  Forall (fun x => (0 <= x)%Q) (finiteValues (map Trade.holdMins ts)).
Proof.
  induction 1 as [|t ts Ht Hts IH]; cbn [map finiteValues]; [constructor|].
  unfold holdNonneg in Ht.
  destruct (Trade.holdMins t); [now constructor|exact IH].
Qed.

Lemma mean_nonneg (ts : list Trade.t) :
  Forall holdNonneg ts ->
  mean (map Trade.holdMins ts) = NaN \/
  exists m, mean (map Trade.holdMins ts) = Fin m /\ (0 <= m)%Q.
Proof.
  intros H. unfold mean.
  pose proof (finiteValues_nonneg ts H) as Hf.
  set (a := finiteValues (map Trade.holdMins ts)) in *.
  destruct a as [|x a'] eqn:Ea; [now left|]. right.
  rewrite <- Ea in *. replace (Nat.eqb (length a) 0) with false
    by (rewrite Ea; reflexivity).
  destruct (sumNums_nonneg_from a 0%Q) as (s & Hs & Hs0); [apply Qle_refl|exact Hf|].
  unfold sumNums, zero, nz. change (inject_Z 0) with 0%Q. rewrite Hs.
  unfold lengthNum, nz. cbn [js_div].
  assert (Hn : (0 < inject_Z (Z.of_nat (length a)))%Q).
  { rewrite Ea. cbn [length]. rewrite <- (Zlt_Qlt 0). lia. }
  assert (E : Qeq_bool (inject_Z (Z.of_nat (length a))) 0 = false).
  { apply not_true_iff_false. intros E. apply Qeq_bool_iff in E. lra. }
  rewrite E. eexists. split; [reflexivity|].
  rewrite Qred_correct. apply Qle_shift_div_l; [exact Hn|lra].
Qed.

Lemma Forall_filter_hold (f : Trade.t -> bool) ts :
  Forall holdNonneg ts -> Forall holdNonneg (List.filter f ts).
Proof.
  induction 1 as [|t l Ht Hl IH]; cbn [List.filter]; [constructor|].
  destruct (f t); [now constructor|exact IH].
Qed.

Lemma clamp_0_100 x :
  notNaN x -> exists v, clamp x zero (nz 100) = Fin v /\ (0 <= v <= 100)%Q.
Proof.
  intros Hx. unfold clamp.
  destruct (Math_min_spec (nz 100) x) as (Hsel & Hle100 & _); [discriminate|exact Hx|].
  set (m := Math_min (nz 100) x) in *.
  assert (Hm : notNaN m) by (destruct Hsel as [-> | ->]; [discriminate|exact Hx]).
  destruct (Math_max_spec zero m) as (Hsel' & Hle0 & _); [discriminate|exact Hm|].
  set (r := Math_max zero m) in *.
  assert (Hr100 : js_le r (nz 100) = true).
  { destruct Hsel' as [-> | ->]; [reflexivity|exact Hle100]. }
  destruct r as [| |v|]; try discriminate.
  exists v. split; [reflexivity|].
  cbn in Hle0, Hr100. apply Qle_bool_true in Hle0, Hr100.
  change (inject_Z 0) with 0%Q in Hle0. change (inject_Z 100) with 100%Q in Hr100.
  lra.
Qed.

Lemma clamp_NaN a b : clamp NaN a b = NaN.
Proof. unfold clamp, Math_min, Math_max. destruct b, a; reflexivity. Qed.

Lemma raw_score_notNaN y : notNaN y -> notNaN (js_sub (nz 60) (js_mul (nz 20) y)).
Proof. destruct y; intros H; try (now elim H); cbn; discriminate. Qed.

Section ScorerFacts.
Variable Math_log2 : num -> num.

(** [Math.log2] is a number on every non-negative finite argument (it
    is [-Infinity] at zero). *)
Hypothesis Math_log2_defined :
  forall q, (0 <= q)%Q -> Math_log2 (Fin q) <> NaN.

Lemma paperhands_shape (trades : list Trade.t) :
  Forall holdNonneg trades ->
  Summary.paperhands (summarizeClosedTrades Math_log2 trades) = NaN \/
  exists p, Summary.paperhands (summarizeClosedTrades Math_log2 trades) = Fin p /\
            (0 <= p)%Q.
Proof.
  intros H. unfold summarizeClosedTrades. cbn [Summary.paperhands].
  destruct (mean_nonneg _ (Forall_filter_hold isWin trades H)) as [-> | (a & -> & Ha)];
    [now left|].
  destruct (mean_nonneg _ (Forall_filter_hold isLoss trades H)) as [-> | (b & -> & Hb)];
    [now left|].
  cbn [Number_isFinite andb].
  destruct (js_gt (Fin b) zero) eqn:E; [|now left].
  apply js_gt_zero_Fin in E. right. cbn [js_div].
  assert (Eb : Qeq_bool b 0 = false).
  { apply not_true_iff_false. intros E'. apply Qeq_bool_iff in E'. lra. }
  rewrite Eb. eexists. split; [reflexivity|].
  rewrite Qred_correct. apply Qle_shift_div_l; [exact E|lra].
Qed.

(** C8.  For closed trades (whose hold durations are never negative),
    [fumbleScore] is [clamp(60 - 20 * log2(paperhands), 0, 100)] when
    the paperhands ratio is defined, it is undefined (NaN) exactly when
    the ratio is undefined, and when defined it lies in [[0, 100]]. *)
Theorem fumble_score_clamped (trades : list Trade.t) :
  Forall holdNonneg trades ->
  let s := summarizeClosedTrades Math_log2 trades in
  (forall p, Summary.paperhands s = Fin p ->
     Summary.fumbleScore s =
     clamp (js_sub (nz 60) (js_mul (nz 20) (Math_log2 (Fin p)))) zero (nz 100)) /\
  (Summary.paperhands s = NaN <-> Summary.fumbleScore s = NaN) /\
  (Number_isFinite (Summary.paperhands s) = false <-> Summary.fumbleScore s = NaN) /\
  (Summary.fumbleScore s = NaN \/
   exists v, Summary.fumbleScore s = Fin v /\ (0 <= v <= 100)%Q).
Proof.
  intros H s.
  pose proof (paperhands_shape trades H) as Hp. fold s in Hp.
  assert (Hf : Summary.fumbleScore s =
               if Number_isFinite (Summary.paperhands s)
               then clamp (js_sub (nz 60)
                             (js_mul (nz 20) (Math_log2 (Summary.paperhands s))))
                          zero (nz 100)
               else NaN) by reflexivity.
  destruct Hp as [Hp | (p & Hp & Hp0)]; rewrite Hp in Hf; cbn [Number_isFinite] in Hf.
  - rewrite Hp, Hf. repeat split; auto; try discriminate.
  - destruct (clamp_0_100 (js_sub (nz 60) (js_mul (nz 20) (Math_log2 (Fin p)))))
      as (v & Hv & Hrange).
    { apply raw_score_notNaN. now apply Math_log2_defined. }
    rewrite Hp, Hf, Hv. repeat split; try discriminate.
    + intros p' E. inversion E; subst. symmetry. exact Hv.
    + right. exists v. split; [reflexivity|exact Hrange].
Qed.
End ScorerFacts.

Lemma log2Approx_defined q : (0 <= q)%Q -> log2Approx (Fin q) <> NaN.
Proof.
  intros H. unfold log2Approx. destruct q as [qn qd]. cbn [Qnum Qden].
  destruct qn; try discriminate.
  exfalso. unfold Qle in H. cbn in H. lia.
Qed.

(** Trades built by the matcher never have a negative hold duration. *)
Lemma tradeOf_holdNonneg f m : holdNonneg (tradeOf f m).
Proof.
  unfold holdNonneg, tradeOf. cbn [Trade.holdMins].
  destruct (entryTime m) as [et|]; [|exact I].
  unfold minsBetween. destruct (Z.ltb_spec (Fill.time f - et) 0); [exact I|].
  cbn [js_div nz]. change (Qeq_bool (inject_Z 60000) 0) with false. cbn iota.
  cbn [finiteOrNull]. rewrite Qred_correct.
  apply Qle_shift_div_l; [reflexivity|].
  rewrite Qmult_0_l. rewrite <- (Zle_Qle 0). lia.
Qed.

Lemma processFill_holdNonneg b f :
  Forall holdNonneg (closedTrades b) ->
  Forall holdNonneg (closedTrades (processFill b f)).
Proof.
  intros H. unfold processFill.
  destruct (getStack (getKey f) (stacks b)) as [m st].
  destruct (Fill.action f); cbn [closedTrades]; auto.
  apply List.Forall_app. split; [exact H|].
  constructor; [apply tradeOf_holdNonneg|constructor].
Qed.

Lemma buildClosedTrades_holdNonneg fills :
  Forall holdNonneg (buildClosedTradesFromFills fills).
Proof.
  unfold buildClosedTradesFromFills, buildState.
  assert (G : forall l b, Forall holdNonneg (closedTrades b) ->
                Forall holdNonneg (closedTrades (fold_left processFill l b))).
  { induction l as [|f l IH]; intros b Hb; cbn [fold_left]; [exact Hb|].
    apply IH. now apply processFill_holdNonneg. }
  apply G. constructor.
Qed.

Lemma fumble_score_clamped_witness :
  Summary.paperhands
    (summarizeClosedTrades log2Approx (buildClosedTradesFromFills c8_fills))
    = Fin (1 # 4) /\
  (Summary.fumbleScore
     (summarizeClosedTrades log2Approx (buildClosedTradesFromFills c8_fills))
   = NaN \/
   exists v,
     Summary.fumbleScore
       (summarizeClosedTrades log2Approx (buildClosedTradesFromFills c8_fills))
     = Fin v /\ (0 <= v <= 100)%Q).
Proof.
  split; [vm_compute; reflexivity|].
  apply (fumble_score_clamped log2Approx log2Approx_defined
           (buildClosedTradesFromFills c8_fills)
           (buildClosedTrades_holdNonneg c8_fills)).
Defined.

(** ** Deduplicated, ascending candles *)

Lemma firstWithOpenTime_app k l1 l2 :
  firstWithOpenTime k (l1 ++ l2) =
  match firstWithOpenTime k l1 with
  | Some x => Some x
  | None => firstWithOpenTime k l2
  end.
Proof.
  unfold firstWithOpenTime. induction l1 as [|x l1 IH]; cbn [app List.find]; [reflexivity|].
  destruct (k0 x =? k); [reflexivity|exact IH].
Qed.

Lemma firstWithOpenTime_In k l :
  In k (map k0 l) -> exists x, firstWithOpenTime k l = Some x.
Proof.
  unfold firstWithOpenTime. induction l as [|y l IH]; cbn [map In List.find]; [tauto|].
  intros [H|H].
  - subst k. rewrite Z.eqb_refl. eauto.
  - destruct (k0 y =? k); [eauto|now apply IH].
Qed.

Lemma firstWithOpenTime_filter k l :
  firstWithOpenTime k l = hd_error (List.filter (fun x => k0 x =? k) l).
Proof.
  unfold firstWithOpenTime. induction l as [|y l IH]; cbn [List.find List.filter]; [reflexivity|].
  destruct (k0 y =? k); [reflexivity|exact IH].
Qed.

Lemma firstWithOpenTime_Some k l x :
  firstWithOpenTime k l = Some x -> In x l /\ k0 x = k.
Proof.
  unfold firstWithOpenTime. intros H. apply find_some in H.
  destruct H as [H1 H2]. split; [exact H1|]. now apply Z.eqb_eq.
Qed.

Lemma dedupLoop_spec out : forall (seen : gset Z) (dedup : list Kline),
  (forall k, k ∈ seen <-> In k (map k0 dedup)) ->
  NoDup (map k0 dedup) ->
  NoDup (map k0 (dedupLoop out seen dedup)) /\
  (forall k,
     firstWithOpenTime k (dedupLoop out seen dedup) =
     match firstWithOpenTime k dedup with
     | Some x => Some x
     | None => firstWithOpenTime k out
     end).
Proof.
  induction out as [|x rest IH]; intros seen dedup Hseen Hnd; cbn [dedupLoop].
  - split; [exact Hnd|]. intros k. now destruct (firstWithOpenTime k dedup).
  - destruct (decide (k0 x ∈ seen)) as [Hin|Hnin].
    + destruct (IH seen dedup Hseen Hnd) as [I1 I2]. split; [exact I1|].
      intros k. rewrite I2.
      destruct (firstWithOpenTime k dedup) eqn:E; [reflexivity|].
      unfold firstWithOpenTime at 2. cbn [List.find].
      destruct (Z.eqb_spec (k0 x) k) as [Hk|Hk]; [|reflexivity].
      subst k. apply Hseen in Hin.
      destruct (firstWithOpenTime_In _ _ Hin) as [y Hy]. congruence.
    + assert (Hnin' : ~ In (k0 x) (map k0 dedup)) by (intros H; apply Hnin, Hseen, H).
      destruct (IH ({[k0 x]} ∪ seen) (dedup ++ [x])) as [I1 I2].
      * intros k. rewrite map_app, in_app_iff, elem_of_union, elem_of_singleton, Hseen.
        cbn [map In]. intuition congruence.
      * rewrite map_app. apply NoDup_app. split; [exact Hnd|].
        split; [|cbn; apply NoDup_singleton].
        intros k Hk Hk'. cbn in Hk'. apply list_elem_of_In in Hk.
        apply list_elem_of_singleton in Hk'. subst k. contradiction.
      * split; [exact I1|]. intros k. rewrite I2, firstWithOpenTime_app.
        destruct (firstWithOpenTime k dedup); [reflexivity|].
        unfold firstWithOpenTime. cbn [List.find].
        destruct (k0 x =? k); reflexivity.
Qed.

Lemma sorted_nodup_strict (l : list Z) :
  StronglySorted Z.le l -> NoDup l -> StronglySorted Z.lt l.
Proof.
  induction 1 as [|x l Hs IH Hall]; intros Hnd; [constructor|].
  apply NoDup_cons in Hnd. destruct Hnd as [Hx Hnd].
  constructor; [now apply IH|].
  rewrite List.Forall_forall in *. intros y Hy.
  specialize (Hall y Hy).
  assert (x <> y) by (intros ->; apply Hx; now apply list_elem_of_In).
  lia.
Qed.

Lemma StronglySorted_map_key {A : Type} (key : A -> Z) (l : list A) :
  StronglySorted (keyLe key) l -> StronglySorted Z.le (map key l).
Proof.
  induction 1 as [|x l Hs IH Hall]; cbn [map]; constructor; [exact IH|].
  rewrite List.Forall_forall in *. intros y Hy.
  apply in_map_iff in Hy. destruct Hy as (z & <- & Hz). now apply Hall.
Qed.

Lemma dedupSort_spec out :
  StronglySorted Z.lt (map k0 (dedupSort out)) /\
  (forall k, firstWithOpenTime k (dedupSort out) = firstWithOpenTime k out).
Proof.
  unfold dedupSort.
  destruct (dedupLoop_spec out ∅ []) as [Hnd Hfirst].
  { intros k. cbn. split; [|tauto]. intros H. now apply not_elem_of_empty in H. }
  { constructor. }
  split.
  - apply sorted_nodup_strict.
    + apply StronglySorted_map_key, sortByKey_sorted.
    + assert (Hp : Permutation (map k0 (dedupLoop out ∅ []))
                               (map k0 (sortByKey k0 (dedupLoop out ∅ []))))
        by apply Permutation_map, sortByKey_perm.
      now rewrite <- Hp.
  - intros k. rewrite firstWithOpenTime_filter, sortByKey_stable,
      <- firstWithOpenTime_filter.
    now rewrite Hfirst.
Qed.

Lemma bind_Returned {A B : Type} (m : Fetch A) (k : A -> Fetch B) log b log' :
  bind m k log = (Returned b, log') ->
  exists a log1, m log = (Returned a, log1) /\ k a log1 = (Returned b, log').
Proof.
  unfold bind. destruct (m log) as [[a|e|] log1]; intros H; try discriminate. eauto.
Qed.

(** C9.  The rows [fetchAllKlines] returns are the concatenated chunk
    responses deduplicated and sorted: their open times are strictly
    ascending (hence free of duplicates), and for every open time the
    row kept is the first one with that open time among the
    concatenated responses. *)
Theorem fetched_candles_strictly_ascending :
  (forall out,
     StronglySorted Z.lt (map k0 (dedupSort out)) /\
     (forall k, firstWithOpenTime k (dedupSort out) = firstWithOpenTime k out)) /\
  (forall net fuel symbol interval startTime endTime log res log',
     fetchAllKlines net fuel symbol interval startTime endTime log
       = (Returned res, log') ->
     StronglySorted Z.lt (map k0 res) /\
     exists out,
       fetchLoop net fuel symbol interval (intervalMsOf interval) endTime
         startTime [] log = (Returned out, log') /\
       res = dedupSort out).
Proof.
  split; [apply dedupSort_spec|].
  intros net fuel symbol interval startTime endTime log res log' H.
  unfold fetchAllKlines in H. apply bind_Returned in H.
  destruct H as (out & log1 & H1 & H2). unfold ret in H2. inversion H2; subst.
  split; [apply dedupSort_spec|]. exists out. split; [exact H1|reflexivity].
Qed.

(** ** The chunked fetch loop ends *)

Lemma intervalMsOf_pos interval : 0 < intervalMsOf interval.
Proof.
  unfold intervalMsOf, INTERVALS. cbn [List.find fst snd].
  destruct (String.eqb "1m" interval); [cbn; lia|].
  destruct (String.eqb "5m" interval); [cbn; lia|].
  destruct (String.eqb "15m" interval); cbn; lia.
Qed.

Lemma tryBases_Returned net bases lastErr symbol interval s e log kl log' :
  tryBases net bases lastErr symbol interval s e log = (Returned kl, log') ->
  exists n rq status,
    net n rq = FetchResolves true status (inr kl) /\ rq_startTime rq = s.
Proof.
  revert lastErr log. induction bases as [|base rest IH]; intros lastErr log H;
    cbn [tryBases] in H; [discriminate|].
  destruct (net (length log) (mkRequest base symbol interval s e))
    as [err|ok status json] eqn:E.
  - now apply IH in H.
  - destruct ok; [|now apply IH in H].
    destruct json as [err|data]; [now apply IH in H|].
    inversion H; subst. eauto.
Qed.

Lemma tryBases_settles net bases lastErr symbol interval s e log :
  fst (tryBases net bases lastErr symbol interval s e log) <> OutOfFuel.
Proof.
  revert lastErr log. induction bases as [|base rest IH]; intros lastErr log;
    cbn [tryBases]; [discriminate|].
  destruct (net (length log) (mkRequest base symbol interval s e))
    as [err|ok status json]; [apply IH|].
  destruct ok; [|apply IH].
  destruct json; [apply IH|discriminate].
Qed.

Lemma nextCursor_advances intervalMs endTime t kl :
  0 < intervalMs -> t < endTime ->
  (forall k, List.last (map Some kl) None = Some k -> t <= k0 k) ->
  let chunkEnd := Z.min endTime (t + intervalMs * 1000) in
  let t' := nextCursor intervalMs chunkEnd kl in
  t < t' /\ Z.min endTime (t + intervalMs) <= t' /\
  (kl = [] -> t' = chunkEnd) /\
  (forall k, List.last (map Some kl) None = Some k -> t' = k0 k + intervalMs).
Proof.
  intros Hi Ht Hlast chunkEnd t'. unfold t', nextCursor.
  destruct (List.last (map Some kl) None) as [k|] eqn:E.
  - specialize (Hlast k eq_refl). repeat split; try lia.
    + intros ->. discriminate.
    + intros k' Hk'. now inversion Hk'.
  - unfold chunkEnd. repeat split; try lia. intros k Hk. discriminate.
Qed.

Lemma chunksLeft_decreases endTime i t t' :
  0 < i -> t < endTime -> Z.min endTime (t + i) <= t' ->
  (chunksLeft endTime t' i < chunksLeft endTime t i)%nat.
Proof.
  intros Hi Ht Hmin. unfold chunksLeft.
  set (a := endTime - t + i - 1). set (b := endTime - t' + i - 1).
  assert (Ha : 1 <= a / i).
  { apply Z.div_le_lower_bound; [lia|]. unfold a. lia. }
  assert (Hb : b / i <= a / i - 1).
  { destruct (Z_lt_le_dec t' endTime) as [Hlt|Hge].
    - assert (b <= a - i) by (unfold a, b; lia).
      replace (a / i - 1) with ((a + (-1) * i) / i) by (rewrite Z.div_add; lia).
      apply Z.div_le_mono; lia.
    - assert (b / i < 1); [|lia].
      apply Z.div_lt_upper_bound; [lia|]. unfold b. lia. }
  lia.
Qed.

Lemma fetchLoop_settles net symbol interval intervalMs endTime :
  respectsStart net -> 0 < intervalMs ->
  forall fuel t out log,
    (chunksLeft endTime t intervalMs < fuel)%nat ->
    fst (fetchLoop net fuel symbol interval intervalMs endTime t out log)
      <> OutOfFuel.
Proof.
  intros Hnet Hi. induction fuel as [|fuel IH]; intros t out log Hfuel; [lia|].
  cbn [fetchLoop]. destruct (Z.ltb_spec t endTime) as [Ht|Ht]; [|discriminate].
  unfold bind.
  pose proof (tryBases_settles net BINANCE_BASES None symbol interval t
                (Z.min endTime (t + intervalMs * 1000)) log) as Hs.
  unfold fetchKlinesAnyBase.
  destruct (tryBases net BINANCE_BASES None symbol interval t
              (Z.min endTime (t + intervalMs * 1000)) log) as [[kl|e|] log1] eqn:E;
    [|discriminate|now elim Hs].
  apply IH.
  destruct (tryBases_Returned _ _ _ _ _ _ _ _ _ _ E) as (n & rq & status & Hrq & Hst).
  assert (Hlast : forall k, List.last (map Some kl) None = Some k -> t <= k0 k).
  { intros k Hk. rewrite <- Hst. exact (Hnet _ _ _ _ _ Hrq Hk). }
  destruct (nextCursor_advances intervalMs endTime t kl Hi Ht Hlast) as (_ & Hmin & _).
  pose proof (chunksLeft_decreases endTime intervalMs t _ Hi Ht Hmin). lia.
Qed.

(** Once the loop ends within its budget, a larger budget gives the
    same result. *)
Lemma fetchLoop_more_fuel net symbol interval intervalMs endTime :
  forall fuel t out log,
    fst (fetchLoop net fuel symbol interval intervalMs endTime t out log)
      <> OutOfFuel ->
    forall fuel', (fuel <= fuel')%nat ->
      fetchLoop net fuel' symbol interval intervalMs endTime t out log =
      fetchLoop net fuel symbol interval intervalMs endTime t out log.
Proof.
  induction fuel as [|fuel IH]; intros t out log H fuel' Hle.
  - cbn in H. now elim H.
  - destruct fuel' as [|fuel']; [lia|]. cbn [fetchLoop] in *.
    destruct (t <? endTime); [|reflexivity].
    unfold bind in *.
    destruct (fetchKlinesAnyBase net symbol interval t
                (Z.min endTime (t + intervalMs * 1000)) log) as [[kl|e|] log1];
      try reflexivity.
    apply IH; [exact H|lia].
Qed.

(** C6.  If every non-empty response ends at or after the requested
    chunk start, then for [startTime < endTime] every iteration of the
    loop moves the cursor strictly forward (to the last open time plus
    the interval, or to the chunk end on an empty response), and the loop
    ends: [fetchAllKlines] returns or throws within one iteration per
    interval of the range, plus the final test, and with the same result
    for every larger number of iterations. *)
Theorem fetch_loop_terminates
    (net : Network) (symbol interval : string) (startTime endTime : Z) :
  respectsStart net -> startTime < endTime ->
  let intervalMs := intervalMsOf interval in
  (forall t log kl log',
     t < endTime ->
     fetchKlinesAnyBase net symbol interval t
       (Z.min endTime (t + intervalMs * 1000)) log = (Returned kl, log') ->
     let chunkEnd := Z.min endTime (t + intervalMs * 1000) in
     let t' := nextCursor intervalMs chunkEnd kl in
     t < t' /\
     (kl = [] -> t' = chunkEnd) /\
     (forall k, List.last (map Some kl) None = Some k -> t' = k0 k + intervalMs)) /\
  (forall fuel log,
     (chunksLeft endTime startTime intervalMs < fuel)%nat ->
     fst (fetchLoop net fuel symbol interval intervalMs endTime startTime [] log)
       <> OutOfFuel /\
     fst (fetchAllKlines net fuel symbol interval startTime endTime log)
       <> OutOfFuel /\
     forall fuel', (fuel <= fuel')%nat ->
       fetchAllKlines net fuel' symbol interval startTime endTime log =
       fetchAllKlines net fuel symbol interval startTime endTime log).
Proof.
  intros Hnet Hlt intervalMs.
  pose proof (intervalMsOf_pos interval) as Hi. fold intervalMs in Hi.
  split.
  - intros t log kl log' Ht Hret chunkEnd t'.
    unfold fetchKlinesAnyBase in Hret.
    destruct (tryBases_Returned _ _ _ _ _ _ _ _ _ _ Hret) as (n & rq & status & Hrq & Hst).
    assert (Hlast : forall k, List.last (map Some kl) None = Some k -> t <= k0 k).
    { intros k Hk. rewrite <- Hst. exact (Hnet _ _ _ _ _ Hrq Hk). }
    destruct (nextCursor_advances intervalMs endTime t kl Hi Ht Hlast)
      as (H1 & _ & H3 & H4).
    auto.
  - intros fuel log Hfuel.
    pose proof (fetchLoop_settles net symbol interval intervalMs endTime Hnet Hi
                  fuel startTime [] log Hfuel) as Hloop.
    split; [exact Hloop|]. split.
    + unfold fetchAllKlines, bind. fold intervalMs.
      destruct (fetchLoop net fuel symbol interval intervalMs endTime startTime [] log)
        as [[out|e|] log1]; [discriminate|discriminate|now elim Hloop].
    + intros fuel' Hle. unfold fetchAllKlines, bind. fold intervalMs.
      now rewrite (fetchLoop_more_fuel _ _ _ _ _ _ _ _ _ Hloop fuel' Hle).
Qed.

Lemma sampleNet_respectsStart : respectsStart sampleNet.
Proof.
  intros n rq status data k H Hk. unfold sampleNet in H.
  inversion H; subst. cbn in Hk. inversion Hk; subst. cbn. lia.
Qed.

Lemma fetch_loop_terminates_witness :
  respectsStart sampleNet /\ 0 < 600000 /\
  fst (fetchAllKlines sampleNet 11 "BTCUSDT" "1m" 0 600000 []) <> OutOfFuel.
Proof.
  split; [exact sampleNet_respectsStart|]. split; [reflexivity|].
  apply (fetch_loop_terminates sampleNet "BTCUSDT" "1m" 0 600000
           sampleNet_respectsStart eq_refl).
  vm_compute. lia.
Defined.

(** ** Fallback and failure of the hindsight run *)













Lemma hindsightOf_trade ss la realism t : Hind.trade (hindsightOf ss la realism t) = t.
Proof.
  unfold hindsightOf. destruct (ss !! _); [|reflexivity].
  destruct (bestPriceInWindow _ _ _ _) as [[| |raw|]|]; reflexivity.
Qed.



(** With both bases down the first chunk takes two requests and the
    run ends in the failure state. *)
Example both_bases_down_fails_the_run :
  exists s' rq1 rq2,
    runHindsight allDownNet 5 sampleApp [] = (Some s', [rq1; rq2]) /\
    rq_base rq1 = primaryBase /\ rq_base rq2 = fallbackBase /\
    App.closedTrades s' = [c3_trade] /\
    App.hData s' = None /\
    App.error s' = "Hindsight failed: HTTP 503"%string.
Proof. eexists _, _, _. vm_compute. repeat split. Qed.

(** With the primary base down every chunk is served by the fallback,
    and the run completes with one hindsight row per trade. *)
Example fallback_serves_the_run :
  exists s' log',
    runHindsight primaryDownNet 20 sampleApp [] = (Some s', log') /\
    App.error s' = ""%string /\
    option_map (map Hind.bestExit) (App.hData s') = Some [Some (Fin (108 # 5))] /\
    length log' = 32%nat.
Proof. eexists _, _. vm_compute. auto. Qed.

(* ================================================================== *)
(** * Further properties *)
(* ================================================================== *)

(** ** The stable sort commutes with filtering *)

Section StableSortFilter.
Context {A : Type} (key : A -> Z) (p : A -> bool).

Lemma insertByKey_front x l :
  Forall (fun z => key x <= key z) l -> insertByKey key x l = x :: l.
Proof.
  destruct l as [|y l]; [reflexivity|]. intros H. inversion H; subst.
  cbn [insertByKey]. destruct (Z.leb_spec (key x) (key y)); [reflexivity|lia].
Qed.

Lemma insertByKey_filter_out x l :
  p x = false -> List.filter p (insertByKey key x l) = List.filter p l.
Proof.
  intros Hx. induction l as [|y l IH]; cbn [insertByKey List.filter].
  - now rewrite Hx.
  - destruct (key x <=? key y); cbn [List.filter].
    + now rewrite Hx.
    + now rewrite IH.
Qed.

Lemma insertByKey_filter_in x l :
  StronglySorted (keyLe key) l -> p x = true ->
  List.filter p (insertByKey key x l) = insertByKey key x (List.filter p l).
Proof.
  intros Hs Hx. induction Hs as [|y l Hs IH Hall]; cbn [insertByKey List.filter].
  - now rewrite Hx.
  - destruct (Z.leb_spec (key x) (key y)) as [Hle|Hgt].
    + cbn [List.filter]. rewrite Hx. symmetry.
      apply (insertByKey_front x (List.filter p (y :: l))).
      apply List.Forall_forall. intros z Hz. apply filter_In in Hz. destruct Hz as [Hz _].
      destruct Hz as [<-|Hz]; [exact Hle|].
      rewrite List.Forall_forall in Hall. specialize (Hall z Hz).
      unfold keyLe in Hall. lia.
    + cbn [List.filter]. rewrite IH. destruct (p y); [|reflexivity].
      cbn [insertByKey].
      destruct (Z.leb_spec (key x) (key y)); [lia|reflexivity].
Qed.

Lemma sortByKey_filter l :
  List.filter p (sortByKey key l) = sortByKey key (List.filter p l).
Proof.
  induction l as [|x l IH]; [reflexivity|].
  cbn [sortByKey fold_right List.filter]. fold (sortByKey key l).
  destruct (p x) eqn:Hx.
  - rewrite insertByKey_filter_in by (apply sortByKey_sorted || exact Hx).
    cbn [sortByKey fold_right]. now rewrite IH.
  - rewrite insertByKey_filter_out by exact Hx. exact IH.
Qed.

(** A stable ascending arrangement is determined by the runs of equal
    keys. *)
Lemma sorted_by_runs_unique l1 l2 :
  StronglySorted (keyLe key) l1 -> StronglySorted (keyLe key) l2 ->
  (forall k, List.filter (fun a => key a =? k) l1 =
             List.filter (fun a => key a =? k) l2) ->
  l1 = l2.
Proof.
  intros H1. revert l2. induction H1 as [|x t1 Hs1 IH Hall1]; intros l2 H2 Hruns.
  - destruct l2 as [|y t2]; [reflexivity|].
    specialize (Hruns (key y)). cbn in Hruns. now rewrite Z.eqb_refl in Hruns.
  - destruct l2 as [|y t2].
    + specialize (Hruns (key x)). cbn in Hruns. now rewrite Z.eqb_refl in Hruns.
    + inversion H2 as [|? ? Hs2 Hall2]; subst.
      assert (Hxy : key x = key y).
      { assert (Hx : In x (List.filter (fun a => key a =? key x) (y :: t2))).
        { rewrite <- Hruns. cbn. rewrite Z.eqb_refl. now left. }
        assert (Hy : In y (List.filter (fun a => key a =? key y) (x :: t1))).
        { rewrite Hruns. cbn. rewrite Z.eqb_refl. now left. }
        apply filter_In in Hx, Hy. destruct Hx as [Hx _], Hy as [Hy _].
        rewrite List.Forall_forall in Hall1, Hall2. unfold keyLe in *.
        assert (key y <= key x) by (destruct Hx as [<-|Hx]; [lia|now apply Hall2]).
        assert (key x <= key y) by (destruct Hy as [<-|Hy]; [lia|now apply Hall1]).
        lia. }
      pose proof (Hruns (key x)) as Hk. cbn [List.filter] in Hk.
      rewrite <- Hxy, Z.eqb_refl in Hk. inversion Hk as [[Hhead Htail]]. subst y.
      f_equal. apply IH; [exact Hs2|].
      intros k. specialize (Hruns k). cbn [List.filter] in Hruns.
      destruct (key x =? k); [now inversion Hruns|exact Hruns].
Qed.
End StableSortFilter.

(** ** One queue per key *)

Lemma tradeKey_tradeOf f m : tradeKey (tradeOf f m) = getKey f.
Proof. reflexivity. Qed.

Lemma replay_one_key k l : forall b b',
  queueOf (stacks b) k = queueOf (stacks b') k ->
  List.filter (tradeHasKey k) (closedTrades b) = closedTrades b' ->
  List.filter (tradeHasKey k) (closedTrades (fold_left processFill l b)) =
  closedTrades (fold_left processFill (List.filter (hasKey k) l) b').
Proof.
  induction l as [|f l IH]; intros b b' Hq Ht; cbn [fold_left List.filter]; [exact Ht|].
  unfold hasKey at 1. destruct (String.eqb_spec (getKey f) k) as [Hk|Hk].
  - cbn [fold_left]. apply IH.
    + destruct (processFill_own b f) as [Q1 _], (processFill_own b' f) as [Q2 _].
      cbn zeta in Q1, Q2. rewrite <- Hk. rewrite Q1, Q2. rewrite Hk, Hq. reflexivity.
    + destruct (processFill_own b f) as [_ T1], (processFill_own b' f) as [_ T2].
      cbn zeta in T1, T2. rewrite T1, T2, List.filter_app, Ht, Hk, Hq. f_equal.
      destruct (Fill.action f); try reflexivity.
      cbn [List.filter]. unfold tradeHasKey. rewrite tradeKey_tradeOf, <- Hk.
      now rewrite String.eqb_refl.
  - apply IH.
    + rewrite processFill_other by congruence. exact Hq.
    + destruct (processFill_own b f) as [_ T1]. cbn zeta in T1.
      rewrite T1, List.filter_app, Ht.
      destruct (Fill.action f); rewrite ?app_nil_r; try reflexivity.
      cbn [List.filter]. unfold tradeHasKey. rewrite tradeKey_tradeOf.
      destruct (String.eqb_spec (getKey f) k); [contradiction|apply app_nil_r].
Qed.

(** The trades of one (symbol, direction) pair depend on the fills of
    that pair only: matching the pair's fills alone gives exactly the
    pair's trades of the full run. *)
Theorem trades_of_a_key_depend_on_its_fills (fills : list Fill.t) (k : string) :
  buildClosedTradesFromFills (List.filter (hasKey k) fills) =
  List.filter (tradeHasKey k) (buildClosedTradesFromFills fills).
Proof.
  unfold buildClosedTradesFromFills, buildState.
  rewrite <- sortByKey_filter. symmetry. now apply replay_one_key.
Qed.

(** ** One trade per CLOSE, in chronological order *)

Lemma replay_carries l : forall b,
  exists emitted,
    closedTrades (fold_left processFill l b) = closedTrades b ++ emitted /\
    Forall2 carries (List.filter isClose l) emitted.
Proof.
  induction l as [|f l IH]; intros b; cbn [fold_left List.filter].
  - exists []. split; [now rewrite app_nil_r|constructor].
  - destruct (IH (processFill b f)) as (em & E & F).
    destruct (processFill_own b f) as [_ T]. cbn zeta in T. rewrite T in E.
    unfold isClose at 1. destruct (Fill.action f).
    + exists em. rewrite app_nil_r in E. auto.
    + eexists (_ :: em). rewrite <- app_assoc in E. split; [exact E|].
      constructor; [|exact F]. repeat split.
    + exists em. rewrite app_nil_r in E. auto.
Qed.

Lemma StronglySorted_filter {A : Type} (R : A -> A -> Prop) (p : A -> bool) l :
  StronglySorted R l -> StronglySorted R (List.filter p l).
Proof.
  induction 1 as [|x l Hs IH Hall]; cbn [List.filter]; [constructor|].
  destruct (p x); [|exact IH]. constructor; [exact IH|].
  rewrite List.Forall_forall in *. intros y Hy. apply filter_In in Hy. now apply Hall.
Qed.

(** [buildClosedTradesFromFills] emits exactly one trade per CLOSE fill,
    in replay order; each trade carries its fill's symbol, direction,
    close time, exit price, quantity and realised pnl; and the close
    times of the emitted trades never decrease. *)
Theorem one_trade_per_close_in_time_order (fills : list Fill.t) :
  let trades := buildClosedTradesFromFills fills in
  Forall2 carries (List.filter isClose (sortByKey Fill.time fills)) trades /\
  length trades = length (List.filter isClose fills) /\
  StronglySorted Z.le (map Trade.closeTime trades).
Proof.
  intros trades. unfold trades, buildClosedTradesFromFills, buildState.
  destruct (replay_carries (sortByKey Fill.time fills) emptyBuild) as (em & E & F).
  rewrite E. cbn [emptyBuild closedTrades app].
  split; [exact F|]. split.
  - rewrite <- (Forall2_length _ _ _ F).
    rewrite sortByKey_filter. apply Permutation_length.
    symmetry. apply sortByKey_perm.
  - assert (Hs : StronglySorted (keyLe Fill.time)
                   (List.filter isClose (sortByKey Fill.time fills))).
    { apply StronglySorted_filter, sortByKey_sorted. }
    revert Hs F. generalize (List.filter isClose (sortByKey Fill.time fills)).
    intros cl Hs F. clear E. revert Hs.
    induction F as [|f t cl' em' Hc F IH]; intros Hs; [constructor|].
    inversion Hs as [|? ? Hs' Hall]; subst. cbn [map].
    constructor; [exact (IH Hs')|].
    destruct Hc as (_ & _ & _ & Ht & _). rewrite Ht.
    clear IH Hs Hs'. induction F as [|f' t' cl'' em'' Hc' F IH']; [constructor|].
    inversion Hall; subst. cbn [map]. constructor; [|now apply IH'].
    destruct Hc' as (_ & _ & _ & Ht' & _). rewrite Ht'. assumption.
Qed.

(** ** The input order matters only among fills of equal time *)

(** Two inputs that list the fills of every timestamp in the same order
    give the same trades, however the timestamps are interleaved. *)
Theorem input_order_matters_only_within_a_timestamp (fills fills' : list Fill.t) :
  (forall t, List.filter (fun f => Fill.time f =? t) fills =
             List.filter (fun f => Fill.time f =? t) fills') ->
  buildClosedTradesFromFills fills = buildClosedTradesFromFills fills'.
Proof.
  intros H. unfold buildClosedTradesFromFills, buildState.
  rewrite (sorted_by_runs_unique Fill.time
             (sortByKey Fill.time fills) (sortByKey Fill.time fills')); [reflexivity| | |].
  - apply sortByKey_sorted.
  - apply sortByKey_sorted.
  - intros k. now rewrite !sortByKey_stable.
Qed.

Lemma input_order_matters_only_within_a_timestamp_witness :
  (forall t, List.filter (fun f => Fill.time f =? t) twoSymbolFills =
             List.filter (fun f => Fill.time f =? t) (rev twoSymbolFills)) /\
  buildClosedTradesFromFills twoSymbolFills =
  buildClosedTradesFromFills (rev twoSymbolFills).
Proof.
  assert (H : forall t, List.filter (fun f => Fill.time f =? t) twoSymbolFills =
                        List.filter (fun f => Fill.time f =? t) (rev twoSymbolFills)).
  { intros t. cbn -[Z.eqb].
    destruct (Z.eqb_spec 0 t); destruct (Z.eqb_spec 5 t);
      destruct (Z.eqb_spec 10 t); destruct (Z.eqb_spec 15 t);
      destruct (Z.eqb_spec 20 t); try reflexivity; lia. }
  split; [exact H|].
  exact (input_order_matters_only_within_a_timestamp twoSymbolFills (rev twoSymbolFills) H).
Defined.

(** ** The entry price keeps the sign of the prices of the lots *)

Lemma pricedWithin_step lo hi s :
  pricedWithin lo hi s -> matchCond s = true -> pricedWithin lo hi (matchBody s).
Proof.
  intros (Hwf & Hpr & c & v & Hc & Hv & Hc0 & Hb) Hcond.
  destruct (matchCond_inv s Hcond) as [Hpos (lot & rest & Hst)].
  rewrite Hst in Hwf, Hpr.
  inversion Hwf as [|? ? [_ (a & Ha & Ha0)] Hwf']; subst.
  inversion Hpr as [|? ? (p & Hp & Hlo) Hpr']; subst.
  destruct lot as [lt lp lq]. cbn [Lot.qty Lot.price Lot.time] in *. subst lp lq.
  assert (Htake : exists t, Math_min (remaining s) (Fin a) = Fin t /\
                            (0 < t)%Q /\ (t <= a)%Q).
  { destruct (remaining s) as [| |rem|]; try discriminate.
    - apply js_gt_zero_Fin in Hpos. cbn [Math_min js_le].
      destruct (Qle_bool rem a) eqn:E.
      + apply Qle_bool_true in E. eauto.
      + exists a. repeat split; auto. apply Qle_refl.
    - exists a. repeat split; auto. apply Qle_refl. }
  destruct Htake as (t & Ht & Ht0 & Hta).
  unfold matchBody. rewrite Hst. cbn [Lot.qty Lot.price Lot.time].
  rewrite Ht, Hc, Hv. unfold pricedWithin.
  cbn [stack entryQtyTotal entryNotional js_sub js_add js_mul js_le eps12].
  split; [|split].
  - destruct (Qle_bool (Qred (a - t)) (1 # 1000000000000)) eqn:E; [exact Hwf'|].
    apply Qle_bool_false in E. rewrite Qred_correct in E.
    constructor; [|exact Hwf']. split; cbn; [eauto|].
    eexists. split; [reflexivity|]. rewrite Qred_correct.
    assert ((0 < 1 # 1000000000000)%Q) by reflexivity. lra.
  - destruct (Qle_bool (Qred (a - t)) (1 # 1000000000000)); [exact Hpr'|].
    constructor; [|exact Hpr']. exists p. split; [reflexivity|exact Hlo].
  - do 2 eexists. split; [reflexivity|]. split; [reflexivity|].
    rewrite !Qred_correct. split; [lra|]. nra.
Qed.

Lemma runMatch_pricedWithin lo hi q st :
  Forall lotWellFormed st -> Forall (lotPricedWithin lo hi) st ->
  pricedWithin lo hi (runMatch q st).
Proof.
  intros Hwf Hpr. unfold runMatch.
  apply whileMatch_invariant; [apply pricedWithin_step|].
  unfold pricedWithin. cbn [initMatch stack entryQtyTotal entryNotional].
  split; [exact Hwf|]. split; [exact Hpr|].
  exists 0%Q, 0%Q. repeat split; try reflexivity; lra.
Qed.

(** Matched against well-formed lots whose prices all lie between
    [lo] and [hi], a CLOSE of any quantity gets, when it gets one, an
    entry price that is not negative if no lot price is ([0 <= lo]), and
    not positive if no lot price is positive ([hi <= 0]). *)
Theorem entry_price_keeps_sign_of_lot_prices
    (f : Fill.t) (st : list Lot.t) (lo hi e : Q) :
  Forall lotWellFormed st ->
  Forall (lotPricedWithin lo hi) st ->
  Trade.entryPrice (tradeOf f (runMatch (Fill.qty f) st)) = Some e ->
  ((0 <= lo)%Q -> (0 <= e)%Q) /\ ((hi <= 0)%Q -> (e <= 0)%Q).
Proof.
  intros Hwf Hpr.
  destruct (runMatch_pricedWithin lo hi (Fill.qty f) st Hwf Hpr)
    as (_ & _ & c & v & Hc & Hv & Hc0 & Hb).
  unfold tradeOf. cbn [Trade.entryPrice]. rewrite Hc, Hv.
  destruct (js_gt (Fin c) zero) eqn:Hpos; [|discriminate].
  apply js_gt_zero_Fin in Hpos. cbn [js_div].
  assert (Hnz : Qeq_bool c 0 = false).
  { apply not_true_iff_false. intros E. apply Qeq_bool_iff in E. lra. }
  rewrite Hnz. cbn [finiteOrNull]. intros E. inversion E; subst e.
  rewrite Qred_correct. split; intros H.
  - apply Qle_shift_div_l; [exact Hpos|]. nra.
  - apply Qle_shift_div_r; [exact Hpos|]. nra.
Qed.

Lemma entry_price_keeps_sign_of_lot_prices_witness :
  exists e,
    Trade.entryPrice (tradeOf (sampleFill CLOSE LONG 10 300 5)
                        (runMatch (nz 5) [Lot.mk 0 (nz 100) (nz 2);
                                          Lot.mk 1 (nz 200) (nz 3)])) = Some e /\
    (0 <= e)%Q.
Proof.
  assert (H1 : Forall lotWellFormed [Lot.mk 0 (nz 100) (nz 2); Lot.mk 1 (nz 200) (nz 3)]).
  { repeat constructor; cbn; eauto; eexists; split; reflexivity. }
  assert (H2 : Forall (lotPricedWithin 100 200)
                 [Lot.mk 0 (nz 100) (nz 2); Lot.mk 1 (nz 200) (nz 3)]).
  { repeat constructor; eexists; (split; [reflexivity|]); cbn;
      change (inject_Z 100) with 100%Q; change (inject_Z 200) with 200%Q; lra. }
  assert (H3 : Trade.entryPrice (tradeOf (sampleFill CLOSE LONG 10 300 5)
                 (runMatch (nz 5) [Lot.mk 0 (nz 100) (nz 2); Lot.mk 1 (nz 200) (nz 3)]))
               = Some 160%Q) by (vm_compute; reflexivity).
  exists 160%Q. split; [exact H3|].
  apply (proj1 (entry_price_keeps_sign_of_lot_prices
                  (sampleFill CLOSE LONG 10 300 5) _ 100 200 160 H1 H2 H3)).
  discriminate.
Defined.

(** ** The note, the entry price and the hold duration *)

Lemma matchedSoFar_step T s :
  matchedSoFar T s -> matchCond s = true -> matchedSoFar T (matchBody s).
Proof.
  intros ((rem & Hr) & Hwf & Htimes & Hacc) Hc.
  destruct (matchCond_inv s Hc) as [Hpos (lot & rest & Hst)].
  rewrite Hst in Hwf, Htimes.
  inversion Hwf as [|? ? [[p Hp] (a & Ha & Ha0)] Hwf']; subst.
  inversion Htimes as [|? ? Hlt Htimes']; subst.
  rewrite Hr in Hpos. apply js_gt_zero_Fin in Hpos.
  destruct lot as [lt lp lq]. cbn [Lot.qty Lot.price Lot.time] in *. subst lp lq.
  assert (Htake : exists t, Math_min (Fin rem) (Fin a) = Fin t /\ (0 < t)%Q /\ (t <= a)%Q).
  { cbn [Math_min js_le]. destruct (Qle_bool rem a) eqn:E.
    - apply Qle_bool_true in E. eauto.
    - exists a. repeat split; auto. apply Qle_refl. }
  destruct Htake as (t & Ht & Ht0 & Hta).
  unfold matchBody. rewrite Hst, Hr. cbn [Lot.qty Lot.price Lot.time].
  rewrite Ht. unfold matchedSoFar. cbn [remaining stack entryTime entryQtyTotal entryNotional].
  split; [cbn; eauto|]. split; [|split].
  - cbn [js_sub js_le eps12].
    destruct (Qle_bool (Qred (a - t)) (1 # 1000000000000)) eqn:E; [exact Hwf'|].
    apply Qle_bool_false in E. rewrite Qred_correct in E.
    constructor; [|exact Hwf']. split; cbn; [eauto|].
    eexists. split; [reflexivity|]. rewrite Qred_correct.
    assert ((0 < 1 # 1000000000000)%Q) by reflexivity. lra.
  - cbn [js_sub js_le eps12].
    destruct (Qle_bool (Qred (a - t)) (1 # 1000000000000)); [exact Htimes'|].
    constructor; [exact Hlt|exact Htimes'].
  - right. destruct Hacc as [(He & Hq & Hn) | (et & c & v & He & Hle & Hq & Hc0 & Hn)];
      rewrite He, Hq, Hn.
    + exists lt. do 2 eexists. split; [reflexivity|]. split; [exact Hlt|].
      cbn [js_add js_mul zero nz]. split; [reflexivity|]. split; [|reflexivity].
      rewrite Qred_correct. change (inject_Z 0) with 0%Q. lra.
    + exists (if lt <? et then lt else et). do 2 eexists.
      split; [destruct (lt <? et); reflexivity|].
      split; [destruct (lt <? et); lia|].
      cbn [js_add js_mul]. split; [reflexivity|]. split; [|reflexivity].
      rewrite Qred_correct. lra.
Qed.

Lemma runMatch_matchedSoFar T r st :
  Forall lotWellFormed st -> Forall (fun l => Lot.time l <= T) st ->
  matchedSoFar T (runMatch (Fin r) st).
Proof.
  intros Hwf Ht. unfold runMatch.
  apply whileMatch_invariant; [apply matchedSoFar_step|].
  unfold matchedSoFar. cbn. repeat split; eauto.
Qed.

(** For a CLOSE whose quantity is a finite number or NaN, matched
    against well-formed lots opened no later than the close: a trade
    with an entry price has a null note; the trade has a null note
    exactly when it has a hold duration; the note is otherwise the
    no-match text, and it is always that text when the queue is empty. *)
Theorem note_marks_unmatched_close (f : Fill.t) (st : list Lot.t) :
  (Fill.qty f = NaN \/ exists r, Fill.qty f = Fin r) ->
  Forall lotWellFormed st ->
  Forall (fun l => Lot.time l <= Fill.time f) st ->
  let t := tradeOf f (runMatch (Fill.qty f) st) in
  (Trade.entryPrice t <> None -> Trade.note t = None) /\
  (Trade.note t = None <-> Trade.holdMins t <> None) /\
  (Trade.note t <> None -> Trade.note t = Some noMatchNote) /\
  (st = [] -> Trade.note t = Some noMatchNote).
Proof.
  intros Hq Hwf Htimes t.
  assert (Hcases :
    (entryTime (runMatch (Fill.qty f) st) = None /\
     entryQtyTotal (runMatch (Fill.qty f) st) = zero) \/
    (exists et c v, entryTime (runMatch (Fill.qty f) st) = Some et /\
                    et <= Fill.time f /\
                    entryQtyTotal (runMatch (Fill.qty f) st) = Fin c /\ (0 < c)%Q /\
                    entryNotional (runMatch (Fill.qty f) st) = Fin v)).
  { destruct Hq as [Hq | [r Hq]]; rewrite Hq.
    - left. unfold runMatch, matchFuel.
      destruct (2 * length st + 2)%nat; split; reflexivity.
    - destruct (runMatch_matchedSoFar (Fill.time f) r st Hwf Htimes)
        as (_ & _ & _ & [(H1 & H2 & _) | H]); [left; auto|right; exact H]. }
  assert (Hempty : st = [] -> entryQtyTotal (runMatch (Fill.qty f) st) = zero).
  { intros ->. unfold runMatch, matchFuel. cbn [length Nat.mul Nat.add whileMatch].
    unfold matchCond. cbn [initMatch stack remaining length Nat.eqb negb].
    now rewrite andb_false_r. }
  unfold t, tradeOf. cbn [Trade.note Trade.entryPrice Trade.holdMins].
  destruct Hcases as [(He & Hc) | (et & c & v & He & Hle & Hc & Hc0 & Hv)].
  - rewrite He, Hc. change (js_gt zero zero) with false. cbn.
    repeat split; try discriminate; try congruence; auto.
  - rewrite He, Hc, Hv.
    assert (Hpos : js_gt (Fin c) zero = true) by now apply js_gt_zero_Fin.
    rewrite Hpos. cbn [js_div].
    assert (Hnz : Qeq_bool c 0 = false).
    { apply not_true_iff_false. intros E. apply Qeq_bool_iff in E. lra. }
    rewrite Hnz. unfold minsBetween.
    destruct (Z.ltb_spec (Fill.time f - et) 0); [lia|].
    cbn [js_div nz]. change (Qeq_bool (inject_Z 60000) 0) with false.
    cbn [finiteOrNull]. repeat split; try discriminate; try congruence.
    intros E. specialize (Hempty E). rewrite Hc in Hempty.
    inversion Hempty; subst. exfalso. exact (Qlt_irrefl 0 Hc0).
Qed.

Lemma note_marks_unmatched_close_witness :
  (Fill.qty c1_close = NaN \/ exists r, Fill.qty c1_close = Fin r) /\
  Forall lotWellFormed c1_queue /\
  Forall (fun l => Lot.time l <= Fill.time c1_close) c1_queue /\
  (Trade.note (tradeOf c1_close (runMatch (Fill.qty c1_close) c1_queue)) = None <->
   Trade.holdMins (tradeOf c1_close (runMatch (Fill.qty c1_close) c1_queue)) <> None).
Proof.
  assert (H1 : Fill.qty c1_close = NaN \/ exists r, Fill.qty c1_close = Fin r).
  { right. eexists. reflexivity. }
  assert (H2 : Forall lotWellFormed c1_queue).
  { repeat constructor; cbn; eauto. eexists. split; reflexivity. }
  assert (H3 : Forall (fun l => Lot.time l <= Fill.time c1_close) c1_queue).
  { repeat constructor. cbn. lia. }
  split; [exact H1|]. split; [exact H2|]. split; [exact H3|].
  exact (proj1 (proj2 (note_marks_unmatched_close c1_close c1_queue H1 H2 H3))).
Defined.

(** The hold duration of a trade is the time from the open of the lot
    at the head of the queue, the earliest opened, to the close, in
    minutes; it is null if that lot opened after the close. *)
Theorem hold_minutes_from_earliest_lot (f : Fill.t) (lot : Lot.t) (rest : list Lot.t) :
  js_gt (Fill.qty f) zero = true ->
  inOpeningOrder (lot :: rest) ->
  let t := tradeOf f (runMatch (Fill.qty f) (lot :: rest)) in
  (Lot.time lot <= Fill.time f ->
   exists h, Trade.holdMins t = Some h /\
             (h == inject_Z (Fill.time f - Lot.time lot) / 60000)%Q) /\
  (Fill.time f < Lot.time lot -> Trade.holdMins t = None).
Proof.
  intros Hq Hs t. unfold t, tradeOf. cbn [Trade.holdMins].
  rewrite (runMatch_entryTime _ _ _ Hq Hs). unfold minsBetween.
  split; intros H.
  - destruct (Z.ltb_spec (Fill.time f - Lot.time lot) 0); [lia|].
    cbn [js_div nz]. change (Qeq_bool (inject_Z 60000) 0) with false.
    cbn [finiteOrNull]. eexists. split; [reflexivity|].
    rewrite Qred_correct. reflexivity.
  - destruct (Z.ltb_spec (Fill.time f - Lot.time lot) 0); [reflexivity|lia].
Qed.

Lemma hold_minutes_from_earliest_lot_witness :
  js_gt (Fill.qty c1_close) zero = true /\ inOpeningOrder c1_queue /\
  exists h,
    Trade.holdMins (tradeOf c1_close (runMatch (Fill.qty c1_close) c1_queue)) = Some h /\
    (h == inject_Z (10 - 0) / 60000)%Q.
Proof.
  assert (H1 : js_gt (Fill.qty c1_close) zero = true) by reflexivity.
  assert (H2 : inOpeningOrder c1_queue) by (repeat constructor).
  split; [exact H1|]. split; [exact H2|].
  apply (proj1 (hold_minutes_from_earliest_lot c1_close
                  (Lot.mk 0 (nz 100) (nz 1)) [] H1 H2)).
  cbn. lia.
Defined.

(** ** Win rate, total pnl and means *)

Lemma filter_length_le {A : Type} (p : A -> bool) l :
  (length (List.filter p l) <= length l)%nat.
Proof.
  induction l as [|x l IH]; cbn [List.filter length]; [lia|].
  destruct (p x); cbn [length]; lia.
Qed.

Lemma filter_length_all {A : Type} (p : A -> bool) l :
  length (List.filter p l) = length l <-> Forall (fun x => p x = true) l.
Proof.
  induction l as [|x l IH]; cbn [List.filter length].
  - split; [constructor|reflexivity].
  - destruct (p x) eqn:E; cbn [length].
    + split.
      * intros H. constructor; [exact E|]. apply IH. lia.
      * intros H. inversion H; subst. f_equal. now apply IH.
    + pose proof (filter_length_le p l) as Hle. split; [lia|].
      intros H. inversion H; subst. congruence.
Qed.

Lemma filter_length_none {A : Type} (p : A -> bool) l :
  length (List.filter p l) = O <-> Forall (fun x => p x = false) l.
Proof.
  induction l as [|x l IH]; cbn [List.filter length].
  - split; [constructor|reflexivity].
  - destruct (p x) eqn:E; cbn [length].
    + split; [lia|]. intros H. inversion H; subst. congruence.
    + rewrite IH. split; intros H; [now constructor|now inversion H].
Qed.

Lemma inject_Z_nat_pos k : (0 < k)%nat -> (0 < inject_Z (Z.of_nat k))%Q.
Proof. intros H. rewrite <- (Zlt_Qlt 0). lia. Qed.

(** The win rate is undefined for no trades; otherwise it is the share
    of trades with a positive realised pnl, a number between 0 and 1,
    equal to 1 exactly when every trade wins and to 0 exactly when none
    does. *)
Theorem win_rate_is_share_of_wins (Math_log2 : num -> num) (trades : list Trade.t) :
  let s := summarizeClosedTrades Math_log2 trades in
  Summary.n s = length trades /\
  (trades = [] -> Summary.winRate s = NaN) /\
  (trades <> [] ->
   exists w,
     Summary.winRate s = Fin w /\
     (w == inject_Z (Z.of_nat (length (List.filter isWin trades)))
           / inject_Z (Z.of_nat (length trades)))%Q /\
     (0 <= w <= 1)%Q /\
     ((w == 1)%Q <-> Forall (fun t => isWin t = true) trades) /\
     ((w == 0)%Q <-> Forall (fun t => isWin t = false) trades)).
Proof.
  intros s. split; [reflexivity|]. split; [intros ->; reflexivity|].
  intros Hne. unfold s, summarizeClosedTrades. cbn [Summary.winRate].
  assert (Hn : (0 < length trades)%nat) by (destruct trades; [congruence|cbn; lia]).
  replace (Nat.ltb 0 (length trades)) with true by (symmetry; now apply Nat.ltb_lt).
  unfold lengthNum, nz. cbn [js_div].
  set (nw := length (List.filter isWin trades)). set (n := length trades) in *.
  pose proof (inject_Z_nat_pos n Hn) as Hnq.
  assert (Hnz : Qeq_bool (inject_Z (Z.of_nat n)) 0 = false).
  { apply not_true_iff_false. intros E. apply Qeq_bool_iff in E. lra. }
  rewrite Hnz. eexists. split; [reflexivity|]. rewrite Qred_correct.
  split; [reflexivity|].
  pose proof (filter_length_le isWin trades) as Hle. fold nw n in Hle.
  assert (Hw0 : (0 <= inject_Z (Z.of_nat nw))%Q) by (rewrite <- (Zle_Qle 0); lia).
  assert (Hw1 : (inject_Z (Z.of_nat nw) <= inject_Z (Z.of_nat n))%Q)
    by (rewrite <- Zle_Qle; lia).
  split; [|split].
  - split.
    + apply Qle_shift_div_l; [exact Hnq|lra].
    + apply Qle_shift_div_r; [exact Hnq|lra].
  - rewrite <- filter_length_all. fold nw n. split.
    + intros E.
      assert (E' : (inject_Z (Z.of_nat nw) == inject_Z (Z.of_nat n))%Q).
      { rewrite <- (Qmult_div_r (inject_Z (Z.of_nat nw)) (inject_Z (Z.of_nat n))) by lra.
        rewrite E. ring. }
      apply (proj1 (inject_Z_injective _ _)) in E'. now apply Nat2Z.inj.
    + intros ->. field. lra.
  - rewrite <- filter_length_none. fold nw. split.
    + intros E.
      assert (E' : (inject_Z (Z.of_nat nw) == 0)%Q).
      { rewrite <- (Qmult_div_r (inject_Z (Z.of_nat nw)) (inject_Z (Z.of_nat n))) by lra.
        rewrite E. ring. }
      change 0%Q with (inject_Z (Z.of_nat 0)) in E'.
      apply (proj1 (inject_Z_injective _ _)) in E'. now apply Nat2Z.inj.
    + intros ->. cbn [Z.of_nat]. unfold Qdiv. change (inject_Z 0) with 0%Q. ring.
Qed.

Lemma sumNums_from (a : list Q) (s0 : Q) :
  exists s, fold_left (fun s x => js_add s (Fin x)) a (Fin s0) = Fin s /\
            (s == s0 + fold_right Qplus 0 a)%Q.
Proof.
  revert s0. induction a as [|x a IH]; intros s0; cbn [fold_left fold_right].
  - exists s0. split; [reflexivity|ring].
  - cbn [js_add]. destruct (IH (Qred (s0 + x))) as (s & Hs & E).
    exists s. split; [exact Hs|]. rewrite E, Qred_correct. ring.
Qed.

Lemma sumNums_spec (a : list Q) :
  exists s, sumNums a = Fin s /\ (s == fold_right Qplus 0 a)%Q.
Proof.
  destruct (sumNums_from a (inject_Z 0)) as (s & Hs & E).
  exists s. split; [exact Hs|]. rewrite E. change (inject_Z 0) with 0%Q. ring.
Qed.

Lemma finiteValues_app a b : finiteValues (a ++ b) = finiteValues a ++ finiteValues b.
Proof.
  induction a as [|[x|] a IH]; cbn [app finiteValues]; [reflexivity| |exact IH].
  now rewrite IH.
Qed.

Lemma fold_right_Qplus_app a b :
  (fold_right Qplus 0 (a ++ b) == fold_right Qplus 0 a + fold_right Qplus 0 b)%Q.
Proof.
  induction a as [|x a IH]; cbn [app fold_right]; [ring|]. rewrite IH. ring.
Qed.

Lemma sumNums_snoc (a : list Q) (x : Q) :
  sumNums (a ++ [x]) = js_add (sumNums a) (Fin x).
Proof. unfold sumNums. now rewrite fold_left_app. Qed.

Lemma sumNums_sign_from (a : list Q) (s0 : Q) :
  exists s,
    fold_left (fun s x => js_add s (Fin x)) a (Fin s0) = Fin s /\
    ((0 <= s0)%Q -> Forall (fun x => (0 <= x)%Q) a -> (0 <= s)%Q) /\
    ((s0 <= 0)%Q -> Forall (fun x => (x <= 0)%Q) a -> (s <= 0)%Q).
Proof.
  revert s0. induction a as [|x a IH]; intros s0; cbn [fold_left].
  - exists s0. auto.
  - cbn [js_add]. destruct (IH (Qred (s0 + x))) as (s & Hs & Hp & Hn).
    exists s. split; [exact Hs|].
    split; intros H0 Ha; inversion Ha; subst;
      [apply Hp|apply Hn]; auto; rewrite Qred_correct; lra.
Qed.

Lemma sumNums_sign (a : list Q) :
  (Forall (fun x => (0 <= x)%Q) a -> js_le zero (sumNums a) = true) /\
  (Forall (fun x => (x <= 0)%Q) a -> js_le (sumNums a) zero = true).
Proof.
  unfold sumNums, zero, nz.
  destruct (sumNums_sign_from a (inject_Z 0)) as (s & Hs & Hp & Hn).
  rewrite Hs. cbn [js_le]. change (inject_Z 0) with 0%Q in *.
  split; intros Ha; apply Qle_bool_true; [apply Hp|apply Hn];
    auto; apply Qle_refl.
Qed.

Lemma finiteValues_Forall (P : Q -> Prop) (arr : list (option Q)) :
  Forall (fun o => forall x, o = Some x -> P x) arr ->
  Forall P (finiteValues arr).
Proof.
  induction 1 as [|[x|] arr Hx Harr IH]; cbn [finiteValues]; auto.
Qed.

(** The total pnl is the running sum, in list order, of the realised
    pnl of the trades that have one.  It is 0 for no trades, a trade
    without a pnl does not change it, a trade with a pnl adds that pnl
    to the total of the trades before it, and the total is not negative
    when no pnl is, not positive when no pnl is positive. *)
Theorem total_pnl_adds_up (Math_log2 : num -> num) (a : list Trade.t) :
  let total := fun l => Summary.totalPnl (summarizeClosedTrades Math_log2 l) in
  total [] = zero /\
  (forall t, Trade.pnl t = None ->
     total (t :: a) = total a /\ total (a ++ [t]) = total a) /\
  (forall t p, Trade.pnl t = Some p ->
     total (a ++ [t]) = js_add (total a) (Fin p)) /\
  (Forall (fun t => forall p, Trade.pnl t = Some p -> (0 <= p)%Q) a ->
   js_le zero (total a) = true) /\
  (Forall (fun t => forall p, Trade.pnl t = Some p -> (p <= 0)%Q) a ->
   js_le (total a) zero = true).
Proof.
  intros total. unfold total, summarizeClosedTrades. cbn [Summary.totalPnl].
  split; [reflexivity|]. split; [|split; [|split]].
  - intros t Ht. split.
    + cbn [map finiteValues]. now rewrite Ht.
    + rewrite map_app, finiteValues_app. cbn [map finiteValues].
      now rewrite Ht, app_nil_r.
  - intros t p Ht. rewrite map_app, finiteValues_app. cbn [map finiteValues].
    rewrite Ht. apply sumNums_snoc.
  - intros H. apply sumNums_sign, finiteValues_Forall.
    apply Forall_map. exact H.
  - intros H. apply sumNums_sign, finiteValues_Forall.
    apply Forall_map. exact H.
Qed.

Lemma sum_bounds lo hi (a : list Q) :
  Forall (fun x => (lo <= x <= hi)%Q) a ->
  (inject_Z (Z.of_nat (length a)) * lo <= fold_right Qplus 0 a
   <= inject_Z (Z.of_nat (length a)) * hi)%Q.
Proof.
  induction 1 as [|x a [Hx1 Hx2] Ha IH].
  - cbn [length fold_right]. change (inject_Z (Z.of_nat 0)) with 0%Q. split; lra.
  - cbn [length fold_right]. rewrite Nat2Z.inj_succ. unfold Z.succ.
    rewrite inject_Z_plus. change (inject_Z 1) with 1%Q. lra.
Qed.

Lemma mean_spec (arr : list (option Q)) :
  (mean arr = NaN <-> finiteValues arr = []) /\
  (finiteValues arr <> [] ->
   exists m,
     mean arr = Fin m /\
     (m == fold_right Qplus 0 (finiteValues arr)
           / inject_Z (Z.of_nat (length (finiteValues arr))))%Q /\
     forall lo hi,
       Forall (fun x => (lo <= x <= hi)%Q) (finiteValues arr) ->
       (lo <= m <= hi)%Q).
Proof.
  unfold mean. set (a := finiteValues arr).
  destruct (sumNums_spec a) as (s & Hs & Es). rewrite Hs.
  destruct a as [|x a'] eqn:Ea.
  - cbn. split; [tauto|congruence].
  - rewrite <- Ea in *.
    assert (Hn : (0 < length a)%nat) by (rewrite Ea; cbn; lia).
    replace (Nat.eqb (length a) 0) with false by (rewrite Ea; reflexivity).
    pose proof (inject_Z_nat_pos _ Hn) as Hnq.
    unfold lengthNum, nz. cbn [js_div].
    assert (Hnz : Qeq_bool (inject_Z (Z.of_nat (length a))) 0 = false).
    { apply not_true_iff_false. intros E. apply Qeq_bool_iff in E. lra. }
    rewrite Hnz. split.
    + split; [discriminate|]. rewrite Ea. discriminate.
    + intros _. set (m := Qred (s / inject_Z (Z.of_nat (length a)))).
      assert (Hm : (m == fold_right Qplus 0 a / inject_Z (Z.of_nat (length a)))%Q).
      { unfold m. now rewrite Qred_correct, Es. }
      exists m. split; [reflexivity|]. split; [exact Hm|].
      intros lo hi Hb. destruct (sum_bounds lo hi a Hb) as [B1 B2].
      rewrite Hm. split.
      * apply Qle_shift_div_l; [exact Hnq|lra].
      * apply Qle_shift_div_r; [exact Hnq|lra].
Qed.

(** [mean] is undefined exactly when the array holds no finite number
    (in particular when it is empty); otherwise it is the program's
    quotient of the running sum of the finite entries by their count,
    nulls being ignored wherever they stand; it is not negative when no
    entry is, and not positive when no entry is positive. *)
Theorem mean_ignores_nulls_and_keeps_sign (arr : list (option Q)) :
  (mean arr = NaN <-> finiteValues arr = []) /\
  (finiteValues arr <> [] ->
   mean arr = js_div (sumNums (finiteValues arr)) (lengthNum (finiteValues arr))) /\
  (forall a b, arr = a ++ b -> mean (a ++ None :: b) = mean arr) /\
  (finiteValues arr <> [] ->
   Forall (fun x => (0 <= x)%Q) (finiteValues arr) -> js_le zero (mean arr) = true) /\
  (finiteValues arr <> [] ->
   Forall (fun x => (x <= 0)%Q) (finiteValues arr) -> js_le (mean arr) zero = true).
Proof.
  split; [exact (proj1 (mean_spec arr))|].
  assert (Hexp : finiteValues arr <> [] ->
            mean arr = js_div (sumNums (finiteValues arr))
                              (lengthNum (finiteValues arr))).
  { intros Hne. unfold mean. cbv zeta.
    destruct (finiteValues arr) as [|x a]; [congruence|reflexivity]. }
  split; [exact Hexp|]. split.
  { intros a b ->. unfold mean. now rewrite !finiteValues_app. }
  assert (Hsign : finiteValues arr <> [] ->
            exists s, sumNums (finiteValues arr) = Fin s /\
                      mean arr = Fin (Qred (s / inject_Z (Z.of_nat (length (finiteValues arr))))) /\
                      (0 < inject_Z (Z.of_nat (length (finiteValues arr))))%Q).
  { intros Hne. rewrite (Hexp Hne).
    destruct (sumNums_spec (finiteValues arr)) as (s & Hs & _).
    exists s. split; [exact Hs|]. rewrite Hs.
    assert (Hn : (0 < length (finiteValues arr))%nat)
      by (destruct (finiteValues arr); [congruence|cbn; lia]).
    pose proof (inject_Z_nat_pos _ Hn) as Hnq. split; [|exact Hnq].
    unfold lengthNum, nz. cbn [js_div].
    assert (Hnz : Qeq_bool (inject_Z (Z.of_nat (length (finiteValues arr)))) 0 = false).
    { apply not_true_iff_false. intros E. apply Qeq_bool_iff in E. lra. }
    now rewrite Hnz. }
  split; intros Hne Hall; destruct (Hsign Hne) as (s & Hs & Hm & Hn);
    rewrite Hm; cbn [js_le zero nz]; apply Qle_bool_true;
    rewrite Qred_correct; change (inject_Z 0) with 0%Q.
  - pose proof (proj1 (sumNums_sign (finiteValues arr)) Hall) as H.
    rewrite Hs in H. cbn [js_le zero nz] in H. apply Qle_bool_true in H.
    change (inject_Z 0) with 0%Q in H.
    apply Qle_shift_div_l; [exact Hn|lra].
  - pose proof (proj2 (sumNums_sign (finiteValues arr)) Hall) as H.
    rewrite Hs in H. cbn [js_le zero nz] in H. apply Qle_bool_true in H.
    change (inject_Z 0) with 0%Q in H.
    apply Qle_shift_div_r; [exact Hn|lra].
Qed.

(** ** When the paperhands ratio is defined *)

Lemma finiteValues_nonempty (p : Trade.t -> bool) (trades : list Trade.t) :
  finiteValues (map Trade.holdMins (List.filter p trades)) <> [] <->
  exists t, In t trades /\ p t = true /\ Trade.holdMins t <> None.
Proof.
  induction trades as [|t l IH]; cbn [List.filter map finiteValues].
  - split; [congruence|]. intros (t & [] & _).
  - destruct (p t) eqn:Ep; cbn [map finiteValues].
    + destruct (Trade.holdMins t) as [h|] eqn:Eh.
      * split; [|discriminate]. intros _. exists t. repeat split; auto.
        now left. congruence.
      * rewrite IH. split.
        -- intros (t' & Hin & H1 & H2). exists t'. repeat split; auto. now right.
        -- intros (t' & [<-|Hin] & H1 & H2); [congruence|].
           exists t'. auto.
    + rewrite IH. split.
      * intros (t' & Hin & H1 & H2). exists t'. repeat split; auto. now right.
      * intros (t' & [<-|Hin] & H1 & H2); [congruence|]. exists t'. auto.
Qed.

Lemma finiteValues_In (p : Trade.t -> bool) (trades : list Trade.t) h :
  In h (finiteValues (map Trade.holdMins (List.filter p trades))) <->
  exists t, In t trades /\ p t = true /\ Trade.holdMins t = Some h.
Proof.
  induction trades as [|t l IH]; cbn [List.filter map finiteValues].
  - split; [intros []|intros (t & [] & _)].
  - assert (Hrest : (exists t', In t' l /\ p t' = true /\ Trade.holdMins t' = Some h) ->
                    exists t', In t' (t :: l) /\ p t' = true /\ Trade.holdMins t' = Some h).
    { intros (t' & Hin & H1 & H2). exists t'. repeat split; auto. now right. }
    destruct (p t) eqn:Ep; cbn [map finiteValues].
    + destruct (Trade.holdMins t) as [h'|] eqn:Eh; cbn [In]; rewrite IH.
      * split.
        -- intros [<-|H]; [exists t; repeat split; auto; now left|auto].
        -- intros (t' & [<-|Hin] & H1 & H2); [left; congruence|right; eauto].
      * split; [auto|].
        intros (t' & [<-|Hin] & H1 & H2); [congruence|eauto].
    + rewrite IH. split; [auto|].
      intros (t' & [<-|Hin] & H1 & H2); [congruence|eauto].
Qed.

Lemma sum_pos_iff (a : list Q) :
  Forall (fun x => (0 <= x)%Q) a ->
  ((0 < fold_right Qplus 0 a)%Q <-> exists x, In x a /\ (0 < x)%Q).
Proof.
  induction 1 as [|x a Hx Ha IH]; cbn [fold_right In].
  - split; [intros H; exfalso; exact (Qlt_irrefl 0 H)|intros (x & [] & _)].
  - assert (Hs : (0 <= fold_right Qplus 0 a)%Q).
    { clear IH. induction Ha as [|y a Hy Ha IH]; cbn [fold_right]; [apply Qle_refl|lra]. }
    split.
    + intros H. destruct (Qlt_le_dec 0 x) as [Hpos|Hle].
      * exists x. auto.
      * assert (Hrest : (0 < fold_right Qplus 0 a)%Q) by lra.
        apply IH in Hrest. destruct Hrest as (y & Hy & Hy0). exists y. auto.
    + intros (y & [<-|Hy] & Hy0); [lra|].
      assert ((0 < fold_right Qplus 0 a)%Q) by (apply IH; eauto). lra.
Qed.

(** The paperhands ratio is defined exactly when some winning trade has
    a hold duration and some losing trade has a positive one; it is then
    the mean hold of the winners over the mean hold of the losers, and
    never negative. *)
Theorem paperhands_needs_winners_and_losers
    (Math_log2 : num -> num) (trades : list Trade.t) :
  Forall holdNonneg trades ->
  let s := summarizeClosedTrades Math_log2 trades in
  (Number_isFinite (Summary.paperhands s) = true <->
   (exists t, In t trades /\ isWin t = true /\ Trade.holdMins t <> None) /\
   (exists t h, In t trades /\ isLoss t = true /\
                Trade.holdMins t = Some h /\ (0 < h)%Q)) /\
  (forall p, Summary.paperhands s = Fin p ->
     exists w l,
       mean (map Trade.holdMins (List.filter isWin trades)) = Fin w /\
       mean (map Trade.holdMins (List.filter isLoss trades)) = Fin l /\
       (0 < l)%Q /\ (p == w / l)%Q /\ (0 <= p)%Q).
Proof.
  intros Hnn s. unfold s, summarizeClosedTrades. cbn [Summary.paperhands].
  set (W := map Trade.holdMins (List.filter isWin trades)).
  set (L := map Trade.holdMins (List.filter isLoss trades)).
  pose proof (finiteValues_nonneg _ (Forall_filter_hold isWin trades Hnn)) as HW.
  pose proof (finiteValues_nonneg _ (Forall_filter_hold isLoss trades Hnn)) as HL.
  fold W in HW. fold L in HL.
  destruct (mean_spec W) as [W1 W2]. destruct (mean_spec L) as [L1 L2].
  assert (HWne : finiteValues W <> [] <->
                 exists t, In t trades /\ isWin t = true /\ Trade.holdMins t <> None)
    by apply finiteValues_nonempty.
  assert (HLpos : (exists x, In x (finiteValues L) /\ (0 < x)%Q) <->
                  exists t h, In t trades /\ isLoss t = true /\
                              Trade.holdMins t = Some h /\ (0 < h)%Q).
  { split.
    - intros (x & Hx & Hx0). apply finiteValues_In in Hx.
      destruct Hx as (t & H1 & H2 & H3). exists t, x. auto.
    - intros (t & h & H1 & H2 & H3 & H4). exists h. split; [|exact H4].
      apply finiteValues_In. eauto. }
  destruct (finiteValues W) as [|w0 W'] eqn:EW.
  - (* no winner with a hold duration *)
    assert (E : mean W = NaN) by now apply W1. rewrite E. cbn [Number_isFinite andb].
    split; [|discriminate]. split; [discriminate|].
    intros [H _]. apply HWne in H. congruence.
  - destruct W2 as (w & Ew & Hw & Hwb); [discriminate|]. rewrite Ew.
    destruct (finiteValues L) as [|l0 L'] eqn:EL.
    + assert (E : mean L = NaN) by now apply L1. rewrite E.
      cbn [Number_isFinite andb]. split; [|discriminate]. split; [discriminate|].
      intros [_ H]. apply HLpos in H. destruct H as (x & [] & _).
    + destruct L2 as (l & El & Hl & Hlb); [discriminate|]. rewrite El.
      cbn [Number_isFinite andb].
      assert (Hn : (0 < inject_Z (Z.of_nat (length (l0 :: L'))))%Q)
        by (apply inject_Z_nat_pos; cbn; lia).
      assert (Hw0 : (0 <= w)%Q).
      { destruct (mean_nonneg _ (Forall_filter_hold isWin trades Hnn))
          as [E | (m & E & Hm)]; fold W in E; rewrite Ew in E;
          [discriminate|]. now inversion E; subst. }
      assert (Hlpos : (0 < l)%Q <-> exists x, In x (l0 :: L') /\ (0 < x)%Q).
      { rewrite <- sum_pos_iff by exact HL. rewrite Hl. split; intros H.
        - apply (Qmult_lt_r _ _ (/ inject_Z (Z.of_nat (length (l0 :: L'))))).
          + now apply Qinv_lt_0_compat.
          + rewrite Qmult_0_l. exact H.
        - apply Qlt_shift_div_l; [exact Hn|]. now rewrite Qmult_0_l. }
      split.
      * destruct (js_gt (Fin l) zero) eqn:Eg.
        -- apply js_gt_zero_Fin in Eg. cbn [js_div].
           assert (Hnz : Qeq_bool l 0 = false).
           { apply not_true_iff_false. intros E. apply Qeq_bool_iff in E. lra. }
           rewrite Hnz. split; [|reflexivity]. intros _. split.
           ++ apply HWne. discriminate.
           ++ apply HLpos, Hlpos, Eg.
        -- apply js_gt_zero_Fin_false in Eg. split; [discriminate|].
           intros [_ H]. apply HLpos, Hlpos in H. lra.
      * intros p Hp. destruct (js_gt (Fin l) zero) eqn:Eg; [|discriminate].
        apply js_gt_zero_Fin in Eg. cbn [js_div] in Hp.
        assert (Hnz : Qeq_bool l 0 = false).
        { apply not_true_iff_false. intros E. apply Qeq_bool_iff in E. lra. }
        rewrite Hnz in Hp. inversion Hp; subst.
        exists w, l. repeat split; auto.
        -- apply Qred_correct.
        -- rewrite Qred_correct. apply Qle_shift_div_l; [exact Eg|lra].
Qed.

Lemma paperhands_needs_winners_and_losers_witness :
  Forall holdNonneg (buildClosedTradesFromFills c8_fills) /\
  Number_isFinite
    (Summary.paperhands
       (summarizeClosedTrades log2Approx (buildClosedTradesFromFills c8_fills))) = true.
Proof.
  split; [apply buildClosedTrades_holdNonneg|].
  apply (proj1 (paperhands_needs_winners_and_losers log2Approx
                  (buildClosedTradesFromFills c8_fills)
                  (buildClosedTrades_holdNonneg c8_fills))).
  split.
  - eexists. split; [left; reflexivity|].
    split; [reflexivity|discriminate].
  - eexists _, _. split; [right; left; reflexivity|].
    split; [reflexivity|]. split; reflexivity.
Defined.

(** ** The potential percentage *)

Lemma hindsightOf_pct ss la realism (t : Trade.t) :
  let h := hindsightOf ss la realism t in
  (Hind.bestExit h = None /\ Hind.potentialPct h = None /\ Hind.potentialPnl h = None) \/
  exists b,
    Hind.bestExit h = Some b /\
    Hind.potentialPct h =
      match Trade.entryPrice t, b with
      | Some entry, Fin be =>
          let raw := js_mul (js_div (js_sub (Fin be) (Fin entry)) (Fin entry)) (nz 100) in
          Some (match Trade.direction t with SHORT => js_neg raw | _ => raw end)
      | _, _ => None
      end /\
    Hind.potentialPnl h =
      match Trade.entryPrice t, b, Trade.qty t with
      | Some entry, Fin be, Some qty =>
          Some (match Trade.direction t with
                | SHORT => js_mul (js_sub (Fin entry) (Fin be)) (Fin qty)
                | _ => js_mul (js_sub (Fin be) (Fin entry)) (Fin qty)
                end)
      | _, _, _ => None
      end.
Proof.
  cbn zeta. unfold hindsightOf.
  destruct (ss !! normalizeToBinanceSymbol (Trade.symbol t)) as [series|];
    [|left; repeat split].
  destruct (bestPriceInWindow series _ _ _) as [[| |raw|]|];
    try (left; now repeat split).
  right. eexists. repeat split.
Qed.

Lemma raw_pct_sign (be entry : Q) :
  (0 < entry)%Q ->
  exists r,
    js_mul (js_div (js_sub (Fin be) (Fin entry)) (Fin entry)) (nz 100) = Fin r /\
    ((entry <= be)%Q -> (0 <= r)%Q) /\ ((be <= entry)%Q -> (r <= 0)%Q) /\
    ((0 < r)%Q -> (entry < be)%Q) /\ ((r < 0)%Q -> (be < entry)%Q).
Proof.
  intros Hpos.
  assert (Ez : Qeq_bool entry 0 = false).
  { apply not_true_iff_false. intros E. apply Qeq_bool_iff in E. lra. }
  cbn [js_sub js_div]. rewrite Ez. unfold nz. cbn [js_mul].
  eexists. split; [reflexivity|]. rewrite !Qred_correct.
  change (inject_Z 100) with 100%Q.
  assert (E : (be - entry == (be - entry) / entry * entry)%Q) by (field; lra).
  set (q := ((be - entry) / entry)%Q) in *.
  repeat split; intros H; nra.
Qed.

Lemma sign_tests (r : Q) :
  (js_le zero (Fin r) = true <-> (0 <= r)%Q) /\
  (js_le (Fin r) zero = true <-> (r <= 0)%Q) /\
  (js_lt zero (Fin r) = true <-> (0 < r)%Q) /\
  (js_lt (Fin r) zero = true <-> (r < 0)%Q).
Proof.
  unfold zero, nz. cbn [js_le js_lt]. change (inject_Z 0) with 0%Q.
  repeat split; intros H;
    first [apply Qle_bool_true in H | apply Qltb_true in H
          | apply Qle_bool_true | apply Qltb_true]; exact H.
Qed.

(** The potential percentage is defined exactly when the best exit is a
    finite number and the trade has an entry price.  It is the program's
    [((bestExit - entry) / entry) * 100], negated for a SHORT.  For a
    positive entry price its sign follows the move from entry to best
    exit in the trade's direction: never negative when the move is
    favourable, never positive when it is adverse, and positive only for
    a favourable move.  For a zero entry price it is not a finite
    number. *)
Theorem potential_pct_is_relative_to_entry
    (ss : gmap string (list Candle.candle)) (la : Z) (realism : num) (t : Trade.t) :
  let h := hindsightOf ss la realism t in
  (Hind.potentialPct h <> None <->
   (exists be, Hind.bestExit h = Some (Fin be)) /\ Trade.entryPrice t <> None) /\
  (forall be entry,
     Hind.bestExit h = Some (Fin be) -> Trade.entryPrice t = Some entry ->
     let raw := js_mul (js_div (js_sub (Fin be) (Fin entry)) (Fin entry)) (nz 100) in
     let favourable := match Trade.direction t with
                       | SHORT => (be <= entry)%Q
                       | _ => (entry <= be)%Q
                       end in
     let adverse := match Trade.direction t with
                    | SHORT => (entry <= be)%Q
                    | _ => (be <= entry)%Q
                    end in
     exists x,
       Hind.potentialPct h = Some x /\
       x = match Trade.direction t with SHORT => js_neg raw | _ => raw end /\
       ((0 < entry)%Q ->
        (favourable -> js_le zero x = true) /\
        (adverse -> js_le x zero = true) /\
        (js_lt zero x = true -> ~ adverse) /\
        (js_lt x zero = true -> ~ favourable)) /\
       ((entry == 0)%Q -> Number_isFinite x = false)).
Proof.
  intros h.
  destruct (hindsightOf_pct ss la realism t) as [(H1 & H2 & H3)|(b & H1 & H2 & H3)];
    fold h in H1, H2, H3.
  - rewrite H1, H2. split.
    + split; [congruence|]. intros [[be Hbe] _]. discriminate.
    + intros be entry Hbe. discriminate.
  - rewrite H1, H2. clear H1 H2 H3. split.
    + destruct (Trade.entryPrice t) as [entry|];
        [|split; [congruence|intros [_ H]; congruence]].
      destruct b as [| |be|];
        try (split; [congruence|intros [[be Hbe] _]; discriminate]).
      split; [|discriminate]. intros _. split; [eauto|discriminate].
    + intros be entry Hbe He. inversion Hbe; subst b. rewrite He. cbv zeta.
      eexists. split; [reflexivity|]. split; [reflexivity|]. split.
      * intros Hpos.
        destruct (raw_pct_sign be entry Hpos) as (r & Er & R1 & R2 & R3 & R4).
        rewrite Er.
        destruct (sign_tests r) as (T1 & T2 & T3 & T4).
        destruct (sign_tests (Qred (- r))) as (N1 & N2 & N3 & N4).
        pose proof (Qred_correct (- r)) as Hn.
        destruct (Trade.direction t); cbn [js_neg];
          (split; [|split; [|split]]); intros H;
          first [apply T1 | apply T2 | apply N1 | apply N2
                | apply T3 in H | apply T4 in H | apply N3 in H | apply N4 in H];
          lra.
      * intros Hz.
        assert (Ez : Qeq_bool entry 0 = true) by now apply Qeq_bool_iff.
        cbn [js_sub js_div]. rewrite Ez.
        destruct (Qsgn (Qred (be - entry))); destruct (Trade.direction t);
          reflexivity.
Qed.

(** ** The fields of a hindsight row *)

Lemma hindsightOf_cases ss la realism (t : Trade.t) :
  let h := hindsightOf ss la realism t in
  h = noData t \/
  exists series raw,
    ss !! normalizeToBinanceSymbol (Trade.symbol t) = Some series /\
    bestPriceInWindow series (Trade.closeTime t) (Trade.closeTime t + la)
      (Trade.direction t) = Some (Fin raw) /\
    Hind.bestExit h = Some (dampen (Trade.exitPrice t) raw realism) /\
    Hind.realizedPnl h = Trade.pnl t /\
    Hind.potentialPnl h =
      match Trade.entryPrice t, dampen (Trade.exitPrice t) raw realism, Trade.qty t with
      | Some entry, Fin be, Some qty =>
          Some (match Trade.direction t with
                | SHORT => js_mul (js_sub (Fin entry) (Fin be)) (Fin qty)
                | _ => js_mul (js_sub (Fin be) (Fin entry)) (Fin qty)
                end)
      | _, _, _ => None
      end /\
    Hind.fumbled h =
      match Hind.potentialPnl h, Trade.pnl t with
      | Some (Fin pp), Some r => Some (Math_max zero (js_sub (Fin pp) (Fin r)))
      | _, _ => None
      end.
Proof.
  cbn zeta. unfold hindsightOf.
  destruct (ss !! normalizeToBinanceSymbol (Trade.symbol t)) as [series|] eqn:Es;
    [|now left].
  destruct (bestPriceInWindow series _ _ _) as [[| |raw|]|] eqn:Eb; try (now left).
  right. exists series, raw. repeat split; reflexivity || assumption.
Qed.

(** A row without data: no series for the symbol, or no finite best
    price in the window.  All hindsight fields are then null and the
    realised pnl is the trade's own. *)
Theorem row_without_best_exit_is_empty
    (ss : gmap string (list Candle.candle)) (la : Z) (realism : num) (t : Trade.t) :
  let h := hindsightOf ss la realism t in
  Hind.trade h = t /\
  Hind.realizedPnl h = Trade.pnl t /\
  (ss !! normalizeToBinanceSymbol (Trade.symbol t) = None -> h = noData t) /\
  (Hind.bestExit h = None ->
   Hind.potentialPnl h = None /\ Hind.potentialPct h = None /\ Hind.fumbled h = None) /\
  (Hind.potentialPnl h = None -> Hind.fumbled h = None).
Proof.
  intros h. split; [apply hindsightOf_trade|].
  destruct (hindsightOf_cases ss la realism t) as [E | (series & raw & Hs & Hb & H1 & H2 & H3 & H4)];
    fold h in E || fold h in H1, H2, H3, H4.
  - rewrite E. cbn. repeat split; auto.
  - split; [exact H2|]. split; [intros Hn; congruence|]. split.
    + intros Hn. congruence.
    + intros Hn. rewrite H4, Hn. reflexivity.
Qed.



(** ** A longer lookahead *)

Lemma inWindow_widen lo hi hi' c :
  hi <= hi' -> inWindow lo hi c = true -> inWindow lo hi' c = true.
Proof.
  unfold inWindow. rewrite !andb_true_iff, !Z.leb_le. lia.
Qed.

(** On a time-ordered series with finite highs and lows in the longer
    window, lengthening the lookahead keeps a best price defined and can
    only improve it: the best LONG exit does not get lower, the best
    SHORT exit does not get higher. *)
Theorem longer_lookahead_never_worsens_best
    (series : list Candle.candle) (startMs endMs endMs' : Z) (d : Direction) (m : num) :
  StronglySorted (keyLe Candle.t) series ->
  Forall candleFinite (List.filter (inWindow startMs endMs') series) ->
  endMs <= endMs' ->
  bestPriceInWindow series startMs endMs d = Some m ->
  exists m',
    bestPriceInWindow series startMs endMs' d = Some m' /\
    match d with
    | SHORT => js_le m' m = true
    | _ => js_le m m' = true
    end.
Proof.
  intros Hs Hf Hle Hm.
  set (w := List.filter (inWindow startMs endMs) series).
  set (w' := List.filter (inWindow startMs endMs') series) in *.
  assert (Hsub : forall c, In c w -> In c w').
  { intros c Hc. apply filter_In in Hc. destruct Hc as [Hc1 Hc2].
    apply filter_In. split; [exact Hc1|]. now apply (inWindow_widen _ endMs). }
  assert (Hfw : Forall candleFinite w).
  { apply List.Forall_forall. intros c Hc. rewrite List.Forall_forall in Hf.
    now apply Hf, Hsub. }
  assert (Hne : w <> []).
  { intros E. rewrite (bestPriceInWindow_fold _ _ _ _ Hs) in Hm. fold w in Hm.
    rewrite E in Hm. discriminate. }
  assert (Hne' : w' <> []).
  { destruct w as [|c w0]; [congruence|]. intros E.
    specialize (Hsub c (or_introl eq_refl)). rewrite E in Hsub. destruct Hsub. }
  destruct (window_extremum series startMs endMs d Hs Hfw Hne) as (m0 & E0 & _ & H0).
  destruct (window_extremum series startMs endMs' d Hs Hf Hne') as (m' & E' & _ & H').
  rewrite E0 in Hm. inversion Hm; subst m0. exists m'. split; [exact E'|].
  fold w in H0. fold w' in H'.
  assert (Hmap : forall (g : Candle.candle -> num) x, In x (map g w) -> In x (map g w')).
  { intros g x Hx. apply in_map_iff in Hx. destruct Hx as (c & <- & Hc).
    apply in_map, Hsub, Hc. }
  destruct d; destruct H0 as [Hin _]; destruct H' as [_ Hall];
    rewrite List.Forall_forall in Hall; apply Hall; now apply Hmap.
Qed.

Lemma longer_lookahead_never_worsens_best_witness :
  StronglySorted (keyLe Candle.t) c3_long_series /\
  300000 <= 3601000 /\
  bestPriceInWindow c3_long_series 1000 300000 LONG = Some (nz 110) /\
  exists m',
    bestPriceInWindow c3_long_series 1000 3601000 LONG = Some m' /\
    js_le (nz 110) m' = true.
Proof.
  assert (Hs : StronglySorted (keyLe Candle.t) c3_long_series).
  { repeat constructor; unfold keyLe; cbn; lia. }
  assert (Hf : Forall candleFinite
                 (List.filter (inWindow 1000 3601000) c3_long_series)).
  { repeat constructor. }
  assert (Hle : 300000 <= 3601000) by lia.
  assert (Hm : bestPriceInWindow c3_long_series 1000 300000 LONG = Some (nz 110))
    by reflexivity.
  split; [exact Hs|]. split; [exact Hle|]. split; [exact Hm|].
  exact (longer_lookahead_never_worsens_best c3_long_series 1000 300000 3601000
           LONG (nz 110) Hs Hf Hle Hm).
Defined.

(** ** The realised total of the hindsight summary *)




(** ** The hindsight summary *)

Lemma sortDescBy_head {A : Type} (key : A -> Q) (l : list A) :
  match hd_error (sortDescBy key l) with
  | None => l = []
  | Some w => In w l /\ Forall (fun x => (key x <= key w)%Q) l
  end.
Proof.
  induction l as [|x l IH]; [reflexivity|].
  cbn [sortDescBy fold_right]. fold (sortDescBy key l).
  destruct (sortDescBy key l) as [|y s] eqn:Es; cbn [hd_error insertDescBy] in *.
  - subst l. split; [now left|]. constructor; [apply Qle_refl|constructor].
  - destruct IH as [Hin Hall].
    destruct (Qle_bool (key y) (key x)) eqn:E; cbn [hd_error].
    + apply Qle_bool_true in E. split; [now left|].
      constructor; [apply Qle_refl|].
      eapply List.Forall_impl; [|exact Hall]. cbn. intros a Ha. lra.
    + apply Qle_bool_false in E. split; [now right|].
      constructor; [lra|exact Hall].
Qed.

(** The summary is null without hindsight data.  Otherwise its worst
    row is null exactly when no row has a finite fumbled amount, and
    else it is one of the rows and no row has a larger fumbled amount. *)
Theorem worst_row_has_the_largest_fumble (rows : list Hind.t) :
  hindsightSummary None = None /\
  exists s,
    hindsightSummary (Some rows) = Some s /\
    (HSummary.worst s = None <->
     Forall (fun x => hasFiniteFumbled x = false) rows) /\
    (forall w, HSummary.worst s = Some w ->
       In w rows /\ hasFiniteFumbled w = true /\
       forall x, In x rows -> hasFiniteFumbled x = true ->
                 (fumbledOf x <= fumbledOf w)%Q).
Proof.
  split; [reflexivity|]. eexists. split; [reflexivity|]. cbn [HSummary.worst].
  pose proof (sortDescBy_head fumbledOf (List.filter hasFiniteFumbled rows)) as H.
  destruct (hd_error (sortDescBy fumbledOf (List.filter hasFiniteFumbled rows))) as [w|].
  - destruct H as [Hin Hall]. apply filter_In in Hin. destruct Hin as [Hin Hw].
    split.
    + split; [discriminate|]. intros Hnone. rewrite List.Forall_forall in Hnone.
      specialize (Hnone w Hin). congruence.
    + intros w' E. inversion E; subst w'. repeat split; auto.
      intros x Hx Hfx. rewrite List.Forall_forall in Hall. apply Hall.
      apply filter_In. auto.
  - split; [|intros w E; discriminate].
    split; [|reflexivity]. intros _. apply List.Forall_forall. intros x Hx.
    destruct (hasFiniteFumbled x) eqn:E; [|reflexivity].
    assert (Hin : In x (List.filter hasFiniteFumbled rows)) by (apply filter_In; auto).
    rewrite H in Hin. destruct Hin.
Qed.

Lemma hindsightOf_fumbled_nonneg ss la realism t :
  match Hind.fumbled (hindsightOf ss la realism t) with
  | None => True
  | Some x => exists v, x = Fin v /\ (0 <= v)%Q
  end.
Proof.
  destruct (hindsightOf_cases ss la realism t)
    as [E | (series & raw & _ & _ & _ & _ & _ & H4)].
  - cbn zeta in E. rewrite E. exact I.
  - cbn zeta in H4. rewrite H4.
    destruct (Hind.potentialPnl _) as [[| |pp|]|]; try exact I.
    destruct (Trade.pnl t) as [r|]; [|exact I].
    cbn [js_sub]. unfold Math_max, zero, nz. cbn [js_le].
    change (inject_Z 0) with 0%Q.
    destruct (Qle_bool 0 (Qred (pp - r))) eqn:E.
    + apply Qle_bool_true in E. eauto.
    + exists 0%Q. split; [reflexivity|apply Qle_refl].
Qed.

Lemma totalFumbled_from (rows : list Hind.t) (s0 : Q) :
  Forall (fun x => match Hind.fumbled x with
                   | None => True
                   | Some y => exists v, y = Fin v /\ (0 <= v)%Q
                   end) rows ->
  (0 <= s0)%Q ->
  exists f,
    fold_left (fun s x => js_add s (finiteOrZero (Hind.fumbled x))) rows (Fin s0) = Fin f /\
    (s0 <= f)%Q /\
    Forall (fun x => hasFiniteFumbled x = true -> (s0 + fumbledOf x <= f)%Q) rows.
Proof.
  intros H. revert s0. induction H as [|x rows Hx Hrows IH]; intros s0 H0; cbn [fold_left].
  - exists s0. repeat split; [apply Qle_refl|constructor].
  - assert (Hstep : exists v, finiteOrZero (Hind.fumbled x) = Fin v /\ (0 <= v)%Q /\
                              (hasFiniteFumbled x = true -> v = fumbledOf x)).
    { unfold finiteOrZero, hasFiniteFumbled, fumbledOf.
      destruct (Hind.fumbled x) as [y|].
      - destruct Hx as (v & -> & Hv). exists v. auto.
      - exists (inject_Z 0). split; [reflexivity|]. split; [discriminate|discriminate]. }
    destruct Hstep as (v & Ev & Hv & Hfv). rewrite Ev. cbn [js_add].
    destruct (IH (Qred (s0 + v))) as (f & Ef & Hf & Hall).
    { rewrite Qred_correct. lra. }
    rewrite Qred_correct in Hf.
    exists f. split; [exact Ef|]. split; [lra|].
    constructor.
    + intros Hfin. rewrite <- (Hfv Hfin). lra.
    + eapply List.Forall_impl; [|exact Hall]. cbn. intros a Ha Hfa.
      specialize (Ha Hfa). rewrite Qred_correct in Ha. lra.
Qed.

(** For the rows of a hindsight pass, the total fumbled is never
    negative and is at least the fumbled amount of any one row that has
    a finite one, the worst row included. *)
Theorem total_fumbled_dominates_every_row
    (ss : gmap string (list Candle.candle)) (la : Z) (realism : num)
    (trades : list Trade.t) :
  let rows := map (hindsightOf ss la realism) trades in
  exists s,
    hindsightSummary (Some rows) = Some s /\
    js_le zero (HSummary.totalFumbled s) = true /\
    (forall x, In x rows -> hasFiniteFumbled x = true ->
       js_le (Fin (fumbledOf x)) (HSummary.totalFumbled s) = true) /\
    (forall w, HSummary.worst s = Some w ->
       js_le (Fin (fumbledOf w)) (HSummary.totalFumbled s) = true).
Proof.
  intros rows.
  assert (Hrows : Forall (fun x => match Hind.fumbled x with
                                   | None => True
                                   | Some y => exists v, y = Fin v /\ (0 <= v)%Q
                                   end) rows).
  { unfold rows. apply List.Forall_forall. intros x Hx. apply in_map_iff in Hx.
    destruct Hx as (t & <- & _). apply hindsightOf_fumbled_nonneg. }
  destruct (totalFumbled_from rows 0%Q Hrows (Qle_refl 0)) as (f & Ef & Hf & Hall).
  eexists. split; [reflexivity|]. cbn [HSummary.totalFumbled HSummary.worst].
  change zero with (Fin 0). rewrite Ef. cbn [js_le].
  split; [now apply Qle_bool_true|].
  assert (Hany : forall x, In x rows -> hasFiniteFumbled x = true ->
                   Qle_bool (fumbledOf x) f = true).
  { intros x Hx Hfx. rewrite List.Forall_forall in Hall. specialize (Hall x Hx Hfx).
    apply Qle_bool_true. lra. }
  split; [exact Hany|].
  intros w Hw.
  pose proof (sortDescBy_head fumbledOf (List.filter hasFiniteFumbled rows)) as H.
  rewrite Hw in H. destruct H as [Hin _]. apply filter_In in Hin.
  destruct Hin as [Hin Hfw]. now apply Hany.
Qed.

(** ** Symbol normalisation *)

Lemma toUpperAscii_idem c : toUpperAscii (toUpperAscii c) = toUpperAscii c.
Proof. destruct c as [[] [] [] [] [] [] [] []]; reflexivity. Qed.

Lemma toUpperCase_idem s : toUpperCase (toUpperCase s) = toUpperCase s.
Proof.
  induction s as [|c r IH]; cbn [toUpperCase]; [reflexivity|].
  now rewrite toUpperAscii_idem, IH.
Qed.

Lemma toUpperCase_app s1 s2 :
  toUpperCase (s1 ++ s2) = (toUpperCase s1 ++ toUpperCase s2)%string.
Proof.
  induction s1 as [|c r IH]; simpl; [reflexivity|].
  now rewrite IH.
Qed.

Lemma removeChar_app x s1 s2 :
  removeChar x (s1 ++ s2) = (removeChar x s1 ++ removeChar x s2)%string.
Proof.
  induction s1 as [|c r IH]; simpl; [reflexivity|].
  destruct (Ascii.eqb c x); simpl; now rewrite IH.
Qed.

Lemma symbolChar_stripped s :
  allChars symbolChar (removeChar "/" (removeChar "-" (toUpperCase s))) = true.
Proof.
  induction s as [|c r IH]; cbn [toUpperCase removeChar allChars]; [reflexivity|].
  destruct (Ascii.eqb (toUpperAscii c) "-") eqn:E1; [exact IH|].
  cbn [removeChar].
  destruct (Ascii.eqb (toUpperAscii c) "/") eqn:E2; [exact IH|].
  cbn [allChars]. rewrite IH, andb_true_r.
  unfold symbolChar. rewrite E1, E2, toUpperAscii_idem. cbn.
  apply Ascii.eqb_refl.
Qed.

Lemma allChars_trimStart P s : allChars P s = true -> allChars P (trimStart s) = true.
Proof.
  induction s as [|c r IH]; cbn [trimStart allChars]; [auto|].
  intros H. apply andb_true_iff in H. destruct H as [Hc Hr].
  destruct (isSpace c); [now apply IH|]. cbn [allChars]. now rewrite Hc, Hr.
Qed.

Lemma allChars_trimEnd P s : allChars P s = true -> allChars P (trimEnd s) = true.
Proof.
  induction s as [|c r IH]; cbn [trimEnd allChars]; [auto|].
  intros H. apply andb_true_iff in H. destruct H as [Hc Hr].
  specialize (IH Hr). destruct (trimEnd r) as [|d r'].
  - destruct (isSpace c); cbn [allChars]; [reflexivity|now rewrite Hc].
  - cbn [allChars] in *. now rewrite Hc, IH.
Qed.

Lemma symbolChar_fixed s :
  allChars symbolChar s = true ->
  toUpperCase s = s /\ removeChar "-" s = s /\ removeChar "/" s = s.
Proof.
  induction s as [|c r IH]; cbn [allChars toUpperCase removeChar]; [auto|].
  intros H. apply andb_true_iff in H. destruct H as [Hc Hr].
  destruct (IH Hr) as (I1 & I2 & I3). rewrite I1, I2, I3.
  unfold symbolChar in Hc. rewrite !andb_true_iff, !negb_true_iff in Hc.
  destruct Hc as [[H1 H2] H3]. rewrite H1, H2.
  apply Ascii.eqb_eq in H3. now rewrite H3.
Qed.

Lemma trimStart_startsClean s : startsClean (trimStart s).
Proof.
  induction s as [|c r IH]; cbn [trimStart]; [exact I|].
  destruct (isSpace c) eqn:E; [exact IH|exact E].
Qed.

Lemma startsClean_trimStart s : startsClean s -> trimStart s = s.
Proof. destruct s as [|c r]; cbn; [auto|]. now intros ->. Qed.

Lemma startsClean_trimEnd s : startsClean s -> startsClean (trimEnd s).
Proof.
  destruct s as [|c r]; cbn [trimEnd startsClean]; [auto|]. intros H.
  destruct (trimEnd r); [rewrite H|]; exact H.
Qed.

Lemma trimEnd_idem s : trimEnd (trimEnd s) = trimEnd s.
Proof.
  induction s as [|c r IH]; cbn [trimEnd]; [reflexivity|].
  destruct (trimEnd r) as [|d r'] eqn:E.
  - destruct (isSpace c) eqn:Ec; cbn [trimEnd]; [reflexivity|now rewrite Ec].
  - cbn [trimEnd]. cbn [trimEnd] in IH. now rewrite IH.
Qed.

Lemma trim_idem s : trim (trim s) = trim s.
Proof.
  unfold trim.
  rewrite (startsClean_trimStart (trimEnd (trimStart s))).
  - apply trimEnd_idem.
  - apply startsClean_trimEnd, trimStart_startsClean.
Qed.

(** Normalising a symbol twice changes nothing more; the result holds
    no hyphen, no slash and no lower-case letter; and the result does not
    depend on the case of the input nor on hyphens or slashes inside it,
    so [BTC-USDT], [btc/usdt] and [BTCUSDT] name the same symbol. *)
Theorem symbol_normalisation_is_canonical (s : string) :
  normalizeToBinanceSymbol (normalizeToBinanceSymbol s) = normalizeToBinanceSymbol s /\
  allChars symbolChar (normalizeToBinanceSymbol s) = true /\
  normalizeToBinanceSymbol (toUpperCase s) = normalizeToBinanceSymbol s /\
  (forall s1 s2,
     normalizeToBinanceSymbol (s1 ++ "-" ++ s2) = normalizeToBinanceSymbol (s1 ++ s2) /\
     normalizeToBinanceSymbol (s1 ++ "/" ++ s2) = normalizeToBinanceSymbol (s1 ++ s2)).
Proof.
  assert (Hgood : forall u, allChars symbolChar (normalizeToBinanceSymbol u) = true).
  { intros u. unfold normalizeToBinanceSymbol, trim.
    apply allChars_trimEnd, allChars_trimStart, symbolChar_stripped. }
  split; [|split; [apply Hgood|split]].
  - destruct (symbolChar_fixed _ (Hgood s)) as (H1 & H2 & H3).
    unfold normalizeToBinanceSymbol at 1. rewrite H1, H2, H3.
    unfold normalizeToBinanceSymbol. apply trim_idem.
  - unfold normalizeToBinanceSymbol. now rewrite toUpperCase_idem.
  - intros s1 s2. unfold normalizeToBinanceSymbol.
    rewrite !toUpperCase_app, !removeChar_app. split; reflexivity.
Qed.

(** ** Grouping the trades by symbol *)

Lemma existsb_eqb_In s (l : list string) :
  existsb (String.eqb s) l = true <-> In s l.
Proof.
  rewrite existsb_exists. split.
  - intros (x & Hx & E). apply String.eqb_eq in E. now subst.
  - intros H. exists s. split; [exact H|apply String.eqb_refl].
Qed.

Lemma groupPush_keys sym t m :
  map fst (groupPush sym t m) =
  if existsb (String.eqb sym) (map fst m) then map fst m else map fst m ++ [sym].
Proof.
  induction m as [|[s ts] m IH]; cbn [groupPush map fst existsb]; [reflexivity|].
  rewrite (String.eqb_sym sym s).
  destruct (String.eqb s sym); cbn [map fst orb]; [reflexivity|].
  rewrite IH. now destruct (existsb (String.eqb sym) (map fst m)).
Qed.

Lemma groupPush_groups sym t m (P P' : string -> list Trade.t -> Prop) :
  List.NoDup (map fst m) ->
  Forall (fun g => P (fst g) (snd g)) m ->
  (forall s ts, P s ts -> s <> sym -> P' s ts) ->
  (forall ts, P sym ts -> P' sym (ts ++ [t])) ->
  (~ In sym (map fst m) -> P' sym [t]) ->
  Forall (fun g => P' (fst g) (snd g)) (groupPush sym t m).
Proof.
  intros Hnd Hall Hother Hsame Hnew.
  induction m as [|[s ts] m IH]; cbn [groupPush].
  - constructor; [apply Hnew; intros []|constructor].
  - cbn [map fst] in Hnd. apply List.NoDup_cons_iff in Hnd. destruct Hnd as [Hs Hnd].
    inversion Hall as [|? ? Hg Hrest]; subst. cbn [fst snd] in Hg.
    destruct (String.eqb_spec s sym) as [->|Hne].
    + constructor; [now apply Hsame|].
      apply List.Forall_forall. intros g Hin. rewrite List.Forall_forall in Hrest.
      apply Hother; [now apply Hrest|].
      intros E. apply Hs. rewrite <- E. now apply in_map.
    + constructor; [now apply Hother|].
      apply IH; [exact Hnd|exact Hrest|].
      intros Hnin. apply Hnew. cbn [map fst In]. intros [E|E]; [congruence|contradiction].
Qed.

Lemma filter_nonempty_In s (set : list string) :
  s <> ""%string ->
  (In s (List.filter (fun s => negb (String.eqb s "")) set) <-> In s set).
Proof.
  intros Hs. rewrite filter_In. split; [tauto|]. intros H. split; [exact H|].
  apply negb_true_iff. now apply String.eqb_neq.
Qed.

Lemma groupsAfter_step p m set t :
  groupsAfter p m set ->
  let sym := normalizeToBinanceSymbol (Trade.symbol t) in
  groupsAfter (p ++ [t])
    (if String.eqb sym "" then m else groupPush sym t m)
    (setAdd set sym).
Proof.
  intros (Hkeys & Hnd & Hgroups & Hmem) sym.
  assert (Hset : forall s, In s (setAdd set sym) <-> In s set \/ s = sym).
  { intros s. unfold setAdd. destruct (existsb (String.eqb sym) set) eqn:E.
    - apply existsb_eqb_In in E. split; [auto|]. intros [H| ->]; auto.
    - rewrite in_app_iff. cbn. intuition congruence. }
  assert (Hnd' : List.NoDup (setAdd set sym)).
  { unfold setAdd. destruct (existsb (String.eqb sym) set) eqn:E; [exact Hnd|].
    apply List.NoDup_app; [exact Hnd|repeat constructor; intros []|].
    intros s Hs [<-|[]]. apply existsb_eqb_In in Hs. congruence. }
  assert (Hmem' : forall t', In t' (p ++ [t]) ->
                    In (normalizeToBinanceSymbol (Trade.symbol t')) (setAdd set sym)).
  { intros t' Ht'. apply Hset. apply in_app_iff in Ht'.
    destruct Ht' as [Ht'|[<-|[]]]; [left; now apply Hmem|now right]. }
  assert (Hfilter : forall s, List.filter (symbolIs s) (p ++ [t]) =
                      List.filter (symbolIs s) p ++ (if String.eqb sym s then [t] else [])).
  { intros s. rewrite List.filter_app. cbn [List.filter]. unfold symbolIs at 2.
    fold sym. now destruct (String.eqb sym s). }
  destruct (String.eqb_spec sym "") as [Hempty|Hne].
  - (* the empty symbol is skipped *)
    repeat split; [|exact Hnd'| |exact Hmem'].
    + rewrite Hkeys. unfold setAdd.
      destruct (existsb (String.eqb sym) set); [reflexivity|].
      rewrite List.filter_app. cbn [List.filter]. rewrite Hempty. cbn.
      now rewrite app_nil_r.
    + eapply List.Forall_impl; [|exact Hgroups]. cbn.
      intros g (G1 & G2 & G3). repeat split; auto.
      rewrite Hfilter, <- G3.
      destruct (String.eqb_spec sym (fst g)); [congruence|now rewrite app_nil_r].
  - assert (Hin : existsb (String.eqb sym) (map fst m) = existsb (String.eqb sym) set).
    { apply eq_true_iff_eq. rewrite !existsb_eqb_In, Hkeys.
      now apply filter_nonempty_In. }
    repeat split; [| exact Hnd' | | exact Hmem'].
    + rewrite groupPush_keys, Hin, Hkeys. unfold setAdd.
      destruct (existsb (String.eqb sym) set); [reflexivity|].
      rewrite List.filter_app. cbn [List.filter].
      destruct (String.eqb_spec sym ""); [contradiction|reflexivity].
    + apply (groupPush_groups sym t m
               (fun s ts => s <> ""%string /\ ts <> [] /\ ts = List.filter (symbolIs s) p)
               (fun s ts => s <> ""%string /\ ts <> [] /\
                            ts = List.filter (symbolIs s) (p ++ [t]))).
      * rewrite Hkeys. now apply List.NoDup_filter.
      * exact Hgroups.
      * intros s ts (G1 & G2 & G3) Hs. repeat split; auto.
        rewrite Hfilter, <- G3.
        destruct (String.eqb_spec sym s); [congruence|now rewrite app_nil_r].
      * intros ts (G1 & G2 & G3). repeat split; auto.
        -- destruct ts; discriminate.
        -- rewrite Hfilter, <- G3. now rewrite String.eqb_refl.
      * intros Hnin. repeat split; [exact Hne|discriminate|].
        rewrite Hfilter, String.eqb_refl.
        assert (E : List.filter (symbolIs sym) p = []).
        { destruct (List.filter (symbolIs sym) p) as [|t' l] eqn:E; [reflexivity|].
          exfalso. assert (Ht' : In t' (List.filter (symbolIs sym) p))
            by (rewrite E; now left).
          apply filter_In in Ht'. destruct Ht' as [Ht' Hs]. unfold symbolIs in Hs.
          apply String.eqb_eq in Hs. apply Hnin. rewrite Hkeys.
          apply filter_nonempty_In; [exact Hne|]. rewrite <- Hs. now apply Hmem. }
        now rewrite E.
Qed.

Lemma groupsAfter_all (trades : list Trade.t) :
  groupsAfter trades (groupBySymbol trades)
    (fold_left (fun set t => setAdd set (normalizeToBinanceSymbol (Trade.symbol t)))
       trades []).
Proof.
  unfold groupBySymbol.
  induction trades as [|t p IH] using rev_ind.
  - cbn. repeat split; [constructor|constructor|intros t []].
  - rewrite !fold_left_app. cbn [fold_left]. now apply groupsAfter_step.
Qed.

(** [bySymbol] partitions the trades that have a symbol: its keys are
    the distinct non-empty normalised symbols in order of first
    appearance, the same list as [uniqueSymbols]; the group of a symbol
    holds exactly the trades of that symbol, in their original order, and
    is never empty; and every trade with a symbol is in the group of its
    symbol. *)
Theorem groups_partition_trades_by_symbol (trades : list Trade.t) :
  let groups := groupBySymbol trades in
  map fst groups = uniqueSymbols trades /\
  List.NoDup (map fst groups) /\
  Forall (fun g => fst g <> ""%string /\ snd g <> [] /\
                   snd g = List.filter (symbolIs (fst g)) trades) groups /\
  (forall t, In t trades ->
     normalizeToBinanceSymbol (Trade.symbol t) <> ""%string ->
     exists ts, In (normalizeToBinanceSymbol (Trade.symbol t), ts) groups /\ In t ts).
Proof.
  intros groups. destruct (groupsAfter_all trades) as (Hkeys & Hnd & Hgroups & Hmem).
  fold groups in Hkeys, Hgroups.
  split; [exact Hkeys|]. split; [rewrite Hkeys; now apply List.NoDup_filter|].
  split; [exact Hgroups|].
  intros t Ht Hne.
  set (sym := normalizeToBinanceSymbol (Trade.symbol t)) in *.
  assert (Hin : In sym (map fst groups)).
  { rewrite Hkeys. apply filter_nonempty_In; [exact Hne|]. now apply Hmem. }
  apply in_map_iff in Hin. destruct Hin as ([s ts] & Es & Hg). cbn [fst] in Es. subst s.
  exists ts. split; [exact Hg|].
  rewrite List.Forall_forall in Hgroups. destruct (Hgroups _ Hg) as (_ & _ & G3).
  cbn [fst snd] in G3. rewrite G3. apply filter_In. split; [exact Ht|].
  unfold symbolIs. fold sym. apply String.eqb_refl.
Qed.

(** ** Deduplication leaves ordered rows alone *)

Lemma sortByKey_sorted_id {A : Type} (key : A -> Z) (l : list A) :
  StronglySorted (keyLe key) l -> sortByKey key l = l.
Proof.
  induction 1 as [|x l Hs IH Hall]; [reflexivity|].
  unfold sortByKey in *. cbn [fold_right]. rewrite IH.
  now apply insertByKey_front.
Qed.

Lemma strict_keys_sorted {A : Type} (key : A -> Z) (l : list A) :
  StronglySorted Z.lt (map key l) -> StronglySorted (keyLe key) l.
Proof.
  induction l as [|c l IH]; cbn [map]; intros H; [constructor|].
  inversion H as [|? ? Hs Hall]; subst. constructor; [now apply IH|].
  rewrite List.Forall_forall in *. intros y Hy. unfold keyLe.
  assert (key c < key y) by (apply Hall; now apply in_map). lia.
Qed.

Lemma strict_keys_distinct (l : list Z) :
  StronglySorted Z.lt l -> List.NoDup l.
Proof.
  induction 1 as [|x l Hs IH Hall]; constructor; [|exact IH].
  intros Hx. rewrite List.Forall_forall in Hall. specialize (Hall _ Hx). lia.
Qed.

Lemma dedupLoop_fresh out : forall (seen : gset Z) (dedup : list Kline),
  (forall k, k ∈ seen -> ~ In k (map k0 out)) ->
  List.NoDup (map k0 out) ->
  dedupLoop out seen dedup = dedup ++ out.
Proof.
  induction out as [|x rest IH]; intros seen dedup Hseen Hnd; cbn [dedupLoop].
  - now rewrite app_nil_r.
  - cbn [map] in Hnd. apply List.NoDup_cons_iff in Hnd. destruct Hnd as [Hx Hnd].
    destruct (decide (k0 x ∈ seen)) as [Hin|Hnin].
    + exfalso. apply (Hseen _ Hin). now left.
    + rewrite IH; [now rewrite <- app_assoc| |exact Hnd].
      intros k Hk Hr. apply elem_of_union in Hk. destruct Hk as [Hk|Hk].
      * apply elem_of_singleton in Hk. now subst k.
      * apply (Hseen _ Hk). now right.
Qed.

(** Rows that already come with strictly ascending open times pass
    through the deduplication and the sort of [fetchAllKlines]
    unchanged, so applying the step twice changes nothing more. *)
Theorem dedup_keeps_ordered_rows (out : list Kline) :
  (StronglySorted Z.lt (map k0 out) -> dedupSort out = out) /\
  dedupSort (dedupSort out) = dedupSort out.
Proof.
  assert (Hid : forall l, StronglySorted Z.lt (map k0 l) -> dedupSort l = l).
  { intros l Hl. unfold dedupSort.
    rewrite (dedupLoop_fresh l ∅ []).
    - cbn [app]. now apply sortByKey_sorted_id, strict_keys_sorted.
    - intros k Hk. now apply not_elem_of_empty in Hk.
    - now apply strict_keys_distinct. }
  split; [apply Hid|]. apply Hid, dedupSort_spec.
Qed.

(** ** The requests [fetchAllKlines] makes *)

Lemma tryBases_requests net bases lastErr symbol interval s e log :
  exists new,
    snd (tryBases net bases lastErr symbol interval s e log) = log ++ new /\
    Forall (fun rq => exists base,
              In base bases /\ rq = mkRequest base symbol interval s e) new.
Proof.
  revert lastErr log. induction bases as [|base rest IH]; intros lastErr log;
    cbn [tryBases].
  - exists []. split; [now rewrite app_nil_r|constructor].
  - set (rq := mkRequest base symbol interval s e).
    assert (Hrec : forall le, exists new,
               snd (tryBases net rest le symbol interval s e (log ++ [rq])) = log ++ new /\
               Forall (fun rq => exists b,
                         In b (base :: rest) /\ rq = mkRequest b symbol interval s e) new).
    { intros le. destruct (IH le (log ++ [rq])) as (new & E & F).
      exists (rq :: new). split; [rewrite E, <- app_assoc; reflexivity|].
      constructor; [exists base; split; [now left|reflexivity]|].
      eapply List.Forall_impl; [|exact F].
      intros rq' (b & Hb & ->). exists b. split; [now right|reflexivity]. }
    destruct (net (length log) rq) as [err|ok status json]; [apply Hrec|].
    destruct ok; [|apply Hrec]. destruct json as [err|data]; [apply Hrec|].
    cbn [snd]. exists [rq]. split; [reflexivity|].
    constructor; [|constructor]. exists base. split; [now left|reflexivity].
Qed.

Lemma fetchLoop_requests net symbol interval endTime :
  forall fuel t out log,
  exists new,
    snd (fetchLoop net fuel symbol interval (intervalMsOf interval) endTime t out log)
      = log ++ new /\
    Forall (chunkRequest symbol interval endTime) new /\
    (respectsStart net -> Forall (fun rq => t <= rq_startTime rq) new) /\
    (endTime <= t -> new = []).
Proof.
  pose proof (intervalMsOf_pos interval) as Hi.
  induction fuel as [|fuel IH]; intros t out log; cbn [fetchLoop].
  - exists []. cbn [snd]. rewrite app_nil_r. repeat split; auto.
  - destruct (Z.ltb_spec t endTime) as [Ht|Ht].
    2:{ exists []. cbn [snd ret]. rewrite app_nil_r. repeat split; auto. }
    set (chunkEnd := Z.min endTime (t + intervalMsOf interval * 1000)).
    unfold bind, fetchKlinesAnyBase.
    destruct (tryBases_requests net BINANCE_BASES None symbol interval t chunkEnd log)
      as (new1 & E1 & F1).
    assert (F1' : Forall (fun rq => chunkRequest symbol interval endTime rq /\
                                    t <= rq_startTime rq) new1).
    { eapply List.Forall_impl; [|exact F1]. intros rq (b & Hb & ->).
      unfold chunkRequest, chunkEnd. cbn [rq_symbol rq_interval rq_base rq_startTime rq_endTime].
      repeat split; auto; lia. }
    assert (F1c : Forall (chunkRequest symbol interval endTime) new1)
      by (eapply List.Forall_impl; [|exact F1']; now intros rq [H _]).
    assert (F1s : Forall (fun rq => t <= rq_startTime rq) new1)
      by (eapply List.Forall_impl; [|exact F1']; now intros rq [_ H]).
    destruct (tryBases net BINANCE_BASES None symbol interval t chunkEnd log)
      as [[kl|e|] log1] eqn:E; cbn [snd] in E1; subst log1.
    + destruct (IH (nextCursor (intervalMsOf interval) chunkEnd kl) (out ++ kl)
                  (log ++ new1)) as (new2 & E2 & F2 & S2 & _).
      exists (new1 ++ new2). split; [now rewrite E2, app_assoc|].
      split; [now apply List.Forall_app|]. split; [|lia].
      intros Hnet. apply List.Forall_app. split; [exact F1s|].
      destruct (tryBases_Returned _ _ _ _ _ _ _ _ _ _ E) as (n & rq & status & Hrq & Hst).
      assert (Hlast : forall k, List.last (map Some kl) None = Some k -> t <= k0 k).
      { intros k Hk. rewrite <- Hst. exact (Hnet _ _ _ _ _ Hrq Hk). }
      destruct (nextCursor_advances (intervalMsOf interval) endTime t kl Hi Ht Hlast)
        as (Hadv & _).
      eapply List.Forall_impl; [|exact (S2 Hnet)]. cbn. intros rq' Hrq'.
      fold chunkEnd in Hadv. lia.
    + exists new1. cbn [snd]. repeat split; auto. lia.
    + exists new1. cbn [snd]. repeat split; auto. lia.
Qed.

Lemma fetchAllKlines_requests net fuel symbol interval startTime endTime log :
  exists new,
    snd (fetchAllKlines net fuel symbol interval startTime endTime log) = log ++ new /\
    Forall (chunkRequest symbol interval endTime) new /\
    (respectsStart net -> Forall (fun rq => startTime <= rq_startTime rq) new) /\
    (endTime <= startTime -> new = []).
Proof.
  destruct (fetchLoop_requests net symbol interval endTime fuel startTime [] log)
    as (new & E & H).
  exists new. split; [|exact H].
  unfold fetchAllKlines, bind.
  destruct (fetchLoop net fuel symbol interval (intervalMsOf interval) endTime
              startTime [] log) as [[out|e|] log1]; exact E.
Qed.

(** Whatever the price source answers, every request [fetchAllKlines]
    makes asks for the given symbol and interval from one of the two
    bases, for a non-empty time range that ends by [endTime] and spans at
    most 1000 intervals.  When the source respects the requested start,
    no request starts before [startTime].  For an empty range
    ([endTime <= startTime]) no request is made at all. *)
Theorem every_request_is_a_bounded_chunk
    (net : Network) (fuel : nat) (symbol interval : string)
    (startTime endTime : Z) (log : list Request) :
  exists new,
    snd (fetchAllKlines net fuel symbol interval startTime endTime log) = log ++ new /\
    Forall (chunkRequest symbol interval endTime) new /\
    (respectsStart net -> Forall (fun rq => startTime <= rq_startTime rq) new) /\
    (endTime <= startTime -> new = []).
Proof. exact (fetchAllKlines_requests net fuel symbol interval startTime endTime log). Qed.

(** ** The series a successful run stores *)

Lemma indexKlines_times kl : map Candle.t (indexKlines kl) = map k0 kl.
Proof. unfold indexKlines. rewrite map_map. reflexivity. Qed.

Lemma fetchSymbols_series net fuel interval lookaheadMs entries :
  forall ss0 log ss log',
    fetchSymbols net fuel interval lookaheadMs entries ss0 log = (Returned ss, log') ->
    (forall sym, In sym (map fst entries) ->
       exists series, ss !! sym = Some series /\
                      StronglySorted Z.lt (map Candle.t series)) /\
    (forall sym, ~ In sym (map fst entries) -> ss !! sym = ss0 !! sym).
Proof.
  induction entries as [|[sym trades] rest IH]; intros ss0 log ss log' H;
    cbn [fetchSymbols] in H.
  - unfold ret in H. inversion H; subst. split; [intros sym []|reflexivity].
  - apply bind_Returned in H. destruct H as (klines & log1 & Hk & H).
    unfold fetchAllKlines in Hk. apply bind_Returned in Hk.
    destruct Hk as (out & log0 & _ & Hk). unfold ret in Hk. inversion Hk; subst.
    destruct (IH _ _ _ _ H) as [Hin Hout]. cbn [map fst]. split.
    + intros s Hs.
      destruct (in_dec string_dec s (map fst rest)) as [Hr|Hr]; [now apply Hin|].
      destruct Hs as [<-|Hs]; [|contradiction].
      rewrite (Hout _ Hr), lookup_insert_eq. eexists. split; [reflexivity|].
      rewrite indexKlines_times. apply dedupSort_spec.
    + intros s Hs. rewrite Hout by (intros Hr; apply Hs; now right).
      apply lookup_insert_ne. intros ->. apply Hs. now left.
Qed.

(** When the hindsight run succeeds, its rows are computed against one
    table of series in which a trade without a symbol has no series (its
    row carries no hindsight data), and every trade with a symbol has
    the series fetched for that symbol, with strictly ascending open
    times.  The early exit of the window scan therefore never hides a
    candle: such a trade has no best price exactly when no candle of its
    series opens in [[closeTime, closeTime + lookahead]]. *)
Theorem successful_run_scans_ordered_series
    (net : Network) (fuel : nat) (s : App.t) (log : list Request)
    (computed : list Hind.t) (log' : list Request) :
  hindsightBody net fuel s log = (Returned computed, log') ->
  let lookaheadMs := App.lookaheadHours s * 3600000 in
  exists symbolSeries,
    computed = map (hindsightOf symbolSeries lookaheadMs (realismOf (App.realismPct s)))
                   (App.closedTrades s) /\
    forall t, In t (App.closedTrades s) ->
      let sym := normalizeToBinanceSymbol (Trade.symbol t) in
      if String.eqb sym "" then
        symbolSeries !! sym = None /\
        hindsightOf symbolSeries lookaheadMs (realismOf (App.realismPct s)) t = noData t
      else
        exists series,
          symbolSeries !! sym = Some series /\
          StronglySorted Z.lt (map Candle.t series) /\
          (bestPriceInWindow series (Trade.closeTime t)
             (Trade.closeTime t + lookaheadMs) (Trade.direction t) = None <->
           List.filter (inWindow (Trade.closeTime t) (Trade.closeTime t + lookaheadMs))
             series = []).
Proof.
  intros H lookaheadMs. unfold hindsightBody in H. apply bind_Returned in H.
  destruct H as (ss & log1 & Hf & H). unfold ret in H. inversion H; subst.
  exists ss. split; [reflexivity|]. intros t Ht sym.
  destruct (fetchSymbols_series _ _ _ _ _ _ _ _ _ Hf) as [Hin Hout].
  destruct (groupsAfter_all (App.closedTrades s)) as (Hkeys & _ & Hgroups & Hmem).
  destruct (String.eqb_spec sym "") as [E|Hne].
  - assert (Hnone : ss !! sym = None).
    { rewrite Hout; [apply lookup_empty|]. intros Hs.
      apply in_map_iff in Hs. destruct Hs as (g & Eg & Hg).
      rewrite List.Forall_forall in Hgroups. destruct (Hgroups _ Hg) as (G1 & _).
      congruence. }
    split; [exact Hnone|]. unfold hindsightOf. fold sym. now rewrite Hnone.
  - destruct (Hin sym) as (series & Hs & Hsorted).
    { rewrite Hkeys. apply filter_nonempty_In; [exact Hne|]. now apply Hmem. }
    exists series. split; [exact Hs|]. split; [exact Hsorted|].
    rewrite (bestPriceInWindow_fold _ _ _ _ (strict_keys_sorted Candle.t _ Hsorted)).
    destruct (List.filter _ series); split; congruence.
Qed.

Lemma successful_run_scans_ordered_series_witness :
  exists computed log',
    hindsightBody sampleNet 20 sampleApp [] = (Returned computed, log') /\
    exists symbolSeries,
      computed = map (hindsightOf symbolSeries (1 * 3600000) (realismOf (nz 80)))
                     [c3_trade] /\
      exists series,
        symbolSeries !! "BTCUSDT"%string = Some series /\
        StronglySorted Z.lt (map Candle.t series).
Proof.
  destruct (hindsightBody sampleNet 20 sampleApp []) as [[computed|e|] log'] eqn:E;
    [|vm_compute in E; discriminate..].
  exists computed, log'. split; [reflexivity|].
  destruct (successful_run_scans_ordered_series _ _ _ _ _ _ E) as (ss & Hc & Hrows).
  exists ss. split; [exact Hc|].
  destruct (Hrows c3_trade (or_introl eq_refl)) as (series & Hs & Hsorted & _).
  exists series. split; [exact Hs|exact Hsorted].
Defined.

(** ** The requests of a hindsight run *)

Lemma maxOf_attained (xs : list Z) : xs <> [] -> In (maxOf xs) xs.
Proof.
  destruct xs as [|x r]; [congruence|]. intros _. unfold maxOf.
  assert (H : forall r a, fold_left Z.max r a = a \/ In (fold_left Z.max r a) r).
  { clear. induction r as [|y r IH]; intros a; cbn [fold_left]; [now left|].
    destruct (IH (Z.max a y)) as [E|Hin]; [|right; now right].
    rewrite E. destruct (Z.max_spec a y) as [[_ ->]|[_ ->]]; [right; now left|now left]. }
  destruct (H r x) as [->|Hin]; [now left|now right].
Qed.

Lemma minOf_attained (xs : list Z) : xs <> [] -> In (minOf xs) xs.
Proof.
  destruct xs as [|x r]; [congruence|]. intros _. unfold minOf.
  assert (H : forall r a, fold_left Z.min r a = a \/ In (fold_left Z.min r a) r).
  { clear. induction r as [|y r IH]; intros a; cbn [fold_left]; [now left|].
    destruct (IH (Z.min a y)) as [E|Hin]; [|right; now right].
    rewrite E. destruct (Z.min_spec a y) as [[_ ->]|[_ ->]]; [now left|right; now left]. }
  destruct (H r x) as [->|Hin]; [now left|now right].
Qed.

Lemma fetchSymbols_requests net fuel interval lookaheadMs entries :
  forall ss log,
  exists new,
    snd (fetchSymbols net fuel interval lookaheadMs entries ss log) = log ++ new /\
    Forall (fun rq => exists sym trades,
              In (sym, trades) entries /\
              chunkRequest sym interval
                (maxOf (map Trade.closeTime trades) + lookaheadMs
                 + intervalMsOf interval * 2) rq /\
              (respectsStart net ->
               minOf (map Trade.closeTime trades) - intervalMsOf interval * 2
                 <= rq_startTime rq)) new.
Proof.
  induction entries as [|[sym trades] rest IH]; intros ss log; cbn [fetchSymbols].
  - exists []. cbn [snd ret]. rewrite app_nil_r. split; [reflexivity|constructor].
  - set (startTime := minOf (map Trade.closeTime trades) - intervalMsOf interval * 2).
    set (endTime := maxOf (map Trade.closeTime trades) + lookaheadMs
                    + intervalMsOf interval * 2).
    destruct (fetchAllKlines_requests net fuel sym interval startTime endTime log)
      as (new1 & E1 & F1 & S1 & _).
    assert (F1' : Forall (fun rq => exists sym' trades',
                            In (sym', trades') ((sym, trades) :: rest) /\
                            chunkRequest sym' interval
                              (maxOf (map Trade.closeTime trades') + lookaheadMs
                               + intervalMsOf interval * 2) rq /\
                            (respectsStart net ->
                             minOf (map Trade.closeTime trades')
                               - intervalMsOf interval * 2 <= rq_startTime rq)) new1).
    { apply List.Forall_forall. intros rq Hrq. exists sym, trades.
      split; [now left|]. rewrite List.Forall_forall in F1. split; [now apply F1|].
      intros Hnet. specialize (S1 Hnet). rewrite List.Forall_forall in S1.
      now apply S1. }
    unfold bind.
    destruct (fetchAllKlines net fuel sym interval startTime endTime log)
      as [[klines|e|] log1]; cbn [snd] in E1; subst log1.
    + destruct (IH (<[sym := indexKlines klines]> ss) (log ++ new1)) as (new2 & E2 & F2).
      exists (new1 ++ new2). split; [now rewrite E2, app_assoc|].
      apply List.Forall_app. split; [exact F1'|].
      eapply List.Forall_impl; [|exact F2].
      intros rq (sym' & trades' & Hin & H). exists sym', trades'. split; [now right|exact H].
    + exists new1. split; [reflexivity|exact F1'].
    + exists new1. split; [reflexivity|exact F1'].
Qed.

(** A hindsight run requests only what its trades need, whatever the
    price source answers: every request is for the chosen interval, to
    one of the two bases, for the normalised (non-empty) symbol of one of
    the closed trades, over a non-empty range of at most 1000 intervals
    that ends no later than two intervals after the lookahead window of
    some trade of that symbol.  When the source respects the requested
    start, no request starts more than two intervals before the close of
    the earliest trade of its symbol.  With no closed trades no request
    is made and the state is left as it is. *)
Theorem run_requests_follow_the_trades
    (net : Network) (fuel : nat) (s : App.t) (log : list Request) :
  let intervalMs := intervalMsOf (App.interval s) in
  let lookaheadMs := App.lookaheadHours s * 3600000 in
  (exists new,
     snd (runHindsight net fuel s log) = log ++ new /\
     Forall (fun rq =>
       rq_interval rq = App.interval s /\
       In (rq_base rq) BINANCE_BASES /\
       rq_symbol rq <> ""%string /\
       rq_startTime rq < rq_endTime rq /\
       rq_endTime rq - rq_startTime rq <= intervalMs * 1000 /\
       (exists t, In t (App.closedTrades s) /\
                  normalizeToBinanceSymbol (Trade.symbol t) = rq_symbol rq /\
                  rq_endTime rq <= Trade.closeTime t + lookaheadMs + intervalMs * 2) /\
       (respectsStart net ->
        exists t, In t (App.closedTrades s) /\
                  normalizeToBinanceSymbol (Trade.symbol t) = rq_symbol rq /\
                  Trade.closeTime t - intervalMs * 2 <= rq_startTime rq)) new) /\
  (App.closedTrades s = [] -> runHindsight net fuel s log = (Some s, log)).
Proof.
  intros intervalMs lookaheadMs. split.
  2:{ intros E. unfold runHindsight. now rewrite E. }
  assert (Hbody : exists new,
            snd (hindsightBody net fuel s log) = log ++ new /\
            Forall (fun rq => exists sym trades,
                      In (sym, trades) (groupBySymbol (App.closedTrades s)) /\
                      chunkRequest sym (App.interval s)
                        (maxOf (map Trade.closeTime trades) + lookaheadMs
                         + intervalMs * 2) rq /\
                      (respectsStart net ->
                       minOf (map Trade.closeTime trades) - intervalMs * 2
                         <= rq_startTime rq)) new).
  { destruct (fetchSymbols_requests net fuel (App.interval s) lookaheadMs
                (groupBySymbol (App.closedTrades s)) ∅ log) as (new & E & F).
    exists new. split; [|exact F]. unfold hindsightBody, bind. fold lookaheadMs.
    destruct (fetchSymbols net fuel (App.interval s) lookaheadMs
                (groupBySymbol (App.closedTrades s)) ∅ log) as [[ss|e|] log1]; exact E. }
  destruct Hbody as (new & E & F).
  assert (Hall : Forall (fun rq =>
       rq_interval rq = App.interval s /\
       In (rq_base rq) BINANCE_BASES /\
       rq_symbol rq <> ""%string /\
       rq_startTime rq < rq_endTime rq /\
       rq_endTime rq - rq_startTime rq <= intervalMs * 1000 /\
       (exists t, In t (App.closedTrades s) /\
                  normalizeToBinanceSymbol (Trade.symbol t) = rq_symbol rq /\
                  rq_endTime rq <= Trade.closeTime t + lookaheadMs + intervalMs * 2) /\
       (respectsStart net ->
        exists t, In t (App.closedTrades s) /\
                  normalizeToBinanceSymbol (Trade.symbol t) = rq_symbol rq /\
                  Trade.closeTime t - intervalMs * 2 <= rq_startTime rq)) new).
  { eapply List.Forall_impl; [|exact F].
    intros rq (sym & trades & Hin & (C1 & C2 & C3 & C4 & C5) & Hstart).
    destruct (groupsAfter_all (App.closedTrades s)) as (_ & _ & Hgroups & _).
    rewrite List.Forall_forall in Hgroups.
    destruct (Hgroups _ Hin) as (G1 & G2 & G3). cbn [fst snd] in G1, G2, G3.
    assert (Hmem : forall c, In c (map Trade.closeTime trades) ->
              exists t, In t (App.closedTrades s) /\
                        normalizeToBinanceSymbol (Trade.symbol t) = rq_symbol rq /\
                        Trade.closeTime t = c).
    { intros c Hc. apply in_map_iff in Hc. destruct Hc as (t & Et & Ht).
      rewrite G3 in Ht. apply List.filter_In in Ht. destruct Ht as [Ht Hs].
      unfold symbolIs in Hs. apply String.eqb_eq in Hs.
      exists t. repeat split; [exact Ht|congruence|exact Et]. }
    assert (Hne : map Trade.closeTime trades <> []) by (destruct trades; [congruence|discriminate]).
    split; [exact C2|]. split; [exact C3|]. split; [congruence|].
    split; [lia|]. split; [exact C5|]. split.
    - destruct (Hmem _ (maxOf_attained _ Hne)) as (t & Ht & Hs & Ec).
      exists t. split; [exact Ht|]. split; [exact Hs|]. lia.
    - intros Hnet. specialize (Hstart Hnet).
      destruct (Hmem _ (minOf_attained _ Hne)) as (t & Ht & Hs & Ec).
      exists t. split; [exact Ht|]. split; [exact Hs|]. lia. }
  unfold runHindsight.
  destruct (Nat.eqb (length (App.closedTrades s)) 0).
  - exists []. cbn [snd]. rewrite app_nil_r. split; [reflexivity|constructor].
  - exists new. split; [|exact Hall].
    destruct (hindsightBody net fuel s log) as [[c|e|] log1]; exact E.
Qed.

(** ** Clamping *)

Lemma js_le_notNaN_r x y : js_le x y = true -> notNaN y.
Proof. destruct x, y; cbn; intros H E; discriminate. Qed.

(** For bounds [a <= b] and a number [n], [clamp n a b] lies between
    the bounds and is one of [n], [a] and [b]; it has the value of [n]
    whenever [n] itself lies between the bounds. *)
Theorem clamp_stays_within_bounds (n a b : num) :
  js_le a b = true -> notNaN n ->
  js_le a (clamp n a b) = true /\
  js_le (clamp n a b) b = true /\
  (clamp n a b = n \/ clamp n a b = a \/ clamp n a b = b) /\
  (js_le a n = true -> js_le n b = true ->
   js_le n (clamp n a b) = true /\ js_le (clamp n a b) n = true).
Proof.
  intros Hab Hn. unfold clamp.
  pose proof (js_le_notNaN_l _ _ Hab) as Ha.
  pose proof (js_le_notNaN_r _ _ Hab) as Hb.
  destruct (Math_min_spec b n Hb Hn) as (Hsel & Hmb & Hmn).
  set (m := Math_min b n) in *.
  assert (Hm : notNaN m) by (destruct Hsel as [-> | ->]; assumption).
  destruct (Math_max_spec a m Ha Hm) as (Hsel' & Har & Hmr).
  set (r := Math_max a m) in *.
  split; [exact Har|]. split; [|split].
  - destruct Hsel' as [-> | ->]; assumption.
  - destruct Hsel' as [-> | ->]; [auto|]. destruct Hsel as [-> | ->]; auto.
  - intros Han Hnb. split.
    + destruct Hsel as [E | E].
      * apply (js_le_trans _ m); [rewrite E; exact Hnb|exact Hmr].
      * rewrite <- E at 1. exact Hmr.
    + destruct Hsel' as [-> | ->]; assumption.
Qed.

Lemma clamp_stays_within_bounds_witness :
  js_le zero (nz 1) = true /\ notNaN (nz 2) /\
  js_le (clamp (nz 2) zero (nz 1)) (nz 1) = true.
Proof.
  assert (Hn : notNaN (nz 2)) by discriminate.
  split; [reflexivity|]. split; [exact Hn|].
  exact (proj1 (proj2 (clamp_stays_within_bounds (nz 2) zero (nz 1) eq_refl Hn))).
Defined.

(** ** Number cells *)

Lemma append_cons c (r s : string) : (String c r ++ s)%string = String c (r ++ s).
Proof. reflexivity. Qed.

Lemma append_nil (s : string) : ("" ++ s)%string = s.
Proof. reflexivity. Qed.

Lemma string_app_nil_r (s : string) : (s ++ "")%string = s.
Proof.
  induction s as [|c r IH]; [reflexivity|]. rewrite append_cons. now f_equal.
Qed.

Lemma allChars_app P s1 s2 :
  allChars P (s1 ++ s2) = allChars P s1 && allChars P s2.
Proof.
  induction s1 as [|c r IH]; [reflexivity|].
  rewrite append_cons. cbn [allChars]. now rewrite IH, andb_assoc.
Qed.

Lemma trimEnd_ink tok x :
  allChars inkChar tok = true -> trimEnd (tok ++ x) = (tok ++ trimEnd x)%string.
Proof.
  induction tok as [|c r IH]; [reflexivity|].
  rewrite !append_cons. cbn [allChars trimEnd].
  intros H. apply andb_true_iff in H. destruct H as [Hc Hr].
  rewrite (IH Hr). unfold inkChar in Hc. apply negb_true_iff in Hc. rewrite Hc.
  now destruct (r ++ trimEnd x)%string.
Qed.

Lemma trimStart_ink tok x :
  allChars inkChar tok = true -> tok <> ""%string ->
  trimStart (tok ++ x) = (tok ++ x)%string.
Proof.
  destruct tok as [|c r]; [congruence|].
  rewrite append_cons. cbn [allChars trimStart]. intros H _.
  apply andb_true_iff in H. destruct H as [Hc _].
  unfold inkChar in Hc. apply negb_true_iff in Hc. now rewrite Hc.
Qed.

Lemma trim_ink tok x :
  allChars inkChar tok = true -> tok <> ""%string ->
  trim (tok ++ x) = (tok ++ trimEnd x)%string.
Proof.
  intros H Hne. unfold trim. rewrite (trimStart_ink _ _ H Hne). now apply trimEnd_ink.
Qed.

Lemma splitOn_first sep tok r :
  allChars (fun c => negb (Ascii.eqb c sep)) tok = true ->
  splitOn sep (tok ++ String sep r) = tok :: splitOn sep r.
Proof.
  induction tok as [|c t IH].
  - intros _. rewrite append_nil. cbn [splitOn]. now rewrite Ascii.eqb_refl.
  - rewrite append_cons. cbn [allChars splitOn].
    intros H. apply andb_true_iff in H. destruct H as [Hc Ht].
    apply negb_true_iff in Hc. rewrite Hc, (IH Ht). reflexivity.
Qed.

Lemma splitOn_whole sep tok :
  allChars (fun c => negb (Ascii.eqb c sep)) tok = true ->
  splitOn sep tok = [tok].
Proof.
  induction tok as [|c t IH]; cbn [allChars splitOn]; [reflexivity|].
  intros H. apply andb_true_iff in H. destruct H as [Hc Ht].
  apply negb_true_iff in Hc. rewrite Hc, (IH Ht). reflexivity.
Qed.

Lemma allChars_weaken (P Q : ascii -> bool) s :
  (forall c, P c = true -> Q c = true) ->
  allChars P s = true -> allChars Q s = true.
Proof.
  intros HPQ. induction s as [|c r IH]; cbn [allChars]; [auto|].
  intros H. apply andb_true_iff in H. destruct H as [Hc Hr].
  now rewrite (HPQ _ Hc), (IH Hr).
Qed.

Lemma inkChar_not_space c : inkChar c = true -> negb (Ascii.eqb c " ") = true.
Proof.
  unfold inkChar. destruct (Ascii.eqb_spec c " ") as [->|]; [discriminate|reflexivity].
Qed.

Lemma trimEnd_after_space unit :
  trimEnd (String " " unit) = ""%string \/
  exists r, trimEnd (String " " unit) = String " " r.
Proof.
  cbn [trimEnd]. destruct (trimEnd unit) as [|d r']; [now left|right; eauto].
Qed.

Lemma parseNumWithUnits_range Number v :
  parseNumWithUnits Number v = NaN \/ exists q, parseNumWithUnits Number v = Fin q.
Proof.
  destruct v as [v|]; [|now left]. cbn [parseNumWithUnits].
  destruct (_ || _); [now left|].
  destruct (Number _) as [| |q|]; cbn [Number_isFinite]; eauto.
Qed.

(** The head of a cell, up to its first space, decides its number.
    For a token without white space that is neither empty nor [--]:
    what follows the token after a space (a unit) is ignored, and the
    value is [Number] of the token without its commas, or NaN when that
    is not a finite number.  Surrounding white space is ignored; a
    missing, blank or [--] cell is NaN; and the result is never an
    infinity. *)
Theorem number_cells_ignore_units (Number : string -> num) :
  (forall v, parseNumWithUnits Number v = NaN \/
             exists q, parseNumWithUnits Number v = Fin q) /\
  parseNumWithUnits Number None = NaN /\
  (forall v, trim v = ""%string \/ trim v = "--"%string ->
             parseNumWithUnits Number (Some v) = NaN) /\
  (forall v, parseNumWithUnits Number (Some (trim v)) = parseNumWithUnits Number (Some v)) /\
  (forall tok unit : string,
     allChars inkChar tok = true -> tok <> ""%string -> tok <> "--"%string ->
     parseNumWithUnits Number (Some (tok ++ " " ++ unit)%string) =
       parseNumWithUnits Number (Some tok) /\
     parseNumWithUnits Number (Some tok) =
       (if Number_isFinite (Number (removeChar "," tok))
        then Number (removeChar "," tok) else NaN)).
Proof.
  split; [|split; [reflexivity|split; [|split]]].
  - apply parseNumWithUnits_range.
  - intros v [E|E]; cbn [parseNumWithUnits]; now rewrite E.
  - intros v. cbn [parseNumWithUnits]. now rewrite trim_idem.
  - intros tok unit Hink Hne Hdash.
    assert (Hsp : allChars (fun c => negb (Ascii.eqb c " ")) tok = true)
      by (eapply allChars_weaken; [apply inkChar_not_space|exact Hink]).
    assert (Htok : parseNumWithUnits Number (Some tok) =
                   (if Number_isFinite (Number (removeChar "," tok))
                    then Number (removeChar "," tok) else NaN)).
    { assert (Htrim : trim tok = tok).
      { rewrite <- (string_app_nil_r tok) at 1.
        rewrite (trim_ink _ _ Hink Hne). cbn [trimEnd]. apply string_app_nil_r. }
      cbn [parseNumWithUnits]. rewrite Htrim.
      destruct (String.eqb_spec tok "") as [|_]; [contradiction|].
      destruct (String.eqb_spec tok "--") as [|_]; [contradiction|].
      cbn [orb]. now rewrite (splitOn_whole _ _ Hsp). }
    split; [|exact Htok]. rewrite Htok. cbn [parseNumWithUnits].
    change (tok ++ " " ++ unit)%string with (tok ++ String " " unit)%string.
    rewrite (trim_ink _ _ Hink Hne).
    destruct (trimEnd_after_space unit) as [E|[r E]]; rewrite E.
    + rewrite string_app_nil_r.
      destruct (String.eqb_spec tok "") as [|_]; [contradiction|].
      destruct (String.eqb_spec tok "--") as [|_]; [contradiction|].
      cbn [orb]. now rewrite (splitOn_whole _ _ Hsp).
    + destruct (String.eqb_spec (tok ++ String " " r) "") as [E0|_].
      { destruct tok; [contradiction|discriminate]. }
      destruct (String.eqb_spec (tok ++ String " " r) "--") as [E1|_].
      { exfalso. assert (A : allChars inkChar (tok ++ String " " r) = true)
          by (rewrite E1; reflexivity).
        rewrite allChars_app in A. apply andb_true_iff in A. destruct A as [_ A].
        discriminate. }
      cbn [orb]. now rewrite (splitOn_first _ _ _ Hsp).
Qed.

(** ** Header cleaning *)

Lemma toUpperCase_mapChars s : toUpperCase s = mapChars toUpperAscii s.
Proof. induction s as [|c r IH]; cbn [toUpperCase mapChars]; now rewrite ?IH. Qed.

Lemma toLowerCase_mapChars s : toLowerCase s = mapChars toLowerAscii s.
Proof. induction s as [|c r IH]; cbn [toLowerCase mapChars]; now rewrite ?IH. Qed.

Lemma replaceChar_mapChars x y s :
  replaceChar x y s = mapChars (fun c => if Ascii.eqb c x then y else c) s.
Proof. induction s as [|c r IH]; cbn [replaceChar mapChars]; now rewrite ?IH. Qed.

Lemma mapChars_mapChars f g s : mapChars f (mapChars g s) = mapChars (fun c => f (g c)) s.
Proof. induction s as [|c r IH]; cbn [mapChars]; now rewrite ?IH. Qed.

Lemma mapChars_ext f g s : (forall c, f c = g c) -> mapChars f s = mapChars g s.
Proof. intros E. induction s as [|c r IH]; cbn [mapChars]; now rewrite ?IH, ?E. Qed.

Lemma mapChars_app f (s1 s2 : string) :
  mapChars f (s1 ++ s2) = (mapChars f s1 ++ mapChars f s2)%string.
Proof.
  induction s1 as [|c r IH]; [reflexivity|].
  rewrite append_cons. cbn [mapChars]. now rewrite IH, append_cons.
Qed.

Lemma trimStart_mapChars f s :
  (forall c, isSpace (f c) = isSpace c) ->
  trimStart (mapChars f s) = mapChars f (trimStart s).
Proof.
  intros E. induction s as [|c r IH]; cbn [mapChars trimStart]; [reflexivity|].
  rewrite E. now destruct (isSpace c).
Qed.

Lemma trimEnd_mapChars f s :
  (forall c, isSpace (f c) = isSpace c) ->
  trimEnd (mapChars f s) = mapChars f (trimEnd s).
Proof.
  intros E. induction s as [|c r IH]; cbn [mapChars trimEnd]; [reflexivity|].
  rewrite IH, E. destruct (trimEnd r); cbn [mapChars]; [|reflexivity].
  now destruct (isSpace c).
Qed.

Lemma trim_mapChars f s :
  (forall c, isSpace (f c) = isSpace c) ->
  trim (mapChars f s) = mapChars f (trim s).
Proof.
  intros E. unfold trim. now rewrite trimStart_mapChars, trimEnd_mapChars.
Qed.

Lemma cleanHeader_chars h : cleanHeader h = collapseSpaces (mapChars cleanChar (trim h)).
Proof.
  unfold cleanHeader.
  rewrite !replaceChar_mapChars, toLowerCase_mapChars, !mapChars_mapChars.
  reflexivity.
Qed.

Lemma cleanHeader_mapChars f h :
  (forall c, isSpace (f c) = isSpace c) ->
  (forall c, cleanChar (f c) = cleanChar c) ->
  cleanHeader (mapChars f h) = cleanHeader h.
Proof.
  intros Hs Hc. rewrite !cleanHeader_chars, (trim_mapChars _ _ Hs), mapChars_mapChars.
  f_equal. now apply mapChars_ext.
Qed.

Ltac each_char c := destruct c as [[] [] [] [] [] [] [] []]; reflexivity.

Lemma isSpace_upper c : isSpace (toUpperAscii c) = isSpace c.
Proof. each_char c. Qed.
Lemma isSpace_lower c : isSpace (toLowerAscii c) = isSpace c.
Proof. each_char c. Qed.
Lemma isSpace_underscore c :
  isSpace (if Ascii.eqb c "_" then "-"%char else c) = isSpace c.
Proof. each_char c. Qed.
Lemma isSpace_hyphen c :
  isSpace (if Ascii.eqb c "-" then "_"%char else c) = isSpace c.
Proof. each_char c. Qed.
Lemma cleanChar_upper c : cleanChar (toUpperAscii c) = cleanChar c.
Proof. each_char c. Qed.
Lemma cleanChar_lower c : cleanChar (toLowerAscii c) = cleanChar c.
Proof. each_char c. Qed.
Lemma cleanChar_underscore c :
  cleanChar (if Ascii.eqb c "_" then "-"%char else c) = cleanChar c.
Proof. each_char c. Qed.
Lemma cleanChar_hyphen c :
  cleanChar (if Ascii.eqb c "-" then "_"%char else c) = cleanChar c.
Proof. each_char c. Qed.
Lemma cleanChar_headerChar c : headerChar (cleanChar c) = true.
Proof. each_char c. Qed.
Lemma cleanChar_word c : wordChar c = true -> cleanChar c = toLowerAscii c.
Proof. destruct c as [[] [] [] [] [] [] [] []]; (reflexivity || discriminate). Qed.
Lemma cleanChar_word_ink c : wordChar c = true -> isSpace (cleanChar c) = false.
Proof. destruct c as [[] [] [] [] [] [] [] []]; (reflexivity || discriminate). Qed.
Lemma cleanChar_sep c : sepChar c = true -> isSpace (cleanChar c) = true.
Proof. destruct c as [[] [] [] [] [] [] [] []]; (reflexivity || discriminate). Qed.
Lemma wordChar_ink c : wordChar c = true -> inkChar c = true.
Proof. destruct c as [[] [] [] [] [] [] [] []]; (reflexivity || discriminate). Qed.

Lemma collapseSpaces_headerChar s :
  allChars headerChar s = true -> allChars headerChar (collapseSpaces s) = true.
Proof.
  induction s as [|c r IH]; cbn [collapseSpaces allChars]; [auto|].
  intros H. apply andb_true_iff in H. destruct H as [Hc Hr]. specialize (IH Hr).
  destruct (isSpace c).
  - destruct r as [|c' r']; [reflexivity|].
    destruct (isSpace c'); [exact IH|]. cbn [allChars]. now rewrite IH.
  - cbn [allChars]. now rewrite Hc, IH.
Qed.

Lemma collapseSpaces_head r : forall c,
  exists d r', collapseSpaces (String c r) = String d r' /\ isSpace d = isSpace c.
Proof.
  induction r as [|c' r' IH]; intros c; cbn [collapseSpaces].
  - destruct (isSpace c) eqn:Ec; eauto.
  - destruct (isSpace c) eqn:Ec; [|eauto].
    destruct (isSpace c') eqn:Ec'; [|eauto].
    destruct (IH c') as (d & r'' & E & Hd). cbn [collapseSpaces] in E.
    rewrite Ec' in E. exists d, r''. split; [exact E|congruence].
Qed.

Lemma collapseSpaces_singleSpaced s : singleSpaced (collapseSpaces s) = true.
Proof.
  induction s as [|c r IH]; cbn [collapseSpaces]; [reflexivity|].
  destruct (isSpace c) eqn:Ec.
  - destruct r as [|c' r']; [reflexivity|].
    destruct (isSpace c') eqn:Ec'; [exact IH|].
    destruct (collapseSpaces_head r' c') as (d & r'' & E & Hd).
    cbn [singleSpaced]. rewrite IH, E, Hd, Ec'. reflexivity.
  - cbn [singleSpaced]. now rewrite Ec, IH.
Qed.

Lemma allChars_mapChars P f s :
  (forall c, P (f c) = true) -> allChars P (mapChars f s) = true.
Proof.
  intros H. induction s as [|c r IH]; cbn [mapChars allChars]; [reflexivity|].
  now rewrite H, IH.
Qed.

Lemma collapseSpaces_ink s :
  allChars inkChar s = true -> collapseSpaces s = s.
Proof.
  induction s as [|c r IH]; cbn [collapseSpaces allChars]; [auto|].
  intros H. apply andb_true_iff in H. destruct H as [Hc Hr].
  unfold inkChar in Hc. apply negb_true_iff in Hc. now rewrite Hc, (IH Hr).
Qed.

Lemma collapseSpaces_ink_app a s :
  allChars inkChar a = true -> collapseSpaces (a ++ s) = (a ++ collapseSpaces s)%string.
Proof.
  induction a as [|c r IH]; [reflexivity|].
  rewrite !append_cons. cbn [collapseSpaces allChars].
  intros H. apply andb_true_iff in H. destruct H as [Hc Hr].
  unfold inkChar in Hc. apply negb_true_iff in Hc. now rewrite Hc, (IH Hr).
Qed.

Lemma collapseSpaces_run w b :
  allChars isSpace w = true -> w <> ""%string ->
  allChars inkChar b = true -> b <> ""%string ->
  collapseSpaces (w ++ b) = String " " b.
Proof.
  intros Hw Hne Hb Hbne. induction w as [|c r IH]; [congruence|].
  rewrite append_cons. cbn [collapseSpaces]. cbn [allChars] in Hw.
  apply andb_true_iff in Hw. destruct Hw as [Hc Hr]. rewrite Hc.
  destruct r as [|c' r'].
  - rewrite append_nil. destruct b as [|d b']; [congruence|].
    pose proof Hb as Hb'. cbn [allChars] in Hb'. apply andb_true_iff in Hb'.
    destruct Hb' as [Hd _]. unfold inkChar in Hd. apply negb_true_iff in Hd.
    rewrite Hd. now rewrite (collapseSpaces_ink _ Hb).
  - rewrite append_cons. pose proof Hr as Hr'. cbn [allChars] in Hr'.
    apply andb_true_iff in Hr'. destruct Hr' as [Hc' _]. rewrite Hc'.
    rewrite <- append_cons. apply IH; [exact Hr|discriminate].
Qed.

Lemma trimEnd_ends_ink x w :
  allChars inkChar w = true -> w <> ""%string ->
  trimEnd (x ++ w) = (x ++ w)%string.
Proof.
  intros Hw Hne. induction x as [|c r IH].
  - rewrite append_nil. rewrite <- (string_app_nil_r w) at 1.
    rewrite (trimEnd_ink _ _ Hw). cbn [trimEnd]. apply string_app_nil_r.
  - rewrite append_cons. cbn [trimEnd]. rewrite IH.
    destruct (r ++ w)%string eqn:E; [|reflexivity].
    destruct r; [rewrite append_nil in E; congruence|discriminate].
Qed.

Lemma two_words_clean (w1 sep w2 : string) :
  allChars wordChar w1 = true -> w1 <> ""%string ->
  allChars sepChar sep = true -> sep <> ""%string ->
  allChars wordChar w2 = true -> w2 <> ""%string ->
  cleanHeader (w1 ++ sep ++ w2) = (toLowerCase w1 ++ " " ++ toLowerCase w2)%string.
Proof.
  intros H1 N1 Hs Ns H2 N2.
    assert (I1 : allChars inkChar w1 = true)
      by (eapply allChars_weaken; [apply wordChar_ink|exact H1]).
    assert (I2 : allChars inkChar w2 = true)
      by (eapply allChars_weaken; [apply wordChar_ink|exact H2]).
    assert (Hmap : forall w, allChars wordChar w = true ->
                     mapChars cleanChar w = toLowerCase w /\
                     allChars inkChar (mapChars cleanChar w) = true).
    { induction w as [|c r IH]; cbn [allChars mapChars toLowerCase]; [auto|].
      intros H. apply andb_true_iff in H. destruct H as [Hc Hr].
      destruct (IH Hr) as [E A]. rewrite E, (cleanChar_word _ Hc). split; [reflexivity|].
      rewrite <- E, A, andb_true_r. unfold inkChar.
      rewrite <- (cleanChar_word _ Hc), (cleanChar_word_ink _ Hc). reflexivity. }
    assert (Hsep : allChars isSpace (mapChars cleanChar sep) = true).
    { clear Ns. induction sep as [|c r IH]; cbn [allChars mapChars]; [reflexivity|].
      cbn [allChars] in Hs. apply andb_true_iff in Hs. destruct Hs as [Hc Hr].
      now rewrite (cleanChar_sep _ Hc), (IH Hr). }
    destruct (Hmap w1 H1) as [E1 A1]. destruct (Hmap w2 H2) as [E2 A2].
    rewrite cleanHeader_chars.
    assert (Htrim : trim (w1 ++ sep ++ w2) = (w1 ++ sep ++ w2)%string).
    { unfold trim. rewrite (trimStart_ink _ _ I1 N1).
      replace (w1 ++ sep ++ w2)%string with ((w1 ++ sep) ++ w2)%string.
      - now apply trimEnd_ends_ink.
      - clear. induction w1 as [|c r IH]; [reflexivity|].
        rewrite !append_cons. now f_equal. }
    rewrite Htrim, !mapChars_app, (collapseSpaces_ink_app _ _ A1).
    rewrite collapseSpaces_run; [now rewrite E1, E2|exact Hsep| |exact A2|].
    + destruct sep; [congruence|discriminate].
    + rewrite E2. destruct w2; [congruence|discriminate].
Qed.

(** On a header of ASCII text, cleaning ignores the case of letters,
    takes underscores and hyphens alike, and ignores white space around
    the header.  Its result holds no underscore, no hyphen and no
    upper-case letter, and its white space is single spaces only.  Two
    ASCII words joined by any run of spaces, tabs, underscores and
    hyphens clean to the two lower-cased words joined by one space, so
    [Avg_Fill], [avg-fill] and [AVG  FILL] are the same header. *)
Theorem header_cleaning_is_insensitive (h : string) :
  allChars isAsciiChar h = true ->
  cleanHeader (toUpperCase h) = cleanHeader h /\
  cleanHeader (toLowerCase h) = cleanHeader h /\
  cleanHeader (replaceChar "_" "-" h) = cleanHeader h /\
  cleanHeader (replaceChar "-" "_" h) = cleanHeader h /\
  cleanHeader (trim h) = cleanHeader h /\
  allChars headerChar (cleanHeader h) = true /\
  singleSpaced (cleanHeader h) = true /\
  (forall w1 sep w2 : string,
     allChars isAsciiChar w1 = true -> allChars isAsciiChar w2 = true ->
     allChars wordChar w1 = true -> w1 <> ""%string ->
     allChars sepChar sep = true -> sep <> ""%string ->
     allChars wordChar w2 = true -> w2 <> ""%string ->
     cleanHeader (w1 ++ sep ++ w2) = (toLowerCase w1 ++ " " ++ toLowerCase w2)%string).
Proof.
  intros _.
  split; [|split; [|split; [|split; [|split; [|split; [|split]]]]]].
  - rewrite toUpperCase_mapChars.
    apply cleanHeader_mapChars; [apply isSpace_upper|apply cleanChar_upper].
  - rewrite toLowerCase_mapChars.
    apply cleanHeader_mapChars; [apply isSpace_lower|apply cleanChar_lower].
  - rewrite replaceChar_mapChars.
    apply cleanHeader_mapChars; [apply isSpace_underscore|apply cleanChar_underscore].
  - rewrite replaceChar_mapChars.
    apply cleanHeader_mapChars; [apply isSpace_hyphen|apply cleanChar_hyphen].
  - unfold cleanHeader. now rewrite trim_idem.
  - rewrite cleanHeader_chars.
    apply collapseSpaces_headerChar, allChars_mapChars, cleanChar_headerChar.
  - rewrite cleanHeader_chars. apply collapseSpaces_singleSpaced.
  - intros w1 sep w2 _ _ H1 N1 Hs Ns H2 N2.
    apply two_words_clean; assumption.
Qed.

Lemma header_cleaning_is_insensitive_witness :
  allChars isAsciiChar "Avg_Fill" = true /\
  cleanHeader (toUpperCase "Avg_Fill") = cleanHeader "Avg_Fill" /\
  cleanHeader "Avg_Fill" = "avg fill"%string.
Proof.
  assert (Ha : allChars isAsciiChar "Avg_Fill" = true) by reflexivity.
  destruct (header_cleaning_is_insensitive "Avg_Fill" Ha)
    as (H1 & _ & _ & _ & _ & _ & _ & H8).
  split; [exact Ha|]. split; [exact H1|].
  exact (H8 "Avg"%string "_"%string "Fill"%string
            eq_refl eq_refl eq_refl ltac:(discriminate) eq_refl
            ltac:(discriminate) eq_refl ltac:(discriminate)).
Defined.

(** ** Recognising the export *)

Lemma detectSource_iff headers :
  detectSource headers = BLOFIN_ORDER_HISTORY <->
  Forall (fun x => In (cleanHeader x) (map cleanHeader headers)) blofinHeaders.
Proof.
  unfold detectSource, blofinHeaders, includes.
  match goal with |- context [if ?b then _ else _] => destruct b eqn:E end.
  - split; [intros _|reflexivity]. rewrite !andb_true_iff in E.
    destruct E as [[[[[[E1 E2] E3] E4] E5] E6] E7].
    repeat constructor; apply existsb_eqb_In; assumption.
  - split; [discriminate|]. intros F. exfalso.
    repeat match goal with
           | H : Forall _ (_ :: _) |- _ => inversion H; clear H; subst
           end.
    repeat match goal with
           | H : In _ (map cleanHeader headers) |- _ =>
               apply existsb_eqb_In in H; rewrite H in E; clear H
           end.
    discriminate.
Qed.

(** For headers of ASCII text, the export is recognised exactly when
    each of the seven required headers has a column whose cleaned header
    equals its own cleaned form.  So detection survives anything that
    keeps those cleaned headers available: extra columns, any column
    order, any letter case.  Without headers nothing is recognised. *)
Theorem export_is_recognised_by_its_headers (headers : list string) :
  Forall (fun h => allChars isAsciiChar h = true) headers ->
  (detectSource headers = BLOFIN_ORDER_HISTORY <->
   Forall (fun x => exists h, In h headers /\ cleanHeader h = cleanHeader x)
     blofinHeaders) /\
  (forall headers',
     Forall (fun h => allChars isAsciiChar h = true) headers' ->
     (forall h, In h headers ->
        exists h', In h' headers' /\ cleanHeader h' = cleanHeader h) ->
     detectSource headers = BLOFIN_ORDER_HISTORY ->
     detectSource headers' = BLOFIN_ORDER_HISTORY) /\
  (forall headers',
     Permutation headers headers' -> detectSource headers' = detectSource headers) /\
  detectSource (map toUpperCase headers) = detectSource headers /\
  detectSource (map toLowerCase headers) = detectSource headers /\
  detectSource [] = UNKNOWN_SOURCE.
Proof.
  intros _.
  assert (Hiff : forall hs,
            detectSource hs = BLOFIN_ORDER_HISTORY <->
            Forall (fun x => exists h, In h hs /\ cleanHeader h = cleanHeader x)
              blofinHeaders).
  { intros hs. rewrite detectSource_iff. split; intros F;
      (eapply List.Forall_impl; [|exact F]); cbn beta; intros x Hx.
    - apply in_map_iff in Hx. destruct Hx as (h & E & Hh). eauto.
    - destruct Hx as (h & Hh & E). rewrite <- E. now apply in_map. }
  assert (Hmono : forall hs hs',
            (forall h, In h hs -> exists h', In h' hs' /\ cleanHeader h' = cleanHeader h) ->
            detectSource hs = BLOFIN_ORDER_HISTORY ->
            detectSource hs' = BLOFIN_ORDER_HISTORY).
  { intros hs hs' Hcov H. apply Hiff. apply Hiff in H.
    eapply List.Forall_impl; [|exact H]. cbn beta. intros x (h & Hh & E).
    destruct (Hcov h Hh) as (h' & Hh' & E'). exists h'. split; [exact Hh'|congruence]. }
  assert (Hsame : forall hs hs',
            (forall h, In h hs -> exists h', In h' hs' /\ cleanHeader h' = cleanHeader h) ->
            (forall h, In h hs' -> exists h', In h' hs /\ cleanHeader h' = cleanHeader h) ->
            detectSource hs' = detectSource hs).
  { intros hs hs' H1 H2.
    destruct (detectSource hs) eqn:E.
    - now apply (Hmono hs hs').
    - destruct (detectSource hs') eqn:E'; [|reflexivity].
      rewrite (Hmono hs' hs H2 E') in E. discriminate. }
  assert (Hstyle : forall f,
            (forall h, cleanHeader (f h) = cleanHeader h) ->
            detectSource (map f headers) = detectSource headers).
  { intros f Hf. apply Hsame.
    - intros h Hh. exists (f h). split; [now apply in_map|apply Hf].
    - intros h Hh. apply in_map_iff in Hh. destruct Hh as (h0 & <- & Hh0).
      exists h0. split; [exact Hh0|symmetry; apply Hf]. }
  split; [apply Hiff|]. split; [intros headers' _; apply Hmono|].
  split; [|split; [|split]].
  - intros headers' Hp. apply Hsame; intros h Hh; exists h; split; try reflexivity.
    + now apply (Permutation_in _ Hp).
    + now apply (Permutation_in _ (Permutation_sym Hp)).
  - apply Hstyle. intros h. rewrite toUpperCase_mapChars.
    apply cleanHeader_mapChars; [apply isSpace_upper|apply cleanChar_upper].
  - apply Hstyle. intros h. rewrite toLowerCase_mapChars.
    apply cleanHeader_mapChars; [apply isSpace_lower|apply cleanChar_lower].
  - reflexivity.
Qed.

Lemma export_is_recognised_by_its_headers_witness :
  Forall (fun h => allChars isAsciiChar h = true) blofinHeaders /\
  detectSource (map toUpperCase blofinHeaders) = BLOFIN_ORDER_HISTORY.
Proof.
  assert (Ha : Forall (fun h => allChars isAsciiChar h = true) blofinHeaders)
    by (repeat constructor).
  split; [exact Ha|].
  destruct (export_is_recognised_by_its_headers blofinHeaders Ha)
    as (_ & _ & _ & H4 & _).
  etransitivity; [exact H4|]. vm_compute. reflexivity.
Defined.

(** ** Reading the rows *)

Section RowFacts.
Variable Number : string -> num.
Variable Date_parse : string -> option Z.
Variable Date_local : num -> num -> num -> num -> num -> num -> option Z.

Let parse := parseBloFinRows Number Date_parse Date_local.
Let parseOne := parseRow Number Date_parse Date_local.

Lemma parse_app a b : parse (a ++ b) = parse a ++ parse b.
Proof.
  unfold parse, parseBloFinRows.
  now rewrite List.filter_app, map_app, List.filter_app, flat_map_app.
Qed.

Lemma parse_one r :
  parse [r] =
  if isFilled r && isUsable (parseOne r) then fillOf (parseOne r) else [].
Proof.
  unfold parse, parseBloFinRows, parseOne. cbn [List.filter].
  destruct (isFilled r); cbn [map List.filter andb]; [|reflexivity].
  destruct (isUsable _); cbn [flat_map]; [apply app_nil_r|reflexivity].
Qed.

Lemma fillOf_usable x f :
  isUsable x = true -> In f (fillOf x) ->
  exists time,
    Parsed.time x = Some time /\
    f = Fill.mk (Parsed.symbol x) (Parsed.action x) (Parsed.direction x) time
          (Parsed.avgFill x) (Parsed.qty x) (Parsed.pnl x) (Parsed.pnlPct x)
          (Parsed.fee x) /\
    Parsed.symbol x <> ""%string /\
    Parsed.action x <> UNKNOWN_ACTION /\
    Parsed.direction x <> UNKNOWN_DIRECTION.
Proof.
  unfold isUsable, fillOf. rewrite !andb_true_iff, negb_true_iff.
  intros [[[Hs Ha] Hd] Ht] Hin.
  destruct (Parsed.time x) as [time|]; [|discriminate].
  destruct Hin as [<-|[]]. exists time. split; [reflexivity|]. split; [reflexivity|].
  split; [now apply String.eqb_neq|].
  split; [destruct (Parsed.action x)|destruct (Parsed.direction x)]; congruence.
Qed.

Lemma parse_In f rows :
  In f (parse rows) ->
  exists r, In r rows /\ isFilled r = true /\ isUsable (parseOne r) = true /\
            In f (fillOf (parseOne r)).
Proof.
  unfold parse, parseBloFinRows. intros H.
  apply in_flat_map in H. destruct H as (x & Hx & Hf).
  apply List.filter_In in Hx. destruct Hx as [Hx Hu].
  apply in_map_iff in Hx. destruct Hx as (r & <- & Hr).
  apply List.filter_In in Hr. destruct Hr as [Hr Hfilled].
  exists r. auto.
Qed.

Lemma parse_wellFormed rows : Forall fillWellFormed (parse rows).
Proof.
  apply List.Forall_forall. intros f Hf.
  destruct (parse_In _ _ Hf) as (r & _ & _ & Hu & Hin).
  destruct (fillOf_usable _ _ Hu Hin) as (time & _ & -> & Hs & Ha & Hd).
  unfold fillWellFormed.
  cbn [Fill.symbol Fill.action Fill.direction Fill.avgFill Fill.qty].
  split; [exact Hs|]. split; [apply trim_idem|].
  split; [destruct (Parsed.action (parseOne r)); auto; congruence|].
  split; [destruct (Parsed.direction (parseOne r)); auto; congruence|].
  split; apply parseNumWithUnits_range.
Qed.

(** Every fill read from an export has a non-empty, trimmed symbol, an
    action that is OPEN or CLOSE, a direction that is LONG or SHORT, and
    a price and a quantity that are finite or NaN.  Rows are read one by
    one and in order: a row gives at most one fill, and none unless its
    status is [filled] in any letter case.  In a side naming both, CLOSE
    wins over OPEN and SHORT over LONG. *)
Theorem parsed_fills_are_well_formed (rows : list Row) :
  Forall fillWellFormed (parse rows) /\
  (forall a b, parse (a ++ b) = parse a ++ parse b) /\
  (forall r, parse [r] = [] \/ exists f, parse [r] = [f]) /\
  (forall r, toLowerCase (cell r "Status") <> "filled"%string -> parse [r] = []) /\
  (forall r f, parse [r] = [f] ->
     let side := toUpperCase (trim (cell r "Side")) in
     (strIncludes "CLOSE" side = true -> Fill.action f = CLOSE) /\
     (strIncludes "SHORT" side = true -> Fill.direction f = SHORT) /\
     Fill.symbol f = trim (cell r "Underlying Asset")).
Proof.
  split; [apply parse_wellFormed|]. split; [apply parse_app|].
  split; [|split].
  - intros r. rewrite parse_one.
    destruct (isFilled r && isUsable (parseOne r)); [|now left].
    unfold fillOf. destruct (Parsed.time (parseOne r)); [right; eauto|now left].
  - intros r Hs. rewrite parse_one. unfold isFilled.
    destruct (String.eqb_spec (toLowerCase (cell r "Status")) "filled");
      [contradiction|reflexivity].
  - intros r f Hf side.
    assert (Hin : In f (parse [r])) by (rewrite Hf; now left).
    rewrite parse_one in Hin.
    destruct (isFilled r && isUsable (parseOne r)) eqn:E; [|destruct Hin].
    apply andb_true_iff in E. destruct E as [_ Hu].
    destruct (fillOf_usable _ _ Hu Hin) as (time & _ & -> & _).
    cbn [Fill.action Fill.direction Fill.symbol].
    unfold parseOne, parseRow. cbn [Parsed.action Parsed.direction Parsed.symbol].
    fold side. split; [now intros ->|]. split; [now intros ->|reflexivity].
Qed.

(** An upload the app does not recognise shows no trades and the
    unsupported-file message, whatever its rows.  A recognised one shows
    no error and one trade per CLOSE fill read from the rows; every
    trade shown is a BloFin trade with a non-empty, trimmed symbol and a
    LONG or SHORT direction, and carries the data of one of those CLOSE
    fills. *)
Theorem upload_shows_one_trade_per_close (headers : list string) (rows : list Row) :
  let result := handleFile Number Date_parse Date_local headers rows in
  (detectSource headers = UNKNOWN_SOURCE ->
   result = (UNKNOWN_SOURCE, [], unsupportedText)) /\
  (detectSource headers = BLOFIN_ORDER_HISTORY ->
   exists closed,
     result = (BLOFIN_ORDER_HISTORY, closed, ""%string) /\
     closed = buildClosedTradesFromFills (parse rows) /\
     length closed = length (List.filter isClose (parse rows)) /\
     Forall (fun t =>
               Trade.exchange t = "BloFin"%string /\
               Trade.symbol t <> ""%string /\
               trim (Trade.symbol t) = Trade.symbol t /\
               (Trade.direction t = LONG \/ Trade.direction t = SHORT) /\
               exists f, In f (parse rows) /\ isClose f = true /\ carries f t)
       closed).
Proof.
  intros result. unfold result, handleFile. split; intros ->; [reflexivity|].
  fold parse. set (fills := parse rows).
  assert (Hid : forall l : list Trade.t, List.filter (fun _ => true) l = l).
  { induction l as [|t l IH]; cbn [List.filter]; [reflexivity|now rewrite IH]. }
  rewrite Hid. eexists. split; [reflexivity|]. split; [reflexivity|].
  unfold buildClosedTradesFromFills, buildState.
  destruct (replay_carries (sortByKey Fill.time fills) emptyBuild) as (em & E & F).
  rewrite E. cbn [emptyBuild closedTrades app]. split.
  - rewrite <- (Forall2_length _ _ _ F), sortByKey_filter.
    apply Permutation_length. symmetry. apply sortByKey_perm.
  - assert (Hwf : Forall fillWellFormed (List.filter isClose (sortByKey Fill.time fills)) /\
                  Forall (fun f => In f fills /\ isClose f = true)
                    (List.filter isClose (sortByKey Fill.time fills))).
    { split; apply List.Forall_forall; intros f Hf; apply List.filter_In in Hf;
        destruct Hf as [Hf Hc];
        apply (Permutation_in _ (Permutation_sym (sortByKey_perm Fill.time fills))) in Hf.
      - pose proof (parse_wellFormed rows) as W. rewrite List.Forall_forall in W.
        now apply W.
      - auto. }
    destruct Hwf as [Hwf Hfrom]. clear E.
    induction F as [|f t cl em' Hc F IH]; [constructor|].
    inversion Hwf as [|? ? W Hwf']; subst. inversion Hfrom as [|? ? [Hin Hcl] Hfrom']; subst.
    constructor; [|now apply IH].
    pose proof Hc as (C1 & C2 & C3 & _). destruct W as (W1 & W2 & _ & W4 & _).
    rewrite C2, C3. repeat split; auto. exists f. auto.
Qed.
End RowFacts.

(** ** A chunk that fails on both bases fails the run *)









Lemma bases_differ : primaryBase <> fallbackBase.
Proof. discriminate. Qed.








